(** * gtg: task groups with deduplication

    A shallow embedding of the Go package [gtg] (files [gtg.go] and
    [gtg_internal.go]) and the proofs of its specified properties.

    Part I is the embedding: Go strings and errors, task functions, the
    selection code ([Choose]), the task state machine ([run], [finalize]),
    the world of one group as a goroutine sees it (a clock, the map of the
    group, the task objects and the behaviour of the other goroutines),
    [reflect.Select], the wait group, [taskGroup.Task], the helpers [Wait],
    [Opt], [Ser] and [Par], and the statement-by-statement model of
    concurrent calls of [Task]. Part II holds the lemmas and the theorems of
    the specified properties, Part III further properties of the package.

    What the embedding leaves out: the goroutines of the tasks are opaque
    (each runs for a given time and ends in a given way, and what it does to
    its own group meanwhile is not modelled); names are compared by the
    ASCII path of [strings.EqualFold]; [%q] escapes nothing. *)

From Stdlib Require Import ZArith Lia Bool Ascii String HexString.
From stdpp Require Import base option list gmap strings.

Local Open Scope list_scope.
Local Open Scope stdpp_scope.

(* ===================================================================== *)
(** * Part I: the embedding                                               *)
(* ===================================================================== *)

(* --------------------------------------------------------------------- *)
(** ** Go strings                                                         *)
(* --------------------------------------------------------------------- *)

(** Go strings are byte strings; [string] is a list of 8-bit characters. *)

(** The double quote character, as [%q] prints it around a string. *)
Definition dquote : string := String (ascii_of_nat 34) EmptyString.

(** [s[n:]] for [0 <= n <= len(s)]. *)
Fixpoint string_drop (n : nat) (s : string) : string :=
  match n, s with
  | O, _ => s
  | S n', String _ rest => string_drop n' rest
  | S _, EmptyString => EmptyString
  end.

(** [strings.LastIndex(s, sep)]: the byte offset of the last occurrence of
    [sep] in [s], or [-1]. The scan keeps the offset [pos] of the current
    suffix and the last offset [found] at which [sep] is a prefix. *)
Fixpoint LastIndex_from (s sep : string) (pos found : Z) : Z :=
  let found' := if String.prefix sep s then pos else found in
  match s with
  | EmptyString => found'
  | String _ rest => LastIndex_from rest sep (pos + 1)%Z found'
  end.

Definition LastIndex (s sep : string) : Z := LastIndex_from s sep 0%Z (-1)%Z.

(** ASCII case folding, the byte-wise path of [strings.EqualFold]: on two
    strings of ASCII bytes this is exactly Go's result. Where a string has a
    byte above 127, Go decodes UTF-8 and folds Unicode characters, which is
    not modelled; the theorems about names are stated for ASCII names
    ([is_ascii] below). *)
Definition fold_byte (c : ascii) : ascii :=
  let n := nat_of_ascii c in
  if (Nat.leb 65 n && Nat.leb n 90)%bool then ascii_of_nat (n + 32) else c.

Fixpoint EqualFold (s t : string) : bool :=
  match s, t with
  | EmptyString, EmptyString => true
  | String a s', String b t' =>
      (Ascii.eqb (fold_byte a) (fold_byte b) && EqualFold s' t')%bool
  | _, _ => false
  end.

(** The [%q] verb on a string: the text between double quotes. Task names
    hold no quote, backslash or control character, so nothing is escaped. *)
Definition Quote (s : string) : string := dquote +:+ s +:+ dquote.

(** The [%q] verb on a [[]string]: the quoted elements, space separated,
    between square brackets. *)
Fixpoint join_quoted (l : list string) : string :=
  match l with
  | [] => EmptyString
  | [s] => Quote s
  | s :: rest => Quote s +:+ " " +:+ join_quoted rest
  end.

Definition QuoteList (l : list string) : string := "[" +:+ join_quoted l +:+ "]".

(** [strings.Contains(s, sub)], decided by scanning the suffixes of [s]. *)
Fixpoint Contains (s sub : string) : bool :=
  if String.prefix sub s then true
  else match s with
       | EmptyString => false
       | String _ rest => Contains rest sub
       end.

(* --------------------------------------------------------------------- *)
(** ** Go errors                                                          *)
(* --------------------------------------------------------------------- *)

(** A non-nil Go [error]. [errorString] is what [errors.New] and
    [fmt.Errorf] without [%w] build; [wrapError] is [*fmt.wrapError], built
    by [fmt.Errorf] with one [%w]: it keeps the formatted message and the
    wrapped cause. A possibly-nil [error] is an [option error]. *)
Inductive error : Type :=
| errorString (s : string)
| wrapError (msg : string) (err : error).

(** The [Error()] method. *)
Definition Error (e : error) : string :=
  match e with
  | errorString s => s
  | wrapError msg _ => msg
  end.

(** [errors.Unwrap]. *)
Definition Unwrap (e : error) : option error :=
  match e with
  | errorString _ => None
  | wrapError _ cause => Some cause
  end.

#[global] Instance error_eq_dec : EqDecision error.
Proof. solve_decision. Defined.

(** [errors.Is(e, target)] for comparable errors: [target] is found somewhere
    on the [Unwrap] chain of [e]. *)
Fixpoint errors_Is (e target : error) : bool :=
  if bool_decide (e = target) then true
  else match e with
       | errorString _ => false
       | wrapError _ cause => errors_Is cause target
       end.

(** A Go interface value of type [interface{}], as far as [finalize] inspects
    it: nil, a value that implements [error], or any other value, of which
    only the [%#v] rendering is used. *)
Inductive any : Type :=
| anyNil
| anyError (e : error)
| anyValue (gosyntax : string).

(* --------------------------------------------------------------------- *)
(** ** Task functions                                                     *)
(* --------------------------------------------------------------------- *)

Module TaskFunc.

(** A non-nil function value of type [TaskFunc]: [id] is the word that
    [id()] reads through the unsafe pointer (the function's identity), [pc]
    the code pointer [reflect.ValueOf(self).Pointer()], and [name] what
    [runtime.FuncForPC(pc).Name()] answers. *)
Record func : Type := Func { func_id : N; func_pc : N; func_name : string }.

(** A [TaskFunc]; [None] is the nil function. *)
Definition t : Type := option func.

(** [func (self TaskFunc) id() uintptr]; a nil function is the zero word. *)
Definition id (self : t) : N :=
  match self with
  | Some f => func_id f
  | None => 0%N
  end.

(** [func (self TaskFunc) longName() string]; [FuncForPC] of a nil
    function is nil, whose [Name()] is the empty string. *)
Definition longName (self : t) : string :=
  match self with
  | Some f => func_name f
  | None => EmptyString
  end.

(** The [%#v] rendering of a function value. *)
Definition GoString (self : t) : string :=
  match self with
  | Some f => "(gtg.TaskFunc)(" +:+ HexString.of_N (func_pc f) +:+ ")"
  | None => "(gtg.TaskFunc)(nil)"
  end.

End TaskFunc.

Abbreviation TaskFunc := TaskFunc.t.

#[global] Instance func_eq_dec : EqDecision TaskFunc.func.
Proof. solve_decision. Defined.

(** [func funcShortName(name string) string] *)
Definition funcShortName (name : string) : string :=
  let ind := LastIndex name "." in
  if (ind >=? 0)%Z then string_drop (Z.to_nat (ind + 1)) name else name.

Module TaskFuncMethods.
Import TaskFunc.

(** [func (self TaskFunc) ShortName() string] *)
Definition ShortName (self : TaskFunc) : string :=
  funcShortName (longName self).

(** [func (self TaskFunc) equalTaskName(name string) bool] *)
Definition equalTaskName (self : TaskFunc) (name : string) : bool :=
  EqualFold name (ShortName self).

(** [func (self TaskFunc) equal(other TaskFunc) bool] *)
Definition equal (self other : TaskFunc) : bool :=
  N.eqb (id self) (id other).

(** [func (self TaskFunc) equalTask(other TaskFunc) bool] *)
Definition equalTask (self other : TaskFunc) : bool :=
  (equal self other || equalTaskName self (ShortName other))%bool.

End TaskFuncMethods.
Export TaskFuncMethods.

(* --------------------------------------------------------------------- *)
(** ** [taskFuncs] and [Choose]                                           *)
(* --------------------------------------------------------------------- *)

Module taskFuncs.

(** [type taskFuncs []TaskFunc] *)
Definition t : Type := list TaskFunc.

(** [func (self taskFuncs) byTaskName(name string) TaskFunc]: the first
    element whose short name folds to [name], or nil. *)
Fixpoint byTaskName (self : t) (name : string) : TaskFunc :=
  match self with
  | [] => None
  | value :: rest =>
      if equalTaskName value name then value else byTaskName rest name
  end.

(** [func (self taskFuncs) hasTaskName(name string) bool] *)
Definition hasTaskName (self : t) (name : string) : bool :=
  match byTaskName self name with
  | Some _ => true
  | None => false
  end.

(** [func (self taskFuncs) hasTask(val TaskFunc) bool] *)
Fixpoint hasTask (self : t) (val : TaskFunc) : bool :=
  match self with
  | [] => false
  | value :: rest => if equalTask value val then true else hasTask rest val
  end.

(** [func (self taskFuncs) shortNames() []string] *)
Definition shortNames (self : t) : list string := map ShortName self.

(** [func (self *taskFuncs) add(val TaskFunc) error]: the receiver is
    updated through the pointer, so the new slice is returned next to the
    error; on an error the slice is the one given. *)
Definition add (self : t) (val : TaskFunc) : t * option error :=
  match val with
  | None => (self, Some (errorString "unexpected nil task function"))
  | Some _ =>
      let name := ShortName val in
      if bool_decide (name = EmptyString) then
        (self, Some (errorString
           ("unexpected unnamed task function " +:+ TaskFunc.GoString val)))
      else if hasTaskName self name then
        (self, Some (errorString
           ("unexpected task function with duplicate name " +:+ Quote name)))
      else if hasTask self val then
        (self, Some (errorString
           ("unexpected duplicate task function "
              +:+ Quote (TaskFunc.longName val))))
      else (self ++ [val], None)
  end.

End taskFuncs.

(** [func dedup(funs []TaskFunc) (taskFuncs, error)]; [out] is the slice
    built so far, nil at the call. *)
Fixpoint dedup_from (out : taskFuncs.t) (funs : list TaskFunc)
  : taskFuncs.t * option error :=
  match funs with
  | [] => (out, None)
  | fun_ :: rest =>
      match taskFuncs.add out fun_ with
      | (_, Some err) => ([], Some err)
      | (out', None) => dedup_from out' rest
      end
  end.

Definition dedup (funs : list TaskFunc) : taskFuncs.t * option error :=
  dedup_from [] funs.

(** The loop of [Choose] over [names], with the slice [chosen] built so
    far. *)
Fixpoint choose_loop (known chosen : taskFuncs.t) (names : list string)
  : taskFuncs.t * option error :=
  match names with
  | [] => (chosen, None)
  | name :: rest =>
      match taskFuncs.byTaskName known name with
      | None =>
          (chosen, Some (errorString
             ("unknown task " +:+ Quote name
                +:+ "; known tasks (case-insensitive): "
                +:+ QuoteList (taskFuncs.shortNames known))))
      | Some f =>
          match taskFuncs.add chosen (Some f) with
          | (_, Some err) => (chosen, Some err)
          | (chosen', None) => choose_loop known chosen' rest
          end
      end
  end.

(** [func Choose(names []string, funs []TaskFunc) (TaskFunc, error)] *)
Definition Choose (names : list string) (funs : list TaskFunc)
  : TaskFunc * option error :=
  match dedup funs with
  | (_, Some err) => (None, Some err)
  | (known, None) =>
      match choose_loop known [] names with
      | (_, Some err) => (None, Some err)
      | (chosen, None) =>
          match chosen with
          | [] =>
              (None, Some (errorString
                 ("no task specified, please choose one; known tasks (case-insensitive): "
                    +:+ QuoteList (taskFuncs.shortNames known))))
          | [only] => (only, None)
          | _ :: _ :: _ =>
              (None, Some (errorString
                 ("too many tasks specified, please choose one (case-insensitive): "
                    +:+ QuoteList (taskFuncs.shortNames chosen))))
          end
      end
  end.

(* --------------------------------------------------------------------- *)
(** ** The task state machine                                             *)
(* --------------------------------------------------------------------- *)

(** What a deferred [recover()] yields for a panic of the task function: an
    error, a value of another type, of which only the [%#v] rendering is
    used, or nil. It is the argument of [panic], except for [panic(nil)]:
    a program whose main module declares Go 1.21 or later turns that into a
    panic with a [*runtime.PanicNilError], which implements [error] and is a
    [payloadError] here; a program whose main module declares an older
    version, or that runs with [GODEBUG=panicnil=1], lets [recover()] yield
    nil, which is [payloadNil]. *)
Inductive payload : Type :=
| payloadError (e : error)
| payloadValue (gosyntax : string)
| payloadNil.

(** How the call [self.fun(...)] inside [run] ends: it returns an error
    value, possibly nil, or it panics. *)
Inductive outcome : Type :=
| Returned (err : option error)
| Panicked (val : payload).

(** The value [recover()] yields in the deferred call for a panic with
    payload [val]. After [payloadNil] it yields nil, as it does when the
    goroutine does not panic; the call stops the panic all the same. *)
Definition recovered (val : payload) : any :=
  match val with
  | payloadError e => anyError e
  | payloadValue s => anyValue s
  | payloadNil => anyNil
  end.

(** What happens to the fields of a task, in program order: an assignment
    to [self.err], or [close(self.done)]. *)
Inductive event : Type :=
| WriteErr (e : option error)
| CloseDone.

#[global] Instance event_eq_dec : EqDecision event.
Proof. solve_decision. Defined.

Module task.

(** [type task struct]: the function, the state of the [done] channel
    ([true] once closed) and the [err] field. The embedded context and
    group pointer are the same for every task of a group and are left to
    the group. *)
Record t : Type := Task { fun_ : TaskFunc; done : bool; err : option error }.

(** The result of running a method to its end: the task it leaves, the
    events in program order, and the panic that leaves the call
    ([None] when the call returns). *)
Record exec : Type := Exec { final : t; trace : list event; escaped : option payload }.

(** [func (self *task) Err() error] *)
Definition Err (self : t) : option error := err self.

(** [func (self *task) Done() <-chan struct{}]: the state of the channel,
    [true] when a receive from it proceeds. *)
Definition Done (self : t) : bool := done self.

(** [close(self.done)], deferred first in [finalize] and so run last;
    closing a closed channel panics. *)
Definition close_done (self : t) (tr : list event) (panicking : option payload)
  : exec :=
  if done self then
    Exec self tr (Some (payloadError (errorString "close of closed channel")))
  else
    Exec (Task (fun_ self) true (err self)) (tr ++ [CloseDone]) panicking.

(** [func (self *task) finalize()], run as the deferred call of [run] while
    the goroutine panics with [panicking] ([None]: no panic). The first
    branch returns without calling [recover()], which leaves a panic in
    flight. In the second branch [val := recover()] stops the panic, if
    there is one, and is nil when there is none or when the panic is one
    that makes [recover()] yield nil. *)
Definition finalize (self : t) (tr : list event) (panicking : option payload)
  : exec :=
  let name := Quote (ShortName (fun_ self)) in
  match err self with
  | Some e =>
      let wrapped :=
        wrapError ("task " +:+ name +:+ " finished with error: " +:+ Error e) e in
      close_done (Task (fun_ self) (done self) (Some wrapped))
                 (tr ++ [WriteErr (Some wrapped)]) panicking
  | None =>
      let val := default anyNil (recovered <$> panicking) in
      match val with
      | anyError e =>
          let wrapped :=
            wrapError ("task " +:+ name +:+ " panicked with error: " +:+ Error e) e in
          close_done (Task (fun_ self) (done self) (Some wrapped))
                     (tr ++ [WriteErr (Some wrapped)]) None
      | anyValue gosyntax =>
          let made :=
            errorString ("task " +:+ name +:+ " panicked with non-error value "
                           +:+ gosyntax) in
          close_done (Task (fun_ self) (done self) (Some made))
                     (tr ++ [WriteErr (Some made)]) None
      | anyNil => close_done self tr None
      end
  end.

(** [func (self *task) run()], given how the call of the task function
    ends. After a return the error is assigned to [self.err] under
    [errLock]; after a panic the assignment is skipped. [finalize] is
    deferred and runs in both cases. *)
Definition run (self : t) (o : outcome) : exec :=
  match o with
  | Returned e =>
      finalize (Task (fun_ self) (done self) e) [WriteErr e] None
  | Panicked val => finalize self [] (Some val)
  end.

End task.

(** [func newTask(ctx context.Context, group *taskGroup, fun TaskFunc) *task] *)
Definition newTask (fun_ : TaskFunc) : task.t := task.Task fun_ false None.

(* --------------------------------------------------------------------- *)
(** ** The world of one task group                                        *)
(* --------------------------------------------------------------------- *)

(** A [*task]: the index of the task object in the heap. *)
Abbreviation ptr := nat (only parsing).

(** A task object on the heap, with the time at which its goroutine was
    started ([None] until [go created.run()]). *)
Record cell : Type := Cell { obj : task.t; started : option nat }.

(** What one goroutine sees of a task group: the clock, the map
    [taskGroup.tasks], the task objects, the [go] statements executed so far,
    the lines written to [logOutput], the choices [reflect.Select] will make
    among ready cases, and, for the identity of every task function, how
    long the function runs and how it ends ([None]: it never returns). *)
Record world : Type := World {
  now : nat;
  tasks : gmap N ptr;
  heap : list cell;
  goroutines : list ptr;
  logOutput : list string;
  choices : list nat;
  behaviour : N -> option (nat * outcome)
}.

(** When and how the goroutine of a task ends. *)
Definition plan (w : world) (c : cell) : option (nat * outcome) :=
  match started c, behaviour w (TaskFunc.id (task.fun_ (obj c))) with
  | Some t0, Some (d, o) => Some (t0 + d, o)
  | _, _ => None
  end.

(** The time at which the goroutine of a task closes [done]. *)
Definition due (w : world) (c : cell) : option nat := fst <$> plan w c.

(** The task object at time [T]: a started task whose function has ended by
    then has been through [run]. *)
Definition complete_if_due (w : world) (T : nat) (c : cell) : cell :=
  match plan w c with
  | Some (t, o) =>
      if task.done (obj c) then c
      else if t <=? T then Cell (task.final (task.run (obj c) o)) (started c)
      else c
  | None => c
  end.

(** The other goroutines run until time [T]: the tasks whose function has
    ended by then are finished. A task function is opaque here: it runs for
    the time and ends the way [behaviour] tells, and what it does to its own
    group while it runs (calls of [Task], [Wait], [Par] or [Opt], lines
    written to the log) is not part of the world. Theorems that tell which
    tasks a call leaves in the group are stated as lower bounds for that
    reason. *)
Definition advance (T : nat) (w : world) : world :=
  let T' := Nat.max (now w) T in
  World T' (tasks w) (complete_if_due w T' <$> heap w) (goroutines w)
        (logOutput w) (choices w) (behaviour w).

(** The world as observed now. *)
Definition sync (w : world) : world := advance (now w) w.

(** A new group, as [Start] makes it, at time [t]. *)
Definition new_world (t : nat) (cs : list nat)
           (beh : N -> option (nat * outcome)) : world :=
  World t ∅ [] [] [] cs beh.

(** How a call ends: it returns [a] in world [w], it blocks forever, or it
    panics. [Exhausted] marks a loop of the model that ran out of steps. *)
Inductive result (A : Type) : Type :=
| Ok (a : A) (w : world)
| Blocked (w : world)
| Panics (msg : string)
| Exhausted.

Arguments Ok {A} a w.
Arguments Blocked {A} w.
Arguments Panics {A} msg.
Arguments Exhausted {A}.

Definition M (A : Type) : Type := world -> result A.

Definition ret {A} (a : A) : M A := fun w => Ok a w.

Definition bind {A B} (m : M A) (k : A -> M B) : M B :=
  fun w =>
    match m w with
    | Ok a w' => k a w'
    | Blocked w' => Blocked w'
    | Panics msg => Panics msg
    | Exhausted => Exhausted
    end.

Notation "x <- c1 ;; c2" := (bind c1 (fun x => c2))
  (at level 100, c1 at next level, right associativity).
Notation "c1 ;; c2" := (bind c1 (fun _ => c2))
  (at level 100, right associativity).

(** [<-ctx.Done()] on the task [p]: proceeds once the channel is closed. *)
Definition recv (p : ptr) : M unit :=
  fun w =>
    let w := sync w in
    match heap w !! p with
    | None => Panics "invalid memory address or nil pointer dereference"
    | Some c =>
        if task.Done (obj c) then Ok tt w
        else match due w c with
             | Some T => Ok tt (advance T w)
             | None => Blocked w
             end
    end.

(** [ctx.Err()] on the task [p]. *)
Definition Err (p : ptr) : M (option error) :=
  fun w =>
    let w := sync w in
    match heap w !! p with
    | None => Panics "invalid memory address or nil pointer dereference"
    | Some c => Ok (task.Err (obj c)) w
    end.

(** [func waitFor(ctx context.Context) error] *)
Definition waitFor (ctx : ptr) : M (option error) :=
  recv ctx ;; Err ctx.

(** The line that [Log] writes for an error, in the format
    [[gtg] error: %+v] and a newline. *)
Definition log_line (e : error) : string :=
  "[gtg] error: " +:+ Error e +:+ String (ascii_of_nat 10) EmptyString.

(** [func Log(err error)] *)
Definition Log (err : option error) : M unit :=
  fun w =>
    match err with
    | Some e =>
        Ok tt (World (now w) (tasks w) (heap w) (goroutines w)
                     (logOutput w ++ [log_line e])
                     (choices w) (behaviour w))
    | None => Ok tt w
    end.

(* --------------------------------------------------------------------- *)
(** ** [reflect.Select]                                                   *)
(* --------------------------------------------------------------------- *)

Inductive SelectDir : Type := SelectSend | SelectRecv | SelectDefault.

(** A channel is named by the task that owns it: the only channels of the
    package are the [done] channels, one per task. *)
Abbreviation chan := ptr (only parsing).

Record SelectCase : Type := Case { Dir : SelectDir; Chan : chan }.

(** [task.Done()] of the task at [p], as a channel value. *)
Definition Done (p : ptr) : chan := p.

Definition case_ready (w : world) (c : SelectCase) : bool :=
  match Dir c, heap w !! Chan c with
  | SelectRecv, Some c' => task.Done (obj c')
  | _, _ => false
  end.

(** The indexes of the cases that can proceed. *)
Definition ready (w : world) (cases : list SelectCase) : list nat :=
  filter (fun i => default false (case_ready w <$> cases !! i))
         (seq 0 (length cases)).

Definition case_due (w : world) (c : SelectCase) : option nat :=
  match Dir c, heap w !! Chan c with
  | SelectRecv, Some c' => if task.Done (obj c') then None else due w c'
  | _, _ => None
  end.

(** The earliest time at which a case that cannot proceed yet will. *)
Fixpoint next_due (w : world) (cases : list SelectCase) : option nat :=
  match cases with
  | [] => None
  | c :: rest =>
      match case_due w c, next_due w rest with
      | Some a, Some b => Some (Nat.min a b)
      | Some a, None => Some a
      | None, r => r
      end
  end.

(** The choice among the ready cases, which Go makes pseudo-randomly: the
    next number of [choices] picks it. *)
Definition pick (rdy : list nat) (w : world) : result nat :=
  match rdy with
  | [] => Exhausted
  | first :: _ =>
      match choices w with
      | [] => Ok first w
      | c :: rest =>
          Ok (nth (c mod length rdy) rdy first)
             (World (now w) (tasks w) (heap w) (goroutines w) (logOutput w)
                    rest (behaviour w))
      end
  end.

(** The most cases that [reflect.Select] takes. *)
Definition maxSelectCases : Z := 65536.

(** [reflect.Select(cases)] over receive cases: panics when given more than
    65536 cases; otherwise blocks until at least one case can proceed, then
    chooses one of those and returns its index. *)
Definition Select (cases : list SelectCase) : M nat :=
  fun w =>
    if (maxSelectCases <? Z.of_nat (length cases))%Z then
      Panics "reflect.Select: too many cases (max 65536)"
    else
      let w := sync w in
      match ready w cases with
      | (_ :: _) as rdy => pick rdy w
      | [] =>
          match next_due w cases with
          | None => Blocked w
          | Some T => let w' := advance T w in pick (ready w' cases) w'
          end
      end.

(* --------------------------------------------------------------------- *)
(** ** Go slices                                                          *)
(* --------------------------------------------------------------------- *)

(** [s[i:]], which panics unless [i <= len(s)]. *)
Definition slice_from {A} (s : list A) (i : nat) : option (list A) :=
  if i <=? length s then Some (drop i s) else None.

(** [s[:j]] for [j = len(s) - 1], which panics when [s] is empty. *)
Definition slice_init {A} (s : list A) : option (list A) :=
  match length s with
  | O => None
  | S n => Some (take n s)
  end.

(** The destination after [copy(dst, src)]: the first
    [min(len(dst), len(src))] elements come from [src]. *)
Definition go_copy {A} (dst src : list A) : list A :=
  take (length dst) src ++ drop (length src) dst.

(** [copy(s[index:], s[index+1:]); s = s[:len(s)-1]] *)
Definition slice_delete {A} (s : list A) (index : nat) : option (list A) :=
  dst ← slice_from s index;
  src ← slice_from s (index + 1);
  slice_init (take index s ++ go_copy dst src).

(* --------------------------------------------------------------------- *)
(** ** [waitGroup]                                                        *)
(* --------------------------------------------------------------------- *)

Module waitGroup.

(** [type waitGroup struct]; the field [tasks] is named [wtasks] here. *)
Record t : Type := WaitGroup { wtasks : list ptr; cases : list SelectCase }.

(** [func (self *waitGroup) add(task Task)] *)
Definition add (self : t) (task : ptr) : t :=
  WaitGroup (wtasks self ++ [task])
            (cases self ++ [Case SelectRecv (Done task)]).

(** [func (self *waitGroup) remove(index int) Task]; [None] when an index
    expression or a slice expression panics. *)
Definition remove (self : t) (index : nat) : option (ptr * t) :=
  task ← wtasks self !! index;
  tasks' ← slice_delete (wtasks self) index;
  cases' ← slice_delete (cases self) index;
  Some (task, WaitGroup tasks' cases').

(** The loop of [wait]; [fuel] bounds the number of iterations. *)
Fixpoint wait_loop (fuel : nat) (self : t) : M (option error * t) :=
  match cases self with
  | [] => ret (None, self)
  | _ :: _ =>
      match fuel with
      | O => fun _ => Exhausted
      | S fuel' =>
          index <- Select (cases self) ;;
          match remove self index with
          | None => fun _ => Panics "index out of range"
          | Some (task, self') =>
              err <- Err task ;;
              match err with
              | Some e => ret (Some e, self')
              | None => wait_loop fuel' self'
              end
          end
      end
  end.

(** [func (self *waitGroup) wait() error]; every iteration removes one
    case, so the number of cases bounds the iterations. *)
Definition wait (self : t) : M (option error * t) :=
  wait_loop (length (cases self)) self.

End waitGroup.

(** [func makeWaitGroup(size int) waitGroup] *)
Definition makeWaitGroup (size : nat) : waitGroup.t := waitGroup.WaitGroup [] [].

(* --------------------------------------------------------------------- *)
(** ** [taskGroup]                                                        *)
(* --------------------------------------------------------------------- *)

Module taskGroup.

(** [self.tasks[id]] *)
Definition lookup (w : world) (id : N) : option ptr := tasks w !! id.

(** [created := newTask(self.ctx, self, fun)]: a new object on the heap. *)
Definition create (w : world) (fun_ : TaskFunc) : world * ptr :=
  (World (now w) (tasks w) (heap w ++ [Cell (newTask fun_) None])
         (goroutines w) (logOutput w) (choices w) (behaviour w),
   length (heap w)).

(** [self.tasks[id] = created] *)
Definition store (w : world) (id : N) (created : ptr) : world :=
  World (now w) (<[id := created]> (tasks w)) (heap w) (goroutines w)
        (logOutput w) (choices w) (behaviour w).

(** [go created.run()] *)
Definition go_run (w : world) (created : ptr) : world :=
  World (now w) (tasks w)
        (alter (fun c => Cell (obj c) (Some (now w))) created (heap w))
        (goroutines w ++ [created]) (logOutput w) (choices w) (behaviour w).

(** [func (self *taskGroup) Task(fun TaskFunc) Task], as one step: the
    mutex is held from the first statement to the return. *)
Definition Task (fun_ : TaskFunc) : M ptr :=
  fun w =>
    let id := TaskFunc.id fun_ in
    match lookup w id with
    | Some existing => Ok existing w
    | None =>
        let '(w1, created) := create w fun_ in
        let w2 := store w1 id created in
        Ok created (go_run w2 created)
    end.

End taskGroup.

(* --------------------------------------------------------------------- *)
(** ** [Wait], [Opt], [Ser], [Par]                                        *)
(* --------------------------------------------------------------------- *)

(** The functions below take the [Task] or [TaskGroup] they are called with;
    a world holds one group, which stands for that argument. *)

(** [func Wait(group TaskGroup, fun TaskFunc) error] *)
Definition Wait (fun_ : TaskFunc) : M (option error) :=
  task <- taskGroup.Task fun_ ;; waitFor task.

(** [func Opt(fun TaskFunc) TaskFunc]: the body of the returned function. *)
Definition Opt (fun_ : TaskFunc) : M (option error) :=
  err <- Wait fun_ ;; Log err ;; ret None.

(** [func Ser(funs ...TaskFunc) TaskFunc]: the body of the returned
    function. *)
Fixpoint Ser (funs : list TaskFunc) : M (option error) :=
  match funs with
  | [] => ret None
  | fun_ :: rest =>
      err <- Wait fun_ ;;
      match err with
      | Some e => ret (Some e)
      | None => Ser rest
      end
  end.

(** The loop [for _, fun := range funs { wg.add(task.Task(fun)) }]. *)
Fixpoint add_all (wg : waitGroup.t) (funs : list TaskFunc) : M waitGroup.t :=
  match funs with
  | [] => ret wg
  | fun_ :: rest =>
      task <- taskGroup.Task fun_ ;;
      add_all (waitGroup.add wg task) rest
  end.

(** The last three statements of [Par]: the wait group over all [funs]. *)
Definition Par_group (funs : list TaskFunc) : M (option error) :=
  wg <- add_all (makeWaitGroup (length funs)) funs ;;
  r <- waitGroup.wait wg ;;
  ret (fst r).

(** [func Par(funs ...TaskFunc) TaskFunc]: the body of the returned
    function. *)
Definition Par (funs : list TaskFunc) : M (option error) :=
  match funs with
  | [] => ret None
  | [only] => Wait only
  | _ => Par_group funs
  end.

(* --------------------------------------------------------------------- *)
(** ** Concurrent calls of [taskGroup.Task]                               *)
(* --------------------------------------------------------------------- *)

(** Where a call of [Task] stands, statement by statement. *)
Inductive pc : Type :=
| PcLock                  (* at [self.Lock()] *)
| PcLookup                (* at [existing := self.tasks[id]] and its test *)
| PcCreate                (* at [created := newTask(self.ctx, self, fun)] *)
| PcStore (created : ptr) (* at [self.tasks[id] = created] *)
| PcGo (created : ptr)    (* at [go created.run()] *)
| PcUnlock (ret : ptr)    (* at the deferred [self.Unlock()] *)
| PcReturned (ret : ptr). (* the call has returned [ret] *)

(** A call [g.Task(fun)] made by some goroutine. *)
Record caller : Type := Caller { arg : TaskFunc; at_pc : pc }.

(** A group with the calls of [Task] in progress: the world, the state of
    the embedded [sync.Mutex] and the callers. *)
Record conc : Type := Conc { cworld : world; locked : bool; callers : list caller }.

(** One statement of the caller [i]. A caller at [self.Lock()] does not move
    while the mutex is held; a call that has returned does not move. The map
    and the task objects are read and written between [Lock] and [Unlock]
    only, so the interleavings of whole statements are all there is to
    see. *)
Definition step (s : conc) (i : nat) : conc :=
  match callers s !! i with
  | None => s
  | Some c =>
      let w := cworld s in
      let id := TaskFunc.id (arg c) in
      let at_ (w' : world) (l : bool) (next : pc) :=
        Conc w' l (<[i := Caller (arg c) next]> (callers s)) in
      match at_pc c with
      | PcLock => if locked s then s else at_ w true PcLookup
      | PcLookup =>
          match taskGroup.lookup w id with
          | Some existing => at_ w (locked s) (PcUnlock existing)
          | None => at_ w (locked s) PcCreate
          end
      | PcCreate =>
          let '(w1, created) := taskGroup.create w (arg c) in
          at_ w1 (locked s) (PcStore created)
      | PcStore created =>
          at_ (taskGroup.store w id created) (locked s) (PcGo created)
      | PcGo created =>
          at_ (taskGroup.go_run w created) (locked s) (PcUnlock created)
      | PcUnlock ret => at_ w false (PcReturned ret)
      | PcReturned _ => s
      end
  end.

(** The callers take steps in the order of a schedule. *)
Definition run_schedule (s : conc) (schedule : list nat) : conc :=
  fold_left step schedule s.

(** The calls [g.Task(f)] for the functions [funs], none of them started, on
    a new group. *)
Definition calls (t : nat) (cs : list nat) (beh : N -> option (nat * outcome))
           (funs : list TaskFunc) : conc :=
  Conc (new_world t cs beh) false ((fun f => Caller f PcLock) <$> funs).

(* --------------------------------------------------------------------- *)
(** ** Task functions of the tests and of the examples                    *)
(* --------------------------------------------------------------------- *)

(** [func TaskFuncNop0(Task) error { return nil }] of the tests. *)
Definition TaskFuncNop0 : TaskFunc :=
  Some (TaskFunc.Func 4198400 4198400 "github.com/mitranim/gtg.TaskFuncNop0").

(** [func TaskFuncImmediateErr(Task) error] of the tests, which returns
    [fmt.Errorf(`immediate error`)]. *)
Definition TaskFuncImmediateErr : TaskFunc :=
  Some (TaskFunc.Func 4198464 4198464
          "github.com/mitranim/gtg.TaskFuncImmediateErr").

Definition immediate_error : error := errorString "immediate error".

(** The four functions that [examples/site.go] hands to [MustRunCmd]. *)
Definition site_build : TaskFunc :=
  Some (TaskFunc.Func 4259840 4259840 "main.build").
Definition site_templates : TaskFunc :=
  Some (TaskFunc.Func 4259904 4259904 "main.templates").
Definition site_templatesW : TaskFunc :=
  Some (TaskFunc.Func 4259968 4259968 "main.templatesW").
Definition site_styles : TaskFunc :=
  Some (TaskFunc.Func 4260032 4260032 "main.styles").

Definition site_funs : list TaskFunc :=
  [site_build; site_templates; site_templatesW; site_styles].

(** More task functions than [reflect.Select] takes cases: 65537 closures
    made by one function literal, which have its code pointer and its name
    and differ in their identity. *)
Definition many_funs : list TaskFunc :=
  (fun i => Some (TaskFunc.Func (4325376 + N.of_nat i) 4263936 "main.jobs.func1"))
    <$> seq 0 (Z.to_nat 65537).

(* --------------------------------------------------------------------- *)
(** ** Vocabulary of the theorems                                         *)
(* --------------------------------------------------------------------- *)

(** The error that [finalize] builds around an error returned by the task
    function [fun_]. *)
Definition finished_with (fun_ : TaskFunc) (e : error) : error :=
  wrapError ("task " +:+ Quote (ShortName fun_) +:+ " finished with error: "
               +:+ Error e) e.



(** The receive case that [add] builds for a task. *)
Definition recv_case (task : ptr) : SelectCase := Case SelectRecv (Done task).

(** The two slices of a wait group are parallel. *)
Definition parallel (wg : waitGroup.t) : Prop :=
  waitGroup.cases wg = recv_case <$> waitGroup.wtasks wg.

(** A call of [add] or of [remove] on a wait group. *)
Inductive wg_op : Type :=
| OpAdd (task : ptr)
| OpRemove (index : nat).

(** The wait group after a sequence of calls; [None] when a [remove]
    panics. *)
Fixpoint wg_run (wg : waitGroup.t) (ops : list wg_op) : option waitGroup.t :=
  match ops with
  | [] => Some wg
  | OpAdd task :: rest => wg_run (waitGroup.add wg task) rest
  | OpRemove index :: rest =>
      match waitGroup.remove wg index with
      | Some (_, wg') => wg_run wg' rest
      | None => None
      end
  end.

(** What [add] checks before it appends [val] to [self]. *)
Definition addable (self : taskFuncs.t) (val : TaskFunc) : Prop :=
  val <> None
  /\ ShortName val <> EmptyString
  /\ taskFuncs.hasTaskName self (ShortName val) = false
  /\ taskFuncs.hasTask self val = false.

(** Every element of a deduplicated slice passed the checks of [add]
    against the elements before it. *)
Definition deduplicated (l : taskFuncs.t) : Prop :=
  forall (before : taskFuncs.t) (val : TaskFunc) (after : taskFuncs.t),
    l = before ++ val :: after -> addable before val.

(** The world with another list of choices for [reflect.Select]. *)
Definition set_choices (cs : list nat) (w : world) : world :=
  World (now w) (tasks w) (heap w) (goroutines w) (logOutput w) cs (behaviour w).

(** The fate of the task at [p]: the time at which it is done and the result
    it then has, [None] when it never gets done. *)
Definition fate (w : world) (p : ptr) : option (nat * option error) :=
  c ← heap w !! p;
  '(t, o) ← plan w c;
  Some (t, task.Err (task.final (task.run (newTask (task.fun_ (obj c))) o))).

(** A task object is as [newTask] made it, or as [run] left it at the time
    its function ended. *)
Definition wf_cell (w : world) (c : cell) : Prop :=
  obj c = newTask (task.fun_ (obj c))
  \/ exists (t : nat) (o : outcome),
       plan w c = Some (t, o) /\ t <= now w
       /\ obj c = task.final (task.run (newTask (task.fun_ (obj c))) o).

(** A well-formed world: every task object is well formed, and every entry
    of the map points to a started task of the function with that
    identity. *)
Definition wf (w : world) : Prop :=
  Forall (wf_cell w) (heap w)
  /\ forall (k : N) (p : ptr),
       tasks w !! k = Some p ->
       exists c : cell,
         heap w !! p = Some c
         /\ TaskFunc.id (task.fun_ (obj c)) = k
         /\ is_Some (started c).

(** The state of the [done] channel of the task at [p] at time [T], and the
    value of its [err] field then, as told by its fate. *)
Definition done_at (w : world) (p : ptr) (T : nat) : bool :=
  match fate w p with
  | Some (t, _) => t <=? T
  | None => false
  end.

Definition err_at (w : world) (p : ptr) (T : nat) : option error :=
  match fate w p with
  | Some (t, r) => if t <=? T then r else None
  | None => None
  end.

(** The task pointer [p] points into the heap. *)
Definition valid (w : world) (p : ptr) : Prop := p < length (heap w).

(** The result that [run] records for the task function [f] when its call
    ends with [o]. *)
Definition outcome_result (f : TaskFunc) (o : outcome) : option error :=
  task.Err (task.final (task.run (newTask f) o)).

(** A string of ASCII bytes. On two such strings [EqualFold] is
    [strings.EqualFold]. *)
Definition is_ascii (s : string) : bool :=
  forallb (fun c => nat_of_ascii c <? 128) (list_ascii_of_string s).

(** The short names of the functions are strings of ASCII bytes. *)
Definition ascii_names (funs : list TaskFunc) : Prop :=
  Forall (fun f => is_ascii (ShortName f) = true) funs.

(** The endings of a task function that leave a nil result: a nil return,
    and a panic after which [recover()] yields nil. *)
Definition ends_nil (o : outcome) : bool :=
  match o with
  | Returned None | Panicked payloadNil => true
  | _ => false
  end.


(** The world after [Task] made a new task for [f]. *)
Definition with_new_task (w : world) (f : TaskFunc) : world :=
  World (now w) (<[TaskFunc.id f := length (heap w)]> (tasks w))
        (heap w ++ [Cell (newTask f) (Some (now w))])
        (goroutines w ++ [length (heap w)])
        (logOutput w) (choices w) (behaviour w).

(** Successive calls of [Wait] on the functions of a list, each returning
    nil. *)
Inductive waits_nil : world -> list TaskFunc -> world -> Prop :=
| waits_nil_done (w : world) : waits_nil w [] w
| waits_nil_step (w w1 w2 : world) (f : TaskFunc) (rest : list TaskFunc) :
    Wait f w = Ok None w1 -> waits_nil w1 rest w2 -> waits_nil w (f :: rest) w2.

(** The world after [Log err]. *)
Definition logged (err : option error) (w : world) : world :=
  match err with
  | Some e =>
      World (now w) (tasks w) (heap w) (goroutines w)
            (logOutput w ++ [log_line e]) (choices w) (behaviour w)
  | None => w
  end.

(** A world for examples: a new group at time 0 in which
    [TaskFuncImmediateErr] returns its error after 3 ticks and every other
    function returns nil after 5. *)
Definition example_behaviour (k : N) : option (nat * outcome) :=
  if N.eqb k (TaskFunc.id TaskFuncImmediateErr)
  then Some (3, Returned (Some immediate_error))
  else Some (5, Returned None).

Definition example_world : world := new_world 0 [] example_behaviour.

(** What [wait] on the tasks [ts] may answer in a world [w], in terms of the
    fates of the tasks. It returns nil when every task ends with nil, all
    entries removed. It returns an error [e] when [e] is the result of one of
    the tasks, at the time of the fate of that task and no later than the
    fate of any task that fails; the entries left are some of the given ones.
    It blocks forever when no task fails and some task never ends. *)
Definition wait_post (ts : list ptr) (w : world)
           (res : result (option error * waitGroup.t)) : Prop :=
  match res with
  | Ok (None, wg') w' =>
      waitGroup.wtasks wg' = [] /\ waitGroup.cases wg' = []
      /\ now w <= now w'
      /\ forall p : ptr, p ∈ ts -> exists t : nat, fate w p = Some (t, None) /\ t <= now w'
  | Ok (Some e, wg') w' =>
      sublist (waitGroup.wtasks wg') ts
      /\ now w <= now w'
      /\ (exists (p : ptr) (t : nat),
            p ∈ ts /\ fate w p = Some (t, Some e) /\ t <= now w')
      /\ forall (q : ptr) (tq : nat) (eq : error),
           q ∈ ts -> fate w q = Some (tq, Some eq) -> now w' <= Nat.max (now w) tq
  | Blocked w' =>
      (exists q : ptr, q ∈ ts /\ fate w q = None)
      /\ forall (q : ptr) (tq : nat) (eq : error),
           q ∈ ts -> fate w q = Some (tq, Some eq) -> False
  | Panics _ | Exhausted => False
  end.

(** A result without the choices left for [reflect.Select]: what a caller
    can observe of a call. *)
Definition forget_choices {A : Type} (r : result A) : result A :=
  match r with
  | Ok a w => Ok a (set_choices [] w)
  | Blocked w => Blocked (set_choices [] w)
  | Panics msg => Panics msg
  | Exhausted => Exhausted
  end.

(** The wait group that [Par] fills for three functions of the tests and
    examples in the example world, with the world after the three calls of
    [Task]. *)
Definition example_par : result waitGroup.t :=
  add_all (makeWaitGroup 3) [TaskFuncNop0; TaskFuncImmediateErr; site_build]
          example_world.

(* --------------------------------------------------------------------- *)
(** ** The invariant of concurrent calls                                  *)
(* --------------------------------------------------------------------- *)

(** The identity of the function of the task at [p]. *)
Definition key_of (w : world) (p : ptr) : option N :=
  (fun c => TaskFunc.id (task.fun_ (obj c))) <$> heap w !! p.

(** The caller is between [Lock] and [Unlock]. *)
Definition in_critical (at_ : pc) : bool :=
  match at_ with
  | PcLock | PcReturned _ => false
  | _ => true
  end.

(** What a caller knows at its program point. *)
Definition caller_ok (w : world) (c : caller) : Prop :=
  let id := TaskFunc.id (arg c) in
  match at_pc c with
  | PcLock | PcLookup => True
  | PcCreate =>
      tasks w !! id = None /\ forall p, key_of w p <> Some id
  | PcStore created =>
      tasks w !! id = None /\ key_of w created = Some id
      /\ created ∉ goroutines w
  | PcGo created =>
      tasks w !! id = Some created /\ created ∉ goroutines w
  | PcUnlock ret | PcReturned ret => tasks w !! id = Some ret
  end.

(** Mutual exclusion: [holder] is the caller inside the critical section,
    if any, and the mutex is locked exactly when there is one. *)
Definition holder_ok (l : bool) (cs : list caller) : Prop :=
  exists holder : option nat,
    l = bool_decide (is_Some holder)
    /\ forall (i : nat) (c : caller),
         cs !! i = Some c -> (in_critical (at_pc c) = true <-> holder = Some i).

(** Every task object is registered under the identity of its function,
    or is about to be by the caller that made it. *)
Definition heap_ok (w : world) (cs : list caller) : Prop :=
  forall (p : ptr) (k : N),
    key_of w p = Some k ->
    tasks w !! k = Some p
    \/ exists (i : nat) (c : caller), cs !! i = Some c /\ at_pc c = PcStore p.

(** The invariant of the concurrent calls. *)
Record conc_inv (s : conc) : Prop := ConcInv {
  inv_holder : holder_ok (locked s) (callers s);
  inv_callers : Forall (caller_ok (cworld s)) (callers s);
  inv_keys :
    forall (p q : ptr) (k : N),
      key_of (cworld s) p = Some k -> key_of (cworld s) q = Some k -> p = q;
  inv_registry :
    forall (k : N) (p : ptr),
      tasks (cworld s) !! k = Some p -> key_of (cworld s) p = Some k;
  inv_heap : heap_ok (cworld s) (callers s);
  inv_goroutines_nodup : NoDup (goroutines (cworld s));
  inv_goroutines :
    forall p : ptr,
      p ∈ goroutines (cworld s) ->
      exists k : N, tasks (cworld s) !! k = Some p
}.

(* --------------------------------------------------------------------- *)
(** ** [Must], [MustWait], [Start], [Run], [RunCmd]                       *)
(* --------------------------------------------------------------------- *)

(** [func Must(err error)]: [None] when it returns, and the value it panics
    with otherwise, which is the error itself. *)
Definition Must (err : option error) : option payload := payloadError <$> err.

(** [func MustWait(group TaskGroup, fun TaskFunc)] *)
Definition MustWait (fun_ : TaskFunc) : M (option payload) :=
  err <- Wait fun_ ;; ret (Must err).

(** [&taskGroup{ctx: ctx}]: a group with no task, in the world of the
    caller (its clock, its log, the behaviour of the task functions). *)
Definition new_group (w : world) : world :=
  World (now w) ∅ [] [] (logOutput w) (choices w) (behaviour w).

(** [func Start(ctx context.Context, fun TaskFunc) Task] *)
Definition Start (fun_ : TaskFunc) : M nat :=
  fun w => taskGroup.Task fun_ (new_group w).

(** [func Run(ctx context.Context, fun TaskFunc) error]. The deferred
    [cancel()] acts on the context alone, which the world does not hold. *)
Definition Run (fun_ : TaskFunc) : M (option error) :=
  task <- Start fun_ ;; waitFor task.

(** [func RunCmd(funs ...TaskFunc) error], with [args] for [os.Args[1:]]. *)
Definition RunCmd (args : list string) (funs : list TaskFunc) : M (option error) :=
  match Choose args funs with
  | (_, Some err) => ret (Some err)
  | (fun_, None) => Run fun_
  end.

(* --------------------------------------------------------------------- *)
(** ** More vocabulary                                                    *)
(* --------------------------------------------------------------------- *)

(** What the statements of a call that only waits leave in place, the task
    functions being opaque: the map of the group, the goroutines started,
    the log, the behaviours and the fate of every task; a task that is done
    keeps its object; time does not go back. *)
Definition frame (w w' : world) : Prop :=
  tasks w' = tasks w
  /\ goroutines w' = goroutines w
  /\ logOutput w' = logOutput w
  /\ behaviour w' = behaviour w
  /\ now w <= now w'
  /\ (forall p : nat, fate w' p = fate w p)
  /\ forall (p : nat) (c : cell),
       heap w !! p = Some c -> task.done (obj c) = true -> heap w' !! p = Some c.

(** The statements a call of [Task] has yet to run, at most. *)
Definition todo (c : caller) : nat :=
  match at_pc c with
  | PcLock => 6
  | PcLookup => 5
  | PcCreate => 4
  | PcStore _ => 3
  | PcGo _ => 2
  | PcUnlock _ => 1
  | PcReturned _ => 0
  end.

Definition todo_all (s : conc) : nat := sum_list (todo <$> callers s).

(** A locked mutex has a caller between [Lock] and [Unlock]. *)
Definition holder_valid (s : conc) : Prop :=
  locked s = true ->
  exists (i : nat) (c : caller),
    callers s !! i = Some c /\ in_critical (at_pc c) = true.

(** The identities of the functions that have a task in the group. *)
Definition registered (w : world) (k : N) : Prop := is_Some (tasks w !! k).

(* ===================================================================== *)
(** * Part II: lemmas and theorems                                        *)
(* ===================================================================== *)

(* --------------------------------------------------------------------- *)
(** ** Strings                                                            *)
(* --------------------------------------------------------------------- *)

Lemma append_cons (x : ascii) (a b : string) :
  String x a +:+ b = String x (a +:+ b).
Proof. reflexivity. Qed.

Lemma append_nil_r (a : string) : a +:+ EmptyString = a.
Proof. induction a as [|x a IH]; [reflexivity|]. now rewrite append_cons, IH. Qed.

Lemma append_assoc (a b c : string) : (a +:+ b) +:+ c = a +:+ (b +:+ c).
Proof.
  induction a as [|x a IH]; [reflexivity|]. now rewrite !append_cons, IH.
Qed.

Lemma prefix_append (b c : string) : String.prefix b (b +:+ c) = true.
Proof.
  induction b as [|x b IH].
  - now destruct c.
  - rewrite append_cons. simpl.
    destruct (ascii_dec x x) as [_|ne]; [exact IH | now destruct ne].
Qed.

Lemma Contains_unfold (s sub : string) :
  Contains s sub =
  if String.prefix sub s then true
  else match s with
       | EmptyString => false
       | String _ rest => Contains rest sub
       end.
Proof. now destruct s. Qed.

(** A text contains whatever was appended into its middle. *)
Lemma Contains_middle (a b c : string) : Contains (a +:+ b +:+ c) b = true.
Proof.
  induction a as [|x a IH].
  - change (EmptyString +:+ b +:+ c) with (b +:+ c).
    rewrite Contains_unfold. now rewrite prefix_append.
  - rewrite append_cons, Contains_unfold.
    destruct (String.prefix b (String x (a +:+ b +:+ c))); [reflexivity | exact IH].
Qed.

Lemma Contains_quoted (a s c : string) :
  Contains (a +:+ Quote s +:+ c) s = true.
Proof.
  unfold Quote.
  replace (a +:+ (dquote +:+ s +:+ dquote) +:+ c)
    with ((a +:+ dquote) +:+ s +:+ (dquote +:+ c)).
  - apply Contains_middle.
  - now rewrite !append_assoc.
Qed.

(* --------------------------------------------------------------------- *)
(** ** The task state machine: [run] and [finalize]                       *)
(* --------------------------------------------------------------------- *)

Section TaskRun.

Variable fun_ : TaskFunc.


Lemma run_returned_error (e : error) :
  task.run (newTask fun_) (Returned (Some e))
  = task.Exec (task.Task fun_ true (Some (finished_with fun_ e)))
              [WriteErr (Some e); WriteErr (Some (finished_with fun_ e)); CloseDone]
              None.
Proof. reflexivity. Qed.




End TaskRun.

(** [run] always leaves the channel closed, whatever the task it starts
    from. *)
Lemma run_done (self : task.t) (o : outcome) :
  task.done (task.final (task.run self o)) = true.
Proof.
  destruct self as [f d e], o as [[r|]|[c|s|]]; simpl;
    unfold task.finalize, task.close_done; simpl;
    repeat (match goal with
            | |- context [match ?x with _ => _ end] => destruct x; simpl
            end); reflexivity.
Qed.

(** C2 as stated fails: the test function [TaskFuncImmediateErr] returns
    [immediate error], and the result of its task is another error value. *)
Lemma returned_error_not_result :
  task.Err (task.final (task.run (newTask TaskFuncImmediateErr)
                                 (Returned (Some immediate_error))))
  <> Some immediate_error.
Proof. vm_compute. discriminate. Qed.

(** C2, amended: when the task function returns, a nil return gives a nil
    result, and a non-nil return [e] gives the error that [finalize] builds
    from it: its text names the task and ends with the text of [e], and [e]
    is its wrapped cause, found by [errors.Unwrap] and [errors.Is]. *)
Theorem run_returned_result (fun_ : TaskFunc) (ret_err : option error) :
  let result := task.Err (task.final (task.run (newTask fun_) (Returned ret_err))) in
  match ret_err with
  | None => result = None
  | Some e =>
      result = Some (finished_with fun_ e)
      /\ Error (finished_with fun_ e)
         = "task " +:+ Quote (ShortName fun_) +:+ " finished with error: " +:+ Error e
      /\ Unwrap (finished_with fun_ e) = Some e
      /\ errors_Is (finished_with fun_ e) e = true
  end.
Proof.
  destruct ret_err as [e|]; simpl; [|reflexivity].
  repeat split.
  unfold finished_with. simpl.
  destruct (bool_decide _); [reflexivity|].
  destruct e; simpl; now rewrite bool_decide_eq_true_2.
Qed.





(* --------------------------------------------------------------------- *)
(** ** Go slices and the wait group                                       *)
(* --------------------------------------------------------------------- *)

Section Slices.

Context {A : Type}.
Implicit Types s : list A.

Lemma slice_delete_in_range s (index : nat) :
  index < length s ->
  slice_delete s index = Some (take index s ++ drop (S index) s).
Proof.
  intros Hlt. unfold slice_delete, slice_from.
  rewrite (leb_correct index (length s)) by lia.
  rewrite (leb_correct (index + 1) (length s)) by lia.
  simpl. unfold go_copy.
  replace (index + 1) with (S index) by lia.
  rewrite (take_ge (drop (S index) s)) by (rewrite !length_drop; lia).
  rewrite !length_drop.
  set (body := take index s ++ drop (S index) s
                 ++ drop (length s - S index) (drop index s)).
  assert (Hlen : length body = S (length s - 1)).
  { subst body. rewrite !length_app, length_take, !length_drop. lia. }
  unfold slice_init. rewrite Hlen. f_equal. subst body.
  rewrite app_assoc. apply take_app_length'.
  rewrite length_app, length_take, length_drop. lia.
Qed.

Lemma slice_delete_out_of_range s (index : nat) :
  length s <= index -> slice_delete s index = None.
Proof.
  intros Hge. unfold slice_delete, slice_from.
  rewrite (leb_correct_conv (length s) (index + 1)) by lia.
  now destruct (index <=? length s).
Qed.

End Slices.

Lemma parallel_make (size : nat) : parallel (makeWaitGroup size).
Proof. reflexivity. Qed.

Lemma parallel_add (wg : waitGroup.t) (task : ptr) :
  parallel wg -> parallel (waitGroup.add wg task).
Proof.
  unfold parallel. intros H. simpl. now rewrite H, fmap_app.
Qed.

Lemma remove_in_range (wg : waitGroup.t) (index : nat) (task : ptr) :
  length (waitGroup.wtasks wg) = length (waitGroup.cases wg) ->
  waitGroup.wtasks wg !! index = Some task ->
  waitGroup.remove wg index
  = Some (task,
          waitGroup.WaitGroup
            (take index (waitGroup.wtasks wg) ++ drop (S index) (waitGroup.wtasks wg))
            (take index (waitGroup.cases wg) ++ drop (S index) (waitGroup.cases wg))).
Proof.
  intros Hlen Hidx. pose proof (lookup_lt_Some _ _ _ Hidx) as Hlt.
  unfold waitGroup.remove. rewrite Hidx. simpl.
  rewrite !slice_delete_in_range by lia. reflexivity.
Qed.

Lemma remove_out_of_range (wg : waitGroup.t) (index : nat) :
  length (waitGroup.wtasks wg) <= index -> waitGroup.remove wg index = None.
Proof.
  intros Hge. unfold waitGroup.remove.
  now rewrite (lookup_ge_None_2 _ _ Hge).
Qed.

Lemma parallel_remove (wg wg' : waitGroup.t) (index : nat) (task : ptr) :
  parallel wg -> waitGroup.remove wg index = Some (task, wg') -> parallel wg'.
Proof.
  unfold parallel. intros Hp Hrm.
  destruct (waitGroup.wtasks wg !! index) as [t|] eqn:Hidx.
  - rewrite (remove_in_range wg index t) in Hrm; [|now rewrite Hp, length_fmap|exact Hidx].
    injection Hrm as _ <-. simpl.
    now rewrite Hp, fmap_app, fmap_take, fmap_drop.
  - unfold waitGroup.remove in Hrm. now rewrite Hidx in Hrm.
Qed.

Lemma parallel_run (ops : list wg_op) (wg wg' : waitGroup.t) :
  parallel wg -> wg_run wg ops = Some wg' -> parallel wg'.
Proof.
  revert wg. induction ops as [|[task|index] ops IH]; intros wg Hp Hrun; simpl in Hrun.
  - now injection Hrun as <-.
  - eapply IH; [|exact Hrun]. now apply parallel_add.
  - destruct (waitGroup.remove wg index) as [[t wg1]|] eqn:Hrm; [|discriminate].
    eapply IH; [|exact Hrun]. eapply parallel_remove; eassumption.
Qed.

(** C10: after any sequence of [add] and [remove] on a wait group made by
    [makeWaitGroup], the two slices have the same length and [cases[i]] is
    the receive case on the [done] channel of [tasks[i]]; [remove(index)]
    with an index in range returns [tasks[index]] and leaves both slices
    without their element at [index], the others in their order. *)
Theorem waitGroup_parallel (size : nat) (ops : list wg_op) (wg : waitGroup.t) :
  wg_run (makeWaitGroup size) ops = Some wg ->
  length (waitGroup.wtasks wg) = length (waitGroup.cases wg)
  /\ (forall (i : nat) (task : ptr),
        waitGroup.wtasks wg !! i = Some task ->
        waitGroup.cases wg !! i = Some (Case SelectRecv (Done task)))
  /\ (forall index : nat,
        index < length (waitGroup.wtasks wg) ->
        exists task : ptr,
          waitGroup.wtasks wg !! index = Some task
          /\ waitGroup.remove wg index
             = Some (task,
                     waitGroup.WaitGroup
                       (take index (waitGroup.wtasks wg)
                          ++ drop (S index) (waitGroup.wtasks wg))
                       (take index (waitGroup.cases wg)
                          ++ drop (S index) (waitGroup.cases wg)))).
Proof.
  intros Hrun.
  pose proof (parallel_run ops _ _ (parallel_make size) Hrun) as Hp.
  unfold parallel in Hp.
  assert (Hlen : length (waitGroup.wtasks wg) = length (waitGroup.cases wg))
    by now rewrite Hp, length_fmap.
  split; [exact Hlen|]. split.
  - intros i task Hi. rewrite Hp, list_lookup_fmap, Hi. reflexivity.
  - intros index Hlt.
    destruct (lookup_lt_is_Some_2 _ _ Hlt) as [task Htask].
    exists task. split; [exact Htask|]. now apply remove_in_range.
Qed.

Lemma waitGroup_parallel_witness :
  exists wg : waitGroup.t,
    wg_run (makeWaitGroup 3) [OpAdd 0; OpAdd 1; OpAdd 2; OpRemove 1] = Some wg
    /\ waitGroup.wtasks wg = [0; 2]
    /\ length (waitGroup.wtasks wg) = length (waitGroup.cases wg).
Proof.
  eexists. split; [reflexivity|]. split; [reflexivity|].
  exact (proj1 (waitGroup_parallel 3 [OpAdd 0; OpAdd 1; OpAdd 2; OpRemove 1]
                  _ eq_refl)).
Defined.

(* --------------------------------------------------------------------- *)
(** ** [Choose]                                                           *)
(* --------------------------------------------------------------------- *)

Lemma add_ok (self self' : taskFuncs.t) (val : TaskFunc) :
  taskFuncs.add self val = (self', None) ->
  self' = self ++ [val] /\ addable self val.
Proof.
  unfold taskFuncs.add, addable. destruct val as [f|]; [|discriminate].
  case_bool_decide as Hname; [discriminate|].
  destruct (taskFuncs.hasTaskName self _) eqn:Hn; [discriminate|].
  destruct (taskFuncs.hasTask self _) eqn:Ht; [discriminate|].
  intros [= <-]. repeat split; try assumption. discriminate.
Qed.

Lemma add_total (self : taskFuncs.t) (val : TaskFunc) :
  (exists e, taskFuncs.add self val = (self, Some e))
  \/ taskFuncs.add self val = (self ++ [val], None).
Proof.
  unfold taskFuncs.add. destruct val as [f|]; [|eauto].
  case_bool_decide; [eauto|].
  destruct (taskFuncs.hasTaskName self _); [eauto|].
  destruct (taskFuncs.hasTask self _); eauto.
Qed.

Lemma deduplicated_nil : deduplicated [].
Proof. intros [|? ?] val after H; discriminate. Qed.

Lemma deduplicated_snoc (l : taskFuncs.t) (val : TaskFunc) :
  deduplicated l -> addable l val -> deduplicated (l ++ [val]).
Proof.
  intros Hl Hv before v after Heq.
  destruct after as [|a after _] using rev_ind.
  - apply app_inj_tail in Heq as [-> ->]. exact Hv.
  - rewrite app_comm_cons, app_assoc in Heq.
    apply app_inj_tail in Heq as [-> _]. eapply Hl. reflexivity.
Qed.

Lemma dedup_from_ok (funs out known : taskFuncs.t) :
  deduplicated out ->
  dedup_from out funs = (known, None) ->
  known = out ++ funs /\ deduplicated known.
Proof.
  revert out. induction funs as [|f funs IH]; intros out Hout Hd;
    cbn [dedup_from] in Hd.
  - injection Hd as <-. now rewrite app_nil_r.
  - destruct (taskFuncs.add out f) as [out' [e|]] eqn:Hadd; [discriminate|].
    apply add_ok in Hadd as [-> Hok].
    destruct (IH _ (deduplicated_snoc _ _ Hout Hok) Hd) as [-> Hk].
    split; [now rewrite <- app_assoc | exact Hk].
Qed.

Lemma dedup_ok (funs known : taskFuncs.t) :
  dedup funs = (known, None) -> known = funs /\ deduplicated funs.
Proof.
  intros H. destruct (dedup_from_ok funs [] known deduplicated_nil H) as [-> Hd].
  now split.
Qed.

Lemma byTaskName_Some (known : taskFuncs.t) (name : string) (f : TaskFunc.func) :
  taskFuncs.byTaskName known name = Some f ->
  In (Some f) known /\ equalTaskName (Some f) name = true.
Proof.
  induction known as [|v known IH]; simpl; [discriminate|].
  destruct (equalTaskName v name) eqn:Heq.
  - intros ->. split; [now left | exact Heq].
  - intros H. destruct (IH H) as [Hin He]. split; [now right | exact He].
Qed.

Lemma choose_loop_ok (known : taskFuncs.t) (names : list string)
      (chosen chosen' : taskFuncs.t) :
  choose_loop known chosen names = (chosen', None) ->
  exists picked : taskFuncs.t,
    chosen' = chosen ++ picked
    /\ Forall2 (fun (f : TaskFunc) (name : string) =>
                  f <> None /\ taskFuncs.byTaskName known name = f)
               picked names.
Proof.
  revert chosen. induction names as [|name names IH]; intros chosen H;
    cbn [choose_loop] in H.
  - injection H as <-. exists []. split; [now rewrite app_nil_r | constructor].
  - destruct (taskFuncs.byTaskName known name) as [f|] eqn:Hby;
      [|simpl in H; discriminate].
    destruct (taskFuncs.add chosen (Some f)) as [c1 [e|]] eqn:Hadd;
      [simpl in H; discriminate|].
    apply add_ok in Hadd as [-> _].
    destruct (IH _ H) as (picked & -> & Hall).
    exists (Some f :: picked). split; [now rewrite <- app_assoc|].
    constructor; [split; [discriminate | exact Hby] | exact Hall].
Qed.

(** [Choose] answers a function or an error, never both and never
    neither. *)
Lemma Choose_total (names : list string) (funs : list TaskFunc) :
  (exists f : TaskFunc.func, Choose names funs = (Some f, None))
  \/ (exists e : error, Choose names funs = (None, Some e)).
Proof.
  unfold Choose.
  destruct (dedup funs) as [known [e|]] eqn:Hd; [eauto|].
  destruct (choose_loop known [] names) as [chosen [e|]] eqn:Hc; [eauto|].
  apply choose_loop_ok in Hc as (picked & -> & Hall). simpl.
  destruct Hall as [|f name picked names [Hf _] Hall]; [eauto|].
  destruct Hall; [|eauto].
  destruct f as [f|]; [eauto | now destruct Hf].
Qed.

(** A function is chosen only when the candidates pass the checks of
    [dedup] (none is nil or unnamed, none repeats a function or a name of an
    earlier one), exactly one name is given, and that name folds to the
    short name of the chosen candidate. *)
Lemma Choose_ok (names : list string) (funs : list TaskFunc) (f : TaskFunc) :
  Choose names funs = (f, None) ->
  deduplicated funs
  /\ exists name : string,
       names = [name]
       /\ f <> None
       /\ In f funs
       /\ taskFuncs.byTaskName funs name = f
       /\ equalTaskName f name = true.
Proof.
  unfold Choose.
  destruct (dedup funs) as [known [e|]] eqn:Hd; [discriminate|].
  apply dedup_ok in Hd as [-> Hded].
  destruct (choose_loop funs [] names) as [chosen [e|]] eqn:Hc; [discriminate|].
  apply choose_loop_ok in Hc as (picked & -> & Hall). simpl.
  destruct Hall as [|g name picked names [Hg Hby] Hall]; [discriminate|].
  destruct Hall; [|discriminate].
  intros [= <-]. split; [exact Hded|].
  exists name. split; [reflexivity|]. split; [exact Hg|].
  destruct g as [g|]; [|now destruct Hg].
  destruct (byTaskName_Some _ _ _ Hby) as [Hin Heq]. now repeat split.
Qed.

Lemma join_quoted_cons (s : string) (rest : list string) :
  exists tail : string, join_quoted (s :: rest) = Quote s +:+ tail.
Proof.
  destruct rest as [|s' rest].
  - exists EmptyString. simpl. now rewrite append_nil_r.
  - now exists (" " +:+ join_quoted (s' :: rest)).
Qed.

(** The [%q] rendering of a list of names holds each of them. *)
Lemma QuoteList_contains (l : list string) (n : string) :
  In n l -> forall a c : string, Contains (a +:+ QuoteList l +:+ c) n = true.
Proof.
  intros Hin.
  assert (H : exists x y : string, join_quoted l = x +:+ n +:+ y).
  { induction l as [|s rest IH]; [contradiction|].
    destruct (join_quoted_cons s rest) as [tail Htail].
    destruct Hin as [->|Hin].
    - exists dquote, (dquote +:+ tail). rewrite Htail. unfold Quote.
      now rewrite !append_assoc.
    - destruct (IH Hin) as (x & y & Hxy). destruct rest as [|s' rest]; [contradiction|].
      exists (Quote s +:+ " " +:+ x), y.
      change (join_quoted (s :: s' :: rest))
        with (Quote s +:+ " " +:+ join_quoted (s' :: rest)).
      rewrite Hxy. now rewrite !append_assoc. }
  destruct H as (x & y & Hxy). intros a c. unfold QuoteList. rewrite Hxy.
  replace (a +:+ ("[" +:+ (x +:+ n +:+ y) +:+ "]") +:+ c)
    with ((a +:+ "[" +:+ x) +:+ n +:+ (y +:+ "]" +:+ c))
    by now rewrite !append_assoc.
  apply Contains_middle.
Qed.

(** The two errors of [Choose] that do list the known tasks: the one for a
    name that no candidate has, and the one for no name at all. *)
Lemma Choose_lists_known (names : list string) (funs : list TaskFunc) (f : TaskFunc) :
  fst (dedup funs) = funs -> snd (dedup funs) = None -> In f funs ->
  (names = [] \/ exists name rest,
      names = name :: rest /\ taskFuncs.byTaskName funs name = None) ->
  exists e : error,
    Choose names funs = (None, Some e)
    /\ Contains (Error e) (ShortName f) = true.
Proof.
  intros Hfst Hsnd Hin Hnames. unfold Choose.
  destruct (dedup funs) as [known err]. simpl in Hfst, Hsnd. subst known err.
  assert (Hn : In (ShortName f) (taskFuncs.shortNames funs))
    by (unfold taskFuncs.shortNames; now apply in_map).
  destruct Hnames as [->|(name & rest & -> & Hunknown)].
  - cbn [choose_loop]. eexists. split; [reflexivity|]. cbn [Error].
    rewrite <- (append_nil_r (QuoteList _)).
    now apply QuoteList_contains.
  - cbn [choose_loop]. rewrite Hunknown. eexists. split; [reflexivity|].
    cbn [Error]. rewrite <- (append_nil_r (QuoteList _)).
    replace ("unknown task " +:+ Quote name
               +:+ "; known tasks (case-insensitive): "
               +:+ QuoteList (taskFuncs.shortNames funs) +:+ EmptyString)
      with (("unknown task " +:+ Quote name
               +:+ "; known tasks (case-insensitive): ")
              +:+ QuoteList (taskFuncs.shortNames funs) +:+ EmptyString)
      by now rewrite !append_assoc.
    now apply QuoteList_contains.
Qed.

(** C9, at the input where the code leaves the claim: with the four task
    functions of [examples/site.go] as candidates and the two names [build]
    and [styles], the error of [Choose] lists the two chosen names and not
    the known ones ([templates] is missing); with the name [build] given
    twice the error lists no name but [build]. *)
Theorem Choose_error_omits_known :
  taskFuncs.shortNames site_funs = ["build"; "templates"; "templatesW"; "styles"]
  /\ Choose ["build"; "styles"] site_funs
     = (None,
        Some (errorString
                ("too many tasks specified, please choose one (case-insensitive): "
                   +:+ QuoteList ["build"; "styles"])))
  /\ Contains
       ("too many tasks specified, please choose one (case-insensitive): "
          +:+ QuoteList ["build"; "styles"]) "templates" = false
  /\ Choose ["build"; "BUILD"] site_funs
     = (None,
        Some (errorString
                ("unexpected task function with duplicate name " +:+ Quote "build")))
  /\ Contains ("unexpected task function with duplicate name " +:+ Quote "build")
              "styles" = false.
Proof. vm_compute. repeat split. Qed.

(* --------------------------------------------------------------------- *)
(** ** The world: time, fates and well-formedness                         *)
(* --------------------------------------------------------------------- *)

Lemma run_fun (self : task.t) (o : outcome) :
  task.fun_ (task.final (task.run self o)) = task.fun_ self.
Proof.
  destruct self as [f d e], o as [[r|]|[c|s|]]; simpl;
    unfold task.finalize, task.close_done; simpl;
    repeat (match goal with
            | |- context [match ?x with _ => _ end] => destruct x; simpl
            end); reflexivity.
Qed.

Lemma run_new_done (f : TaskFunc) (o : outcome) :
  task.done (task.final (task.run (newTask f) o)) = true.
Proof. apply run_done. Qed.

Lemma complete_fun (w : world) (T : nat) (c : cell) :
  task.fun_ (obj (complete_if_due w T c)) = task.fun_ (obj c).
Proof.
  unfold complete_if_due. destruct (plan w c) as [[t o]|]; [|reflexivity].
  destruct (task.done (obj c)); [reflexivity|].
  destruct (t <=? T); [apply run_fun | reflexivity].
Qed.

Lemma complete_started (w : world) (T : nat) (c : cell) :
  started (complete_if_due w T c) = started c.
Proof.
  unfold complete_if_due. destruct (plan w c) as [[t o]|]; [|reflexivity].
  destruct (task.done (obj c)); [reflexivity|].
  now destruct (t <=? T).
Qed.

Lemma plan_complete (w w' : world) (T : nat) (c : cell) :
  behaviour w' = behaviour w ->
  plan w' (complete_if_due w T c) = plan w c.
Proof.
  intros Hb. unfold plan. now rewrite complete_started, complete_fun, Hb.
Qed.

Lemma complete_done_stable (w : world) (T : nat) (c : cell) :
  task.done (obj c) = true -> complete_if_due w T c = c.
Proof.
  intros Hd. unfold complete_if_due.
  destruct (plan w c) as [[t o]|]; [|reflexivity]. now rewrite Hd.
Qed.

Lemma complete_complete (w w' : world) (T1 T2 : nat) (c : cell) :
  behaviour w' = behaviour w -> T1 <= T2 ->
  complete_if_due w' T2 (complete_if_due w T1 c) = complete_if_due w T2 c.
Proof.
  intros Hb Hle.
  unfold complete_if_due at 1. rewrite (plan_complete w w' T1 c Hb).
  unfold complete_if_due.
  destruct (plan w c) as [[t o]|]; [|reflexivity].
  destruct (task.done (obj c)) eqn:Hd; [now rewrite Hd|].
  destruct (t <=? T1) eqn:H1.
  - simpl. rewrite run_done.
    apply Nat.leb_le in H1. now rewrite (leb_correct t T2) by lia.
  - now rewrite Hd.
Qed.

Lemma advance_now (T : nat) (w : world) : now (advance T w) = Nat.max (now w) T.
Proof. reflexivity. Qed.

Lemma advance_heap (T : nat) (w : world) :
  heap (advance T w) = complete_if_due w (Nat.max (now w) T) <$> heap w.
Proof. reflexivity. Qed.

Lemma advance_lookup (T : nat) (w : world) (p : ptr) :
  heap (advance T w) !! p = complete_if_due w (Nat.max (now w) T) <$> heap w !! p.
Proof. rewrite advance_heap. apply list_lookup_fmap. Qed.

Lemma advance_advance (T1 T2 : nat) (w : world) :
  advance T2 (advance T1 w) = advance (Nat.max T1 T2) w.
Proof.
  unfold advance. simpl. f_equal; [lia|].
  rewrite <- list_fmap_compose. apply list_fmap_ext.
  intros i c _. simpl.
  replace ((now w `max` T1) `max` T2) with (now w `max` (T1 `max` T2)) by lia.
  apply complete_complete; [reflexivity | lia].
Qed.

Lemma sync_advance (T : nat) (w : world) : advance T (sync w) = advance T w.
Proof.
  unfold sync. rewrite advance_advance. unfold advance.
  replace (now w `max` (now w `max` T)) with (now w `max` T) by lia.
  reflexivity.
Qed.

Lemma advance_sync (T : nat) (w : world) : sync (advance T w) = advance T w.
Proof.
  unfold sync. rewrite advance_advance, advance_now. unfold advance.
  replace (now w `max` (T `max` (now w `max` T))) with (now w `max` T) by lia.
  reflexivity.
Qed.

Lemma sync_sync (w : world) : sync (sync w) = sync w.
Proof. apply advance_sync. Qed.

Lemma fate_advance (T : nat) (w : world) (p : ptr) :
  fate (advance T w) p = fate w p.
Proof.
  unfold fate. rewrite advance_lookup.
  destruct (heap w !! p) as [c|]; [|reflexivity]. simpl.
  rewrite (plan_complete w (advance T w)) by reflexivity.
  destruct (plan w c) as [[t o]|]; [|reflexivity]. simpl.
  now rewrite complete_fun.
Qed.

Lemma wf_cell_complete (w w' : world) (T : nat) (c : cell) :
  behaviour w' = behaviour w -> now w <= T -> now w' = T ->
  wf_cell w c -> wf_cell w' (complete_if_due w T c).
Proof.
  intros Hb Hle Hnow Hc.
  unfold wf_cell. rewrite (plan_complete w w' T c Hb), complete_fun.
  destruct Hc as [Hnew|(t & o & Hp & Ht & Ho)].
  - unfold complete_if_due. destruct (plan w c) as [[t o]|] eqn:Hp; [|now left].
    destruct (task.done (obj c)) eqn:Hd; [now left|].
    destruct (t <=? T) eqn:HtT; [|now left].
    right. exists t, o. apply Nat.leb_le in HtT.
    split; [reflexivity|]. split; [lia|]. simpl. congruence.
  - right. exists t, o. split; [exact Hp|]. split; [lia|].
    rewrite complete_done_stable; [exact Ho|]. rewrite Ho. apply run_done.
Qed.

Lemma wf_advance (T : nat) (w : world) : wf w -> wf (advance T w).
Proof.
  intros [Hcells Hreg]. split.
  - rewrite advance_heap. apply Forall_fmap.
    eapply Forall_impl; [exact Hcells|]. intros c Hc. simpl.
    apply wf_cell_complete; [reflexivity | lia | reflexivity | exact Hc].
  - intros k p Hk. destruct (Hreg k p Hk) as (c & Hc & Hid & Hs).
    exists (complete_if_due w (Nat.max (now w) T) c).
    rewrite advance_lookup, Hc, complete_fun, complete_started. now repeat split.
Qed.

Lemma wf_sync (w : world) : wf w -> wf (sync w).
Proof. apply wf_advance. Qed.

Lemma wf_set_choices (cs : list nat) (w : world) : wf w -> wf (set_choices cs w).
Proof. intros H. exact H. Qed.

(** What a well-formed task object looks like at a time [T] that the clock
    has reached: it is done exactly when its fate says so, and then holds the
    result of its fate; until then its result is nil. *)
Lemma observe_cell (w : world) (T : nat) (c : cell) :
  wf_cell w c -> now w <= T ->
  let c' := complete_if_due w T c in
  match plan w c with
  | Some (t, o) =>
      if t <=? T
      then task.done (obj c') = true
           /\ task.err (obj c')
              = task.Err (task.final (task.run (newTask (task.fun_ (obj c))) o))
      else task.done (obj c') = false /\ task.err (obj c') = None
  | None => task.done (obj c') = false /\ task.err (obj c') = None
  end.
Proof.
  intros Hc Hle c'. subst c'. unfold complete_if_due.
  destruct Hc as [Hnew|(t & o & Hp & Ht & Ho)].
  - destruct (plan w c) as [[t o]|] eqn:Hp.
    + assert (Hd : task.done (obj c) = false) by now rewrite Hnew.
      assert (He : task.err (obj c) = None) by now rewrite Hnew.
      rewrite Hd. destruct (t <=? T) eqn:HtT.
      * simpl. unfold task.Err. split; [apply run_done | congruence].
      * now split.
    + now rewrite Hnew.
  - rewrite Hp. rewrite (leb_correct t T) by lia.
    assert (Hd : task.done (obj c) = true) by (rewrite Ho; apply run_done).
    rewrite Hd. unfold task.Err. split; [exact Hd | congruence].
Qed.

(** The task at [p] as the goroutine sees it after the others ran until
    [T]. *)
Lemma observe_advance (w : world) (T : nat) (p : ptr) :
  wf w -> valid w p ->
  exists c' : cell,
    heap (advance T w) !! p = Some c'
    /\ task.done (obj c') = done_at w p (Nat.max (now w) T)
    /\ task.err (obj c') = err_at w p (Nat.max (now w) T)
    /\ due (advance T w) c' = fst <$> fate w p.
Proof.
  intros [Hcells _] Hv.
  destruct (lookup_lt_is_Some_2 _ _ Hv) as [c Hc].
  pose proof (proj1 (Forall_lookup _ _) Hcells p c Hc) as Hwc.
  exists (complete_if_due w (Nat.max (now w) T) c).
  rewrite advance_lookup, Hc. split; [reflexivity|].
  pose proof (observe_cell w (Nat.max (now w) T) c Hwc (Nat.le_max_l _ _)) as Hobs.
  simpl in Hobs.
  unfold done_at, err_at, fate, due. rewrite Hc. simpl.
  rewrite (plan_complete w (advance T w)) by reflexivity.
  destruct (plan w c) as [[t o]|]; simpl.
  - destruct (t <=? Nat.max (now w) T); destruct Hobs as [-> ->]; now repeat split.
  - destruct Hobs as [-> ->]. now repeat split.
Qed.

Lemma valid_advance (T : nat) (w : world) (p : ptr) :
  valid (advance T w) p <-> valid w p.
Proof. unfold valid. now rewrite advance_heap, length_fmap. Qed.

Lemma advance_to_past (T : nat) (w : world) : T <= now w -> advance T w = sync w.
Proof.
  intros Hle. unfold sync, advance.
  now replace (now w `max` T) with (now w `max` now w) by lia.
Qed.

(** [<-ctx.Done()] returns at the time of the fate of the task, or never. *)
Lemma recv_spec (w : world) (p : ptr) :
  wf w -> valid w p ->
  recv p w = match fate w p with
             | Some (t, _) => Ok tt (advance t w)
             | None => Blocked (sync w)
             end.
Proof.
  intros Hwf Hv. unfold recv.
  destruct (observe_advance w (now w) p Hwf Hv) as (c' & Hc' & Hd & _ & Hdue).
  fold (sync w) in Hc', Hdue. rewrite Hc'. unfold task.Done. rewrite Hd.
  unfold done_at. rewrite Hdue.
  destruct (fate w p) as [[t r]|]; [|reflexivity]. simpl.
  rewrite Nat.max_id.
  destruct (t <=? now w) eqn:Ht.
  - apply Nat.leb_le in Ht. now rewrite advance_to_past.
  - now rewrite sync_advance.
Qed.

(** [Err()] reads the result of a task that is done, and nil before. *)
Lemma Err_spec (w : world) (p : ptr) :
  wf w -> valid w p -> Err p w = Ok (err_at w p (now w)) (sync w).
Proof.
  intros Hwf Hv. unfold Err.
  destruct (observe_advance w (now w) p Hwf Hv) as (c' & Hc' & _ & He & _).
  fold (sync w) in Hc'. rewrite Hc'. unfold task.Err. rewrite He.
  now rewrite Nat.max_id.
Qed.

(** [waitFor] on a task returns the result of its fate at the time of its
    fate, or blocks forever. *)
Lemma waitFor_spec (w : world) (p : ptr) :
  wf w -> valid w p ->
  waitFor p w = match fate w p with
                | Some (t, r) => Ok r (advance t w)
                | None => Blocked (sync w)
                end.
Proof.
  intros Hwf Hv. unfold waitFor, bind. rewrite recv_spec by assumption.
  destruct (fate w p) as [[t r]|] eqn:Hf; [|reflexivity].
  rewrite Err_spec by (try apply wf_advance; try apply valid_advance; assumption).
  rewrite advance_sync. unfold err_at. rewrite fate_advance, Hf, advance_now.
  now rewrite (leb_correct t (Nat.max (now w) t)) by lia.
Qed.

(* --------------------------------------------------------------------- *)
(** ** [taskGroup.Task] and [Wait]                                        *)
(* --------------------------------------------------------------------- *)

Lemma wf_new_world (t : nat) (cs : list nat) (beh : N -> option (nat * outcome)) :
  wf (new_world t cs beh).
Proof.
  split; [constructor|]. intros k p H. simpl in H. now rewrite lookup_empty in H.
Qed.

Lemma Task_existing (w : world) (f : TaskFunc) (p : ptr) :
  tasks w !! TaskFunc.id f = Some p -> taskGroup.Task f w = Ok p w.
Proof. intros H. unfold taskGroup.Task, taskGroup.lookup. now rewrite H. Qed.

Lemma Task_new (w : world) (f : TaskFunc) :
  tasks w !! TaskFunc.id f = None ->
  taskGroup.Task f w = Ok (length (heap w)) (with_new_task w f).
Proof.
  intros H. unfold taskGroup.Task, taskGroup.lookup. rewrite H. simpl.
  unfold taskGroup.go_run, with_new_task. simpl. do 2 f_equal.
  replace (length (heap w)) with (length (heap w) + 0) at 1 by lia.
  now rewrite alter_app_r.
Qed.

Lemma wf_with_new_task (w : world) (f : TaskFunc) :
  wf w -> wf (with_new_task w f).
Proof.
  intros [Hcells Hreg]. split.
  - simpl. apply Forall_app. split.
    + eapply Forall_impl; [exact Hcells|]. intros c Hc. exact Hc.
    + constructor; [|constructor]. now left.
  - intros k p Hk. simpl in Hk. simpl.
    destruct (decide (TaskFunc.id f = k)) as [<-|Hne].
    + rewrite lookup_insert_eq in Hk. injection Hk as <-.
      exists (Cell (newTask f) (Some (now w))).
      rewrite lookup_app_r, Nat.sub_diag by lia. now repeat split.
    + rewrite lookup_insert_ne in Hk by exact Hne.
      destruct (Hreg k p Hk) as (c & Hc & Hid & Hs).
      exists c. rewrite lookup_app_l by (eapply lookup_lt_Some; exact Hc).
      now repeat split.
Qed.

Lemma fate_with_new_task_old (w : world) (f : TaskFunc) (q : ptr) :
  valid w q -> fate (with_new_task w f) q = fate w q.
Proof.
  intros Hv. unfold fate. simpl. now rewrite lookup_app_l by exact Hv.
Qed.

Lemma fate_with_new_task_new (w : world) (f : TaskFunc) :
  fate (with_new_task w f) (length (heap w))
  = (fun '(d, o) => (now w + d, outcome_result f o))
      <$> behaviour w (TaskFunc.id f).
Proof.
  unfold fate. simpl. rewrite lookup_app_r, Nat.sub_diag by lia. simpl.
  unfold plan. simpl. now destruct (behaviour w (TaskFunc.id f)) as [[d o]|].
Qed.

(** The fate of a registered task is that of a function with the identity
    it is registered under. *)
Lemma fate_registered (w : world) (k : N) (p : ptr) :
  wf w -> tasks w !! k = Some p ->
  valid w p
  /\ exists (f' : TaskFunc) (t0 : nat),
       TaskFunc.id f' = k
       /\ fate w p = (fun '(d, o) => (t0 + d, outcome_result f' o)) <$> behaviour w k.
Proof.
  intros [_ Hreg] Hk. destruct (Hreg k p Hk) as (c & Hc & Hid & [t0 Hs]).
  split; [eapply lookup_lt_Some; exact Hc|].
  exists (task.fun_ (obj c)), t0. split; [exact Hid|].
  unfold fate, plan. rewrite Hc. simpl. rewrite Hs, Hid.
  now destruct (behaviour w k) as [[d o]|].
Qed.

(** [Task] answers the task registered for the identity of the function,
    which it makes and starts when there is none; it changes nothing
    else. *)
Lemma Task_spec (w : world) (f : TaskFunc) :
  wf w ->
  exists (p : ptr) (w' : world),
    taskGroup.Task f w = Ok p w'
    /\ wf w'
    /\ tasks w' !! TaskFunc.id f = Some p
    /\ (w' = w \/ (tasks w !! TaskFunc.id f = None /\ w' = with_new_task w f))
    /\ forall q : ptr, valid w q -> valid w' q /\ fate w' q = fate w q.
Proof.
  intros Hwf. destruct (tasks w !! TaskFunc.id f) as [p|] eqn:Hk.
  - exists p, w. rewrite (Task_existing _ _ _ Hk).
    split; [reflexivity|]. split; [exact Hwf|]. split; [exact Hk|].
    split; [now left|]. intros q Hq. now split.
  - exists (length (heap w)), (with_new_task w f). rewrite (Task_new _ _ Hk).
    split; [reflexivity|]. split; [now apply wf_with_new_task|].
    split; [simpl; apply lookup_insert_eq|]. split; [now right|].
    intros q Hq. split; [|now apply fate_with_new_task_old].
    unfold valid in *. simpl. rewrite length_app. lia.
Qed.

(** [Wait] returns what the registered task of the function ends with, at
    the time of its fate, or blocks forever. *)
Lemma Wait_spec (w : world) (f : TaskFunc) :
  wf w ->
  exists (p : ptr) (w1 : world),
    taskGroup.Task f w = Ok p w1
    /\ wf w1 /\ valid w1 p
    /\ Wait f w = match fate w1 p with
                  | Some (t, r) => Ok r (advance t w1)
                  | None => Blocked (sync w1)
                  end.
Proof.
  intros Hwf. destruct (Task_spec w f Hwf) as (p & w1 & HT & Hwf1 & Hk & _ & _).
  exists p, w1. split; [exact HT|]. split; [exact Hwf1|].
  destruct (fate_registered w1 _ p Hwf1 Hk) as [Hv _]. split; [exact Hv|].
  unfold Wait, bind. rewrite HT. now apply waitFor_spec.
Qed.

Lemma Wait_wf (w w' : world) (f : TaskFunc) (r : option error) :
  wf w -> Wait f w = Ok r w' -> wf w'.
Proof.
  intros Hwf HW. destruct (Wait_spec w f Hwf) as (p & w1 & _ & Hwf1 & _ & Heq).
  rewrite Heq in HW. destruct (fate w1 p) as [[t r']|]; [|discriminate].
  injection HW as _ <-. now apply wf_advance.
Qed.

Lemma Wait_no_panic (w : world) (f : TaskFunc) :
  wf w ->
  match Wait f w with
  | Ok _ _ | Blocked _ => True
  | Panics _ | Exhausted => False
  end.
Proof.
  intros Hwf. destruct (Wait_spec w f Hwf) as (p & w1 & _ & _ & _ & ->).
  now destruct (fate w1 p) as [[t r]|].
Qed.

Lemma Log_spec (err : option error) (w : world) : Log err w = Ok tt (logged err w).
Proof. now destruct err. Qed.

Lemma wf_logged (err : option error) (w : world) : wf w -> wf (logged err w).
Proof. destruct err; intros H; exact H. Qed.

Lemma advance_logged (T : nat) (err : option error) (w : world) :
  advance T (logged err w) = logged err (advance T w).
Proof. now destruct err. Qed.

Lemma fate_logged (err : option error) (w : world) (p : ptr) :
  fate (logged err w) p = fate w p.
Proof. now destruct err. Qed.

Lemma tasks_logged (err : option error) (w : world) :
  tasks (logged err w) = tasks w.
Proof. now destruct err. Qed.

Lemma heap_logged (err : option error) (w : world) :
  heap (logged err w) = heap w.
Proof. now destruct err. Qed.

Lemma advance_idem (T : nat) (w : world) : advance T (advance T w) = advance T w.
Proof. rewrite advance_advance. now rewrite Nat.max_id. Qed.

Lemma outcome_result_nil (f : TaskFunc) (o : outcome) :
  outcome_result f o = None <-> ends_nil o = true.
Proof.
  unfold outcome_result. destruct o as [[e|]|[c|s|]]; simpl;
    split; intros H; try discriminate; reflexivity.
Qed.

Lemma Task_behaviour (w w' : world) (f : TaskFunc) (p : ptr) :
  taskGroup.Task f w = Ok p w' -> behaviour w' = behaviour w /\ now w' = now w.
Proof.
  unfold taskGroup.Task. destruct (taskGroup.lookup w _).
  - intros [= _ <-]. now split.
  - simpl. intros [= _ <-]. now split.
Qed.

(* --------------------------------------------------------------------- *)
(** ** [Ser] and [Opt]                                                    *)
(* --------------------------------------------------------------------- *)

Lemma Ser_after_nil (before rest : list TaskFunc) (w w1 : world) :
  waits_nil w before w1 -> Ser (before ++ rest) w = Ser rest w1.
Proof.
  induction 1 as [w|w w1 w2 f before HW _ IH]; [reflexivity|].
  simpl. unfold bind at 1. now rewrite HW.
Qed.

Lemma Ser_one (f : TaskFunc) (w : world) : Ser [f] w = Wait f w.
Proof.
  simpl. unfold bind. destruct (Wait f w) as [[e|] w'| | |]; reflexivity.
Qed.

(** C7: the function made by [Ser] calls [Wait] on the given functions in
    their order, each through the lookup of [Task]. When it returns nil,
    every call returned nil. When it returns an error, some calls returned
    nil, the next one returned that error, which is the result of the task
    registered for that function, and the call ends there: the functions
    after it play no part, the answer and the world are those of [Ser] on the
    list cut after that function. It blocks only inside one of those calls
    of [Wait]. *)
Theorem Ser_first_error (funs : list TaskFunc) (w : world) :
  wf w ->
  match Ser funs w with
  | Ok None w' => waits_nil w funs w'
  | Ok (Some e) w' =>
      exists (before : list TaskFunc) (f : TaskFunc) (after : list TaskFunc)
             (w1 : world),
        funs = before ++ f :: after
        /\ waits_nil w before w1
        /\ Wait f w1 = Ok (Some e) w'
        /\ Ser (before ++ [f]) w = Ok (Some e) w'
        /\ exists (p : ptr) (t : nat),
             tasks w' !! TaskFunc.id f = Some p /\ fate w' p = Some (t, Some e)
  | Blocked w' =>
      exists (before : list TaskFunc) (f : TaskFunc) (after : list TaskFunc)
             (w1 : world),
        funs = before ++ f :: after
        /\ waits_nil w before w1
        /\ Wait f w1 = Blocked w'
  | Panics _ | Exhausted => False
  end.
Proof.
  revert w. induction funs as [|f funs IH]; intros w Hwf.
  - simpl. constructor.
  - simpl. unfold bind.
    pose proof (Wait_no_panic w f Hwf) as Hnp.
    destruct (Wait f w) as [[e|] w1|w1| |] eqn:HW; try contradiction.
    + exists [], f, funs, w. split; [reflexivity|]. split; [constructor|].
      split; [exact HW|]. split; [simpl; unfold bind; now rewrite HW|].
      destruct (Wait_spec w f Hwf) as (p & w0 & HT & Hwf0 & Hv & Heq).
      rewrite Heq in HW. destruct (fate w0 p) as [[t r]|] eqn:Hf; [|discriminate].
      injection HW as -> <-. exists p, t.
      destruct (Task_spec w f Hwf) as (p' & w0' & HT' & _ & Hk & _ & _).
      rewrite HT in HT'. injection HT' as <- <-.
      split; [exact Hk | now rewrite fate_advance].
    + specialize (IH w1 (Wait_wf _ _ _ _ Hwf HW)).
      destruct (Ser funs w1) as [[e|] w'|w'| |]; try contradiction.
      * destruct IH as (before & g & after & w2 & -> & Hb & Hg & HS & Hp).
        exists (f :: before), g, after, w2.
        split; [reflexivity|]. split; [econstructor; eassumption|].
        split; [exact Hg|]. split; [|exact Hp].
        simpl. unfold bind. now rewrite HW.
      * econstructor; eassumption.
      * destruct IH as (before & g & after & w2 & -> & Hb & Hg).
        exists (f :: before), g, after, w2.
        split; [reflexivity|]. split; [econstructor; eassumption | exact Hg].
    + exists [], f, funs, w. split; [reflexivity|]. split; [constructor | exact HW].
Qed.

Lemma Ser_first_error_witness :
  wf example_world
  /\ match Ser [TaskFuncNop0; TaskFuncImmediateErr; site_build] example_world with
     | Ok (Some e) w' =>
         exists (before : list TaskFunc) (f : TaskFunc) (after : list TaskFunc)
                (w1 : world),
           [TaskFuncNop0; TaskFuncImmediateErr; site_build] = before ++ f :: after
           /\ waits_nil example_world before w1
           /\ Wait f w1 = Ok (Some e) w'
           /\ Ser (before ++ [f]) example_world = Ok (Some e) w'
           /\ exists (p : ptr) (t : nat),
                tasks w' !! TaskFunc.id f = Some p /\ fate w' p = Some (t, Some e)
     | _ => False
     end.
Proof.
  split; [apply wf_new_world|].
  pose proof (Ser_first_error [TaskFuncNop0; TaskFuncImmediateErr; site_build]
                example_world (wf_new_world _ _ _)) as H.
  destruct (Ser [TaskFuncNop0; TaskFuncImmediateErr; site_build] example_world)
    as [[e|] w'|w'| |] eqn:HS; try exact H; vm_compute in HS; discriminate HS.
Defined.

(** A second [Wait] on a function whose task is done returns its result
    again and changes nothing. *)
Lemma Wait_again (w w1 : world) (f : TaskFunc) (r : option error) :
  wf w -> Wait f w = Ok r w1 -> Wait f w1 = Ok r w1.
Proof.
  intros Hwf HW.
  destruct (Task_spec w f Hwf) as (p & w0 & HT & Hwf0 & Hk & _ & _).
  destruct (fate_registered w0 _ p Hwf0 Hk) as [Hv _].
  assert (Heq : Wait f w = match fate w0 p with
                           | Some (t, r) => Ok r (advance t w0)
                           | None => Blocked (sync w0)
                           end).
  { unfold Wait, bind. rewrite HT. now apply waitFor_spec. }
  rewrite Heq in HW. destruct (fate w0 p) as [[t r']|] eqn:Hf; [|discriminate].
  injection HW as -> <-.
  unfold Wait, bind. rewrite (Task_existing (advance t w0) f p) by exact Hk.
  rewrite waitFor_spec
    by (try apply wf_advance; try apply valid_advance; assumption).
  now rewrite fate_advance, Hf, advance_idem.
Qed.

(** C8: the function made by [Opt(F)] returns nil whenever the wait on [F]
    returns, writing the error of [F] to the log; it leaves the map of the
    group and the task objects as [Wait] left them, so that a direct [Wait]
    on [F] afterwards still returns the recorded error of [F], which is
    non-nil unless [F] returned nil or ended in a panic after which
    [recover()] yields nil. It blocks exactly when [F] never ends. *)
Theorem Opt_suppresses (F : TaskFunc) (w : world) :
  wf w ->
  match Wait F w with
  | Ok e w1 =>
      Opt F w = Ok None (logged e w1)
      /\ tasks (logged e w1) = tasks w1
      /\ heap (logged e w1) = heap w1
      /\ Wait F (logged e w1) = Ok e (logged e w1)
      /\ (exists (p : ptr) (t : nat),
            tasks w1 !! TaskFunc.id F = Some p /\ fate w1 p = Some (t, e))
      /\ (e = None
          <-> exists (d : nat) (o : outcome),
                behaviour w (TaskFunc.id F) = Some (d, o) /\ ends_nil o = true)
  | Blocked w1 =>
      Opt F w = Blocked w1 /\ behaviour w (TaskFunc.id F) = None
  | Panics _ | Exhausted => False
  end.
Proof.
  intros Hwf.
  destruct (Task_spec w F Hwf) as (p & w0 & HT & Hwf0 & Hk & _ & _).
  destruct (Task_behaviour _ _ _ _ HT) as [Hb _].
  destruct (fate_registered w0 _ p Hwf0 Hk) as [Hv (f' & t0 & Hid & Hfate)].
  assert (Heq : Wait F w = match fate w0 p with
                           | Some (t, r) => Ok r (advance t w0)
                           | None => Blocked (sync w0)
                           end).
  { unfold Wait, bind. rewrite HT. now apply waitFor_spec. }
  rewrite Hb in Hfate.
  destruct (Wait F w) as [e w1|w1| |] eqn:HW;
    destruct (fate w0 p) as [[t r]|] eqn:Hf; try discriminate.
  - injection Heq as -> ->.
    split; [unfold Opt, bind; now rewrite HW, Log_spec|].
    split; [apply tasks_logged|]. split; [apply heap_logged|].
    split.
    { assert (Hwf1 : wf (advance t w0)) by now apply wf_advance.
      destruct (Wait_spec _ F (wf_logged r _ Hwf1)) as (q & w2 & HT2 & _ & _ & HW2).
      rewrite (Task_existing (logged r (advance t w0)) F p) in HT2
        by (rewrite tasks_logged; exact Hk).
      injection HT2 as <- <-. rewrite HW2.
      now rewrite fate_logged, fate_advance, Hf, advance_logged, advance_idem. }
    split; [exists p, t; split; [exact Hk | now rewrite fate_advance]|].
    destruct (behaviour w (TaskFunc.id F)) as [[d o]|]; [|discriminate].
    injection Hfate as _ ->. rewrite outcome_result_nil. split.
    + intros Ho. now exists d, o.
    + intros (d' & o' & [= _ ->] & Ho). exact Ho.
  - injection Heq as ->.
    split; [unfold Opt, bind; now rewrite HW|].
    now destruct (behaviour w (TaskFunc.id F)) as [[d o]|].
Qed.

Lemma Opt_suppresses_witness :
  wf example_world
  /\ Opt TaskFuncImmediateErr example_world
     = Ok None (logged (Some (finished_with TaskFuncImmediateErr immediate_error))
                       (advance 3 (with_new_task example_world TaskFuncImmediateErr)))
  /\ Wait TaskFuncImmediateErr
          (logged (Some (finished_with TaskFuncImmediateErr immediate_error))
                  (advance 3 (with_new_task example_world TaskFuncImmediateErr)))
     = Ok (Some (finished_with TaskFuncImmediateErr immediate_error))
          (logged (Some (finished_with TaskFuncImmediateErr immediate_error))
                  (advance 3 (with_new_task example_world TaskFuncImmediateErr))).
Proof.
  split; [apply wf_new_world|].
  pose proof (Opt_suppresses TaskFuncImmediateErr example_world
                (wf_new_world _ _ _)) as H.
  assert (HW : Wait TaskFuncImmediateErr example_world
               = Ok (Some (finished_with TaskFuncImmediateErr immediate_error))
                    (advance 3 (with_new_task example_world TaskFuncImmediateErr)))
    by (vm_compute; reflexivity).
  rewrite HW in H. destruct H as (HO & _ & _ & HA & _). split; assumption.
Defined.

(* --------------------------------------------------------------------- *)
(** ** [reflect.Select] and [waitGroup.wait]                              *)
(* --------------------------------------------------------------------- *)

Lemma set_choices_same (w : world) : set_choices (choices w) w = w.
Proof. now destruct w. Qed.

Lemma pick_ok (rdy : list nat) (w : world) :
  rdy <> [] ->
  exists (i : nat) (cs : list nat), pick rdy w = Ok i (set_choices cs w) /\ i ∈ rdy.
Proof.
  intros Hne. destruct rdy as [|first rdy]; [contradiction|]. unfold pick.
  destruct (choices w) as [|c rest] eqn:Hc.
  - exists first, (choices w). rewrite set_choices_same. split; [reflexivity|].
    apply list_elem_of_here.
  - exists (nth (c mod length (first :: rdy)) (first :: rdy) first), rest.
    split; [reflexivity|]. apply list_elem_of_In, nth_In.
    apply Nat.mod_upper_bound. simpl. lia.
Qed.

Section SelectSpec.

Variable w : world.
Variable T : nat.
Hypothesis Hwf : wf w.

Let w' : world := advance T w.

Lemma case_ready_advance (p : ptr) :
  valid w p -> case_ready w' (recv_case p) = done_at w p (now w').
Proof.
  intros Hv. destruct (observe_advance w T p Hwf Hv) as (c' & Hc' & Hd & _).
  unfold case_ready, recv_case, Done. cbn [Dir Chan]. subst w'.
  now rewrite Hc'.
Qed.

Lemma case_due_advance (p : ptr) :
  valid w p ->
  case_due w' (recv_case p)
  = if done_at w p (now w') then None else fst <$> fate w p.
Proof.
  intros Hv. destruct (observe_advance w T p Hwf Hv) as (c' & Hc' & Hd & _ & Hdue).
  unfold case_due, recv_case, Done. cbn [Dir Chan]. subst w'. rewrite Hc'.
  unfold task.Done. now rewrite Hd, Hdue.
Qed.

Lemma ready_spec (ts : list ptr) (i : nat) :
  Forall (valid w) ts ->
  i ∈ ready w' (recv_case <$> ts)
  <-> exists p : ptr, ts !! i = Some p /\ done_at w p (now w') = true.
Proof.
  intros Hv. unfold ready.
  rewrite list_elem_of_filter, elem_of_seq, length_fmap, list_lookup_fmap.
  split.
  - intros [Hr [_ Hlt]]. destruct (lookup_lt_is_Some_2 ts i) as [p Hp]; [lia|].
    exists p. split; [exact Hp|]. rewrite Hp in Hr. simpl in Hr.
    rewrite case_ready_advance in Hr
      by (eapply Forall_lookup_1; eassumption).
    now apply Is_true_true.
  - intros (p & Hp & Hd). rewrite Hp. simpl.
    rewrite case_ready_advance by (eapply Forall_lookup_1; eassumption).
    split; [now apply Is_true_true|].
    split; [lia|]. simpl. eapply lookup_lt_Some. exact Hp.
Qed.

End SelectSpec.

Lemma next_due_None (w : world) (cases : list SelectCase) :
  next_due w cases = None -> forall c, c ∈ cases -> case_due w c = None.
Proof.
  induction cases as [|c0 cases IH]; intros H c Hc; [now apply elem_of_nil in Hc|].
  simpl in H. destruct (case_due w c0) as [a|] eqn:Hc0.
  - now destruct (next_due w cases).
  - apply elem_of_cons in Hc as [->|Hc]; [exact Hc0 | now apply IH].
Qed.

Lemma next_due_Some (w : world) (cases : list SelectCase) (m : nat) :
  next_due w cases = Some m ->
  (exists c, c ∈ cases /\ case_due w c = Some m)
  /\ forall c a, c ∈ cases -> case_due w c = Some a -> m <= a.
Proof.
  revert m. induction cases as [|c0 cases IH]; intros m H; [discriminate|].
  simpl in H.
  destruct (case_due w c0) as [a0|] eqn:Hc0;
    destruct (next_due w cases) as [b|] eqn:Hn.
  - injection H as <-. destruct (IH b eq_refl) as [(c & Hc & Hcb) Hmin]. split.
    + destruct (Nat.min_spec a0 b) as [[_ ->]|[_ ->]].
      * exists c0. split; [apply list_elem_of_here | exact Hc0].
      * exists c. split; [now apply list_elem_of_further | exact Hcb].
    + intros c' a Hc' Ha. apply elem_of_cons in Hc' as [->|Hc'].
      * rewrite Hc0 in Ha. injection Ha as <-. lia.
      * specialize (Hmin c' a Hc' Ha). lia.
  - injection H as <-. split.
    + exists c0. split; [apply list_elem_of_here | exact Hc0].
    + intros c' a Hc' Ha. apply elem_of_cons in Hc' as [->|Hc'].
      * rewrite Hc0 in Ha. injection Ha as <-. lia.
      * now rewrite (next_due_None w cases Hn c' Hc') in Ha.
  - destruct (IH m H) as [(c & Hc & Hcm) Hmin]. split.
    + exists c. split; [now apply list_elem_of_further | exact Hcm].
    + intros c' a Hc' Ha. apply elem_of_cons in Hc' as [->|Hc'].
      * now rewrite Hc0 in Ha.
      * now apply (Hmin c' a).
  - discriminate.
Qed.

Lemma done_at_true (w : world) (p : ptr) (T : nat) :
  done_at w p T = true <-> exists t r, fate w p = Some (t, r) /\ t <= T.
Proof.
  unfold done_at. destruct (fate w p) as [[t r]|]; split.
  - intros H. exists t, r. split; [reflexivity | now apply Nat.leb_le].
  - intros (t' & r' & [= <- <-] & Hle). now apply Nat.leb_le.
  - discriminate.
  - now intros (t' & r' & H & _).
Qed.

Lemma done_at_false (w : world) (p : ptr) (T : nat) (t : nat) (r : option error) :
  done_at w p T = false -> fate w p = Some (t, r) -> T < t.
Proof.
  unfold done_at. intros H Hf. rewrite Hf in H. now apply Nat.leb_gt.
Qed.

(** [reflect.Select] over the receive cases of the tasks [ts]: it blocks
    forever when none of them ever gets done; otherwise it returns the index
    of a task that is done, after the others ran up to the earliest fate (or
    at once, when some task is done already), having consumed at most one
    choice. *)
Lemma Select_spec (w : world) (ts : list ptr) :
  wf w -> Forall (valid w) ts -> (Z.of_nat (length ts) <= maxSelectCases)%Z ->
  match Select (recv_case <$> ts) w with
  | Ok i w' =>
      exists (p : ptr) (t : nat) (r : option error) (cs : list nat) (T : nat),
        ts !! i = Some p
        /\ fate w p = Some (t, r)
        /\ t <= now w'
        /\ w' = set_choices cs (advance T w)
        /\ forall (q : ptr) (tq : nat) (rq : option error),
             q ∈ ts -> fate w q = Some (tq, rq) -> now w' <= Nat.max (now w) tq
  | Blocked w' => w' = sync w /\ forall q : ptr, q ∈ ts -> fate w q = None
  | Panics _ | Exhausted => False
  end.
Proof.
  intros Hwf Hv Hmax. unfold Select.
  rewrite (proj2 (Z.ltb_ge _ _)) by (now rewrite length_fmap).
  destruct (ready (sync w) (recv_case <$> ts)) as [|i0 rdy] eqn:Hrdy.
  - (* nothing is ready now *)
    assert (Hnot : forall q, q ∈ ts -> done_at w q (now w) = false).
    { intros q Hq. apply list_elem_of_lookup in Hq as [i Hi].
      destruct (done_at w q (now w)) eqn:Hd; [|reflexivity].
      assert (Hin : i ∈ ready (sync w) (recv_case <$> ts)).
      { apply ready_spec; [assumption..|]. exists q. split; [exact Hi|].
        unfold sync. now rewrite advance_now, Nat.max_id. }
      rewrite Hrdy in Hin. now apply elem_of_nil in Hin. }
    assert (Hdue : forall q, q ∈ ts ->
                     case_due (sync w) (recv_case q) = fst <$> fate w q).
    { intros q Hq. unfold sync. rewrite case_due_advance;
        [|assumption|eapply Forall_forall; eassumption].
      now rewrite advance_now, Nat.max_id, (Hnot q Hq). }
    destruct (next_due (sync w) (recv_case <$> ts)) as [m|] eqn:Hnext.
    + destruct (next_due_Some _ _ _ Hnext) as [(c & Hc & Hcm) Hmin].
      apply list_elem_of_fmap in Hc as (p & -> & Hp).
      rewrite (Hdue p Hp) in Hcm.
      destruct (fate w p) as [[t r]|] eqn:Hf; [|discriminate].
      injection Hcm as ->.
      pose proof (done_at_false _ _ _ _ _ (Hnot p Hp) Hf) as Hlt.
      rewrite sync_advance.
      assert (Hnow : now (advance m w) = m) by (rewrite advance_now; lia).
      destruct (pick_ok (ready (advance m w) (recv_case <$> ts)) (advance m w))
        as (i & cs & Hpick & Hi).
      { apply list_elem_of_lookup in Hp as [ip Hip].
        intros Hnil.
        assert (Hin : ip ∈ ready (advance m w) (recv_case <$> ts)).
        { apply ready_spec; [assumption..|]. exists p. split; [exact Hip|].
          apply done_at_true. exists m, r. split; [exact Hf | lia]. }
        rewrite Hnil in Hin. now apply elem_of_nil in Hin. }
      rewrite Hpick.
      apply ready_spec in Hi as (p' & Hp' & Hd'); [|assumption..].
      apply done_at_true in Hd' as (t' & r' & Hf' & Hle').
      exists p', t', r', cs, m. split; [exact Hp'|]. split; [exact Hf'|].
      split; [exact Hle'|]. split; [reflexivity|].
      intros q tq rq Hq Hfq. simpl. 
      assert (m <= tq); [|lia].
      apply (Hmin (recv_case q)); [now apply list_elem_of_fmap_2|].
      now rewrite (Hdue q Hq), Hfq.
    + split; [reflexivity|]. intros q Hq.
      pose proof (next_due_None _ _ Hnext (recv_case q)
                    (list_elem_of_fmap_2 _ _ _ Hq)) as Hnone.
      rewrite (Hdue q Hq) in Hnone.
      now destruct (fate w q).
  - (* some case is ready now *)
    destruct (pick_ok (i0 :: rdy) (sync w)) as (i & cs & Hpick & Hi); [discriminate|].
    rewrite Hpick. rewrite <- Hrdy in Hi.
    apply ready_spec in Hi as (p & Hp & Hd); [|assumption..].
    apply done_at_true in Hd as (t & r & Hf & Hle).
    exists p, t, r, cs, (now w). split; [exact Hp|]. split; [exact Hf|].
    split; [exact Hle|]. split; [reflexivity|].
    intros q tq rq _ _. simpl. lia.
Qed.

Lemma now_sync (w : world) : now (sync w) = now w.
Proof. unfold sync. rewrite advance_now. apply Nat.max_id. Qed.

Lemma fate_set_choices (cs : list nat) (w : world) (p : ptr) :
  fate (set_choices cs w) p = fate w p.
Proof. reflexivity. Qed.

Lemma elem_of_without (ts : list ptr) (i : nat) (p q : ptr) :
  ts !! i = Some p -> q ∈ ts -> q = p \/ q ∈ take i ts ++ drop (S i) ts.
Proof.
  intros Hi Hq. rewrite <- (take_drop_middle ts i p Hi) in Hq.
  rewrite elem_of_app, elem_of_cons in Hq. rewrite elem_of_app. tauto.
Qed.

Lemma elem_of_without_inv (ts : list ptr) (i : nat) (q : ptr) :
  q ∈ take i ts ++ drop (S i) ts -> q ∈ ts.
Proof.
  rewrite <- delete_take_drop. intros H.
  eapply elem_of_sublist; [exact H | apply sublist_delete].
Qed.

(** One iteration of the loop of [wait] that removed the finished task
    [ts[i]], whose result is nil: what holds of the rest of the loop on the
    entries left holds of the loop on [ts]. *)
Lemma wait_post_step (ts : list ptr) (w w2 : world) (i : nat) (p : ptr) (t : nat)
      (res : result (option error * waitGroup.t)) :
  ts !! i = Some p ->
  fate w p = Some (t, None) ->
  t <= now w2 -> now w <= now w2 ->
  (forall q, fate w2 q = fate w q) ->
  (forall q tq rq, q ∈ ts -> fate w q = Some (tq, rq) -> now w2 <= Nat.max (now w) tq) ->
  wait_post (take i ts ++ drop (S i) ts) w2 res ->
  wait_post ts w res.
Proof.
  intros Hi Hf Ht Hnow Hfate Hmin Hres.
  destruct res as [[[e|] wg'] w'|w'| |]; simpl in *; [| | |exact Hres..].
  - destruct Hres as (Hsub & Hn & (p' & t' & Hp' & Hf' & Ht') & Hmin').
    split.
    { etransitivity; [exact Hsub|]. rewrite <- delete_take_drop. apply sublist_delete. }
    split; [lia|]. split.
    { exists p', t'. split; [now apply elem_of_without_inv in Hp'|].
      split; [now rewrite <- Hfate | exact Ht']. }
    intros q tq eq Hq Hfq.
    destruct (elem_of_without ts i p q Hi Hq) as [->|Hq'].
    + rewrite Hf in Hfq. discriminate.
    + rewrite <- Hfate in Hfq. specialize (Hmin' q tq eq Hq' Hfq).
      rewrite Hfate in Hfq. specialize (Hmin q tq _ Hq Hfq). lia.
  - destruct Hres as (Hts & Hcs & Hn & Hall).
    split; [exact Hts|]. split; [exact Hcs|]. split; [lia|].
    intros q Hq. destruct (elem_of_without ts i p q Hi Hq) as [->|Hq'].
    + exists t. split; [exact Hf | lia].
    + destruct (Hall q Hq') as (tq & Hfq & Hle). exists tq.
      split; [now rewrite <- Hfate | exact Hle].
  - destruct Hres as ((q & Hq & Hfq) & Hnone). split.
    + exists q. split; [now apply elem_of_without_inv in Hq | now rewrite <- Hfate].
    + intros q' tq eq Hq' Hfq'.
      destruct (elem_of_without ts i p q' Hi Hq') as [->|Hq''].
      * rewrite Hf in Hfq'. discriminate.
      * rewrite <- Hfate in Hfq'. exact (Hnone q' tq eq Hq'' Hfq').
Qed.

Lemma wait_loop_spec (fuel : nat) (wg : waitGroup.t) (w : world) :
  wf w -> parallel wg -> Forall (valid w) (waitGroup.wtasks wg) ->
  (Z.of_nat (length (waitGroup.wtasks wg)) <= maxSelectCases)%Z ->
  length (waitGroup.wtasks wg) <= fuel ->
  wait_post (waitGroup.wtasks wg) w (waitGroup.wait_loop fuel wg w).
Proof.
  revert wg w. induction fuel as [|fuel IH]; intros [ts cs] w Hwf Hp Hv Hmax Hlen;
    unfold parallel in Hp; cbn [waitGroup.wtasks waitGroup.cases] in Hp, Hv, Hmax, Hlen;
    subst cs.
  - destruct ts; [|simpl in Hlen; lia]. simpl.
    repeat split; [lia|]. intros p Hp. now apply elem_of_nil in Hp.
  - destruct ts as [|p0 ts0].
    { simpl. repeat split; [lia|]. intros p Hp. now apply elem_of_nil in Hp. }
    set (ts := p0 :: ts0) in *.
    change (waitGroup.wait_loop (S fuel) (waitGroup.WaitGroup ts (recv_case <$> ts)) w)
      with ((index <- Select (recv_case <$> ts) ;;
             match waitGroup.remove (waitGroup.WaitGroup ts (recv_case <$> ts)) index with
             | None => fun _ => Panics "index out of range"
             | Some (task, self') =>
                 err <- Err task ;;
                 match err with
                 | Some e => ret (Some e, self')
                 | None => waitGroup.wait_loop fuel self'
                 end
             end) w).
    unfold bind at 1. pose proof (Select_spec w ts Hwf Hv Hmax) as HS.
    destruct (Select (recv_case <$> ts) w) as [i w1|w1| |]; [| |exact HS..].
    + destruct HS as (p & t & r & cs & T & Hi & Hf & Ht & -> & Hmin).
      rewrite (remove_in_range _ i p);
        [|simpl; now rewrite length_fmap|exact Hi].
      set (w1 := set_choices cs (advance T w)) in *.
      assert (Hwf1 : wf w1) by (apply wf_set_choices, wf_advance, Hwf).
      assert (Hv1 : forall q, valid w q -> valid w1 q)
        by (intros q Hq; apply (valid_advance T w q); exact Hq).
      assert (Hfate1 : forall q, fate w1 q = fate w q)
        by (intros q; subst w1; now rewrite fate_set_choices, fate_advance).
      assert (Hpin : p ∈ ts) by (eapply list_elem_of_lookup_2; exact Hi).
      unfold bind. rewrite Err_spec; [|exact Hwf1|apply Hv1; eapply Forall_forall; eassumption].
      unfold err_at. rewrite Hfate1, Hf, (leb_correct t (now w1) Ht).
      assert (Hnow1 : now w <= now w1) by (subst w1; simpl; lia).
      destruct r as [e|].
      * unfold ret. cbn [wait_post waitGroup.wtasks waitGroup.cases].
        rewrite now_sync. split.
        { rewrite <- delete_take_drop. apply sublist_delete. }
        split; [exact Hnow1|]. split.
        { exists p, t. now repeat split. }
        intros q tq eq Hq Hfq. exact (Hmin q tq _ Hq Hfq).
      * apply (wait_post_step ts w (sync w1) i p t);
          rewrite ?now_sync; try assumption.
        { intros q. unfold sync. now rewrite fate_advance. }
        apply (IH (waitGroup.WaitGroup (take i ts ++ drop (S i) ts)
                     (take i (recv_case <$> ts) ++ drop (S i) (recv_case <$> ts)))).
        { now apply wf_sync. }
        { unfold parallel. cbn [waitGroup.wtasks waitGroup.cases].
          now rewrite fmap_app, fmap_take, fmap_drop. }
        { cbn [waitGroup.wtasks]. apply Forall_forall. intros q Hq.
          apply elem_of_without_inv in Hq.
          apply valid_advance, Hv1. eapply Forall_forall; eassumption. }
        { cbn [waitGroup.wtasks].
          rewrite <- delete_take_drop, length_delete by (eexists; exact Hi). lia. }
        { cbn [waitGroup.wtasks].
          rewrite <- delete_take_drop, length_delete by (eexists; exact Hi). lia. }
    + simpl. split.
      * exists p0. split; [apply list_elem_of_here|].
        apply HS, list_elem_of_here.
      * intros q tq eq Hq Hfq. rewrite (proj2 HS q Hq) in Hfq. discriminate.
Qed.

Lemma wait_spec (wg : waitGroup.t) (w : world) :
  wf w -> parallel wg -> Forall (valid w) (waitGroup.wtasks wg) ->
  (Z.of_nat (length (waitGroup.wtasks wg)) <= maxSelectCases)%Z ->
  wait_post (waitGroup.wtasks wg) w (waitGroup.wait wg w).
Proof.
  intros Hwf Hp Hv Hmax. unfold waitGroup.wait. apply wait_loop_spec; try assumption.
  unfold parallel in Hp. now rewrite Hp, length_fmap.
Qed.

(** With more cases than [reflect.Select] takes, the first iteration of
    [wait] panics. *)
Lemma wait_too_many (wg : waitGroup.t) (w : world) :
  (maxSelectCases < Z.of_nat (length (waitGroup.cases wg)))%Z ->
  waitGroup.wait wg w = Panics "reflect.Select: too many cases (max 65536)".
Proof.
  intros Hmax. unfold waitGroup.wait.
  destruct wg as [ts [|c cs]]; cbn [waitGroup.cases] in *.
  - cbn [length] in Hmax. unfold maxSelectCases in Hmax. lia.
  - cbn [length waitGroup.wait_loop waitGroup.cases]. unfold bind at 1.
    unfold Select. now rewrite (proj2 (Z.ltb_lt _ _)) by exact Hmax.
Qed.

(** The loop of [Par] that fills the wait group: every function gets its
    registered task, in order, and the two slices stay parallel. *)
Lemma add_all_spec (funs : list TaskFunc) (wg : waitGroup.t) (w : world) :
  wf w -> parallel wg -> Forall (valid w) (waitGroup.wtasks wg) ->
  exists (wg' : waitGroup.t) (w' : world),
    add_all wg funs w = Ok wg' w'
    /\ wf w' /\ parallel wg' /\ Forall (valid w') (waitGroup.wtasks wg')
    /\ now w' = now w
    /\ length (waitGroup.wtasks wg') = length (waitGroup.wtasks wg) + length funs.
Proof.
  revert wg w. induction funs as [|f funs IH]; intros wg w Hwf Hp Hv.
  - exists wg, w. simpl.
    split; [reflexivity|]. split; [exact Hwf|]. split; [exact Hp|].
    split; [exact Hv|]. split; [reflexivity | lia].
  - destruct (Task_spec w f Hwf) as (p & w1 & HT & Hwf1 & Hk & _ & Hold).
    destruct (fate_registered w1 _ p Hwf1 Hk) as [Hvp _].
    destruct (Task_behaviour _ _ _ _ HT) as [_ Hnow].
    destruct (IH (waitGroup.add wg p) w1 Hwf1 (parallel_add wg p Hp))
      as (wg' & w' & Hadd & Hwf' & Hp' & Hv' & Hnow' & Hlen').
    { simpl. apply Forall_app. split.
      - eapply Forall_impl; [exact Hv|]. intros q Hq. now apply Hold.
      - now constructor. }
    exists wg', w'. simpl. unfold bind. rewrite HT.
    split; [exact Hadd|]. split; [exact Hwf'|]. split; [exact Hp'|].
    split; [exact Hv'|]. split; [congruence|].
    rewrite Hlen'. simpl. rewrite length_app. simpl. lia.
Qed.

Lemma Task_goroutines (w w' : world) (f : TaskFunc) (p : nat) :
  taskGroup.Task f w = Ok p w' ->
  length (goroutines w') <= S (length (goroutines w))
  /\ forall k : N, registered w' k <-> registered w k \/ k = TaskFunc.id f.
Proof.
  destruct (tasks w !! TaskFunc.id f) as [q|] eqn:Hk.
  - rewrite (Task_existing _ _ _ Hk). intros [= _ <-]. split; [lia|].
    intros k. split; [now left|]. intros [H| ->]; [exact H|].
    unfold registered. rewrite Hk. eauto.
  - rewrite (Task_new _ _ Hk). intros [= _ <-]. simpl. split.
    + rewrite length_app. simpl. lia.
    + intros k. unfold registered. simpl.
      destruct (decide (TaskFunc.id f = k)) as [<-|Hne].
      * rewrite lookup_insert_eq. split; [now right | eauto].
      * rewrite lookup_insert_ne by exact Hne. split; [now left|].
        intros [H|H]; [exact H | congruence].
Qed.

Lemma Task_total (f : TaskFunc) (w : world) :
  exists (p : ptr) (w' : world), taskGroup.Task f w = Ok p w'.
Proof.
  destruct (tasks w !! TaskFunc.id f) as [q|] eqn:Hk.
  - rewrite (Task_existing _ _ _ Hk). eauto.
  - rewrite (Task_new _ _ Hk). eauto.
Qed.

Lemma Task_tasks_mono (w w' : world) (f : TaskFunc) (p : ptr) :
  taskGroup.Task f w = Ok p w' ->
  tasks w' !! TaskFunc.id f = Some p
  /\ forall (k : N) (q : ptr), tasks w !! k = Some q -> tasks w' !! k = Some q.
Proof.
  destruct (tasks w !! TaskFunc.id f) as [q|] eqn:Hk.
  - rewrite (Task_existing _ _ _ Hk). intros [= <- <-]. now split.
  - rewrite (Task_new _ _ Hk). intros [= <- <-]. simpl. split.
    + apply lookup_insert_eq.
    + intros k q Hq. rewrite lookup_insert_ne; [exact Hq | congruence].
Qed.

Lemma add_all_registered (funs : list TaskFunc) (wg wg' : waitGroup.t) (w w' : world) :
  add_all wg funs w = Ok wg' w' ->
  exists ps : list ptr,
    waitGroup.wtasks wg' = waitGroup.wtasks wg ++ ps
    /\ Forall2 (fun f p => tasks w' !! TaskFunc.id f = Some p) funs ps
    /\ behaviour w' = behaviour w
    /\ (forall (k : N) (q : ptr), tasks w !! k = Some q -> tasks w' !! k = Some q)
    /\ forall k : N, registered w' k <-> registered w k \/ k ∈ TaskFunc.id <$> funs.
Proof.
  revert wg w. induction funs as [|f funs IH]; intros wg w; cbn [add_all].
  - intros [= <- <-]. exists []. rewrite app_nil_r.
    split; [reflexivity|]. split; [constructor|]. split; [reflexivity|].
    split; [auto|]. intros k. split; [now left|]. intros [H|H]; [exact H|].
    cbn in H. now apply elem_of_nil in H.
  - unfold bind. destruct (Task_total f w) as (p & w0 & HT). rewrite HT.
    intros Hadd. destruct (IH _ _ Hadd) as (ps & Hts & HF & Hb & Hmono & Hreg).
    destruct (Task_tasks_mono _ _ _ _ HT) as [Hp Hmono0].
    destruct (Task_goroutines _ _ _ _ HT) as [_ Hreg0].
    destruct (Task_behaviour _ _ _ _ HT) as [Hb0 _].
    exists (p :: ps). cbn [waitGroup.add waitGroup.wtasks] in Hts.
    split; [now rewrite Hts, <- app_assoc|].
    split; [constructor; [now apply Hmono | exact HF]|].
    split; [congruence|]. split; [auto|].
    intros k. rewrite Hreg, Hreg0, fmap_cons, elem_of_cons. tauto.
Qed.

(** C5 as stated fails: 65537 task functions that each return nil at once
    are given to a new group of which they are the registered tasks; every
    one of them ends with a nil result, and [wait] on the wait group that
    holds them does not return nil: it panics in [reflect.Select], which
    takes at most 65536 cases. *)
Lemma wait_too_many_panics :
  exists (wg : waitGroup.t) (w : world),
    add_all (makeWaitGroup (length many_funs)) many_funs
            (new_world 0 [] (fun _ => Some (0, Returned None)))
    = Ok wg w
    /\ wf w /\ parallel wg /\ Forall (valid w) (waitGroup.wtasks wg)
    /\ (forall p : ptr,
          p ∈ waitGroup.wtasks wg -> exists t : nat, fate w p = Some (t, None))
    /\ waitGroup.wait wg w = Panics "reflect.Select: too many cases (max 65536)"
    /\ ~ exists (wg' : waitGroup.t) (w' : world),
           waitGroup.wait wg w = Ok (None, wg') w'.
Proof.
  set (w0 := new_world 0 [] (fun _ => Some (0, Returned None))).
  destruct (add_all_spec many_funs (makeWaitGroup (length many_funs)) w0
              (wf_new_world _ _ _) (parallel_make _) (Forall_nil_2 _))
    as (wg & w & Hadd & Hwf & Hp & Hv & _ & Hlen).
  destruct (add_all_registered _ _ _ _ _ Hadd) as (ps & Hts & HF & Hb & _ & _).
  assert (Hpanic : waitGroup.wait wg w
                   = Panics "reflect.Select: too many cases (max 65536)").
  { apply wait_too_many. unfold parallel in Hp. rewrite Hp, length_fmap, Hlen.
    cbn [makeWaitGroup waitGroup.wtasks length]. unfold many_funs.
    rewrite length_fmap, length_seq. unfold maxSelectCases. lia. }
  exists wg, w. split; [exact Hadd|]. split; [exact Hwf|]. split; [exact Hp|].
  split; [exact Hv|]. split; [|split; [exact Hpanic|]].
  - intros p Hin. rewrite Hts in Hin. cbn [makeWaitGroup waitGroup.wtasks app] in Hin.
    apply list_elem_of_lookup in Hin as [i Hi].
    destruct (Forall2_lookup_r _ _ _ _ _ HF Hi) as (f & _ & Hk).
    destruct (fate_registered w _ p Hwf Hk) as [_ (f' & t0 & _ & Hfate)].
    rewrite Hfate, Hb. now exists (t0 + 0).
  - intros (wg' & w' & H). rewrite Hpanic in H. discriminate.
Qed.

(** C5, amended: [wait] over a wait group of at most 65536 registered
    tasks, the most that [reflect.Select] takes. It returns nil exactly when
    every registered task ends with a nil result. When some registered task
    ends with a non-nil result, [wait] returns the non-nil result of a
    registered task, at the time that task is done and no later than the
    time at which any failing task is done, whatever the other tasks do
    (they may never end); the entries it has not removed are left in the
    group. With no entry it returns nil at once, in the same world. Over
    more than 65536 registered tasks it panics in [reflect.Select]. *)
Theorem wait_fail_fast (wg : waitGroup.t) (w : world) :
  wf w -> parallel wg -> Forall (valid w) (waitGroup.wtasks wg) ->
  ((Z.of_nat (length (waitGroup.wtasks wg)) <= maxSelectCases)%Z ->
   wait_post (waitGroup.wtasks wg) w (waitGroup.wait wg w)
   /\ ((exists (wg' : waitGroup.t) (w' : world),
          waitGroup.wait wg w = Ok (None, wg') w')
       <-> forall p : ptr,
             p ∈ waitGroup.wtasks wg -> exists t : nat, fate w p = Some (t, None))
   /\ (forall (p : ptr) (t : nat) (e : error),
         p ∈ waitGroup.wtasks wg -> fate w p = Some (t, Some e) ->
         exists (e' : error) (wg' : waitGroup.t) (w' : world) (p' : ptr) (t' : nat),
           waitGroup.wait wg w = Ok (Some e', wg') w'
           /\ p' ∈ waitGroup.wtasks wg
           /\ fate w p' = Some (t', Some e')
           /\ now w' = Nat.max (now w) t'
           /\ now w' <= Nat.max (now w) t
           /\ sublist (waitGroup.wtasks wg') (waitGroup.wtasks wg))
   /\ (waitGroup.wtasks wg = [] -> waitGroup.wait wg w = Ok (None, wg) w))
  /\ ((maxSelectCases < Z.of_nat (length (waitGroup.wtasks wg)))%Z ->
      waitGroup.wait wg w = Panics "reflect.Select: too many cases (max 65536)").
Proof.
  intros Hwf Hp Hv. split; [|intros Hmax; apply wait_too_many;
                            unfold parallel in Hp; now rewrite Hp, length_fmap].
  intros Hmax. pose proof (wait_spec wg w Hwf Hp Hv Hmax) as Hpost.
  split; [exact Hpost|]. split; [|split].
  - split.
    + intros (wg' & w' & Heq). rewrite Heq in Hpost.
      destruct Hpost as (_ & _ & _ & Hall). intros p Hin.
      destruct (Hall p Hin) as (t & Hf & _). now exists t.
    + intros Hall.
      destruct (waitGroup.wait wg w) as [[[e|] wg'] w'|w'| |]; simpl in Hpost.
      * destruct Hpost as (_ & _ & (p & t & Hin & Hf & _) & _).
        destruct (Hall p Hin) as (t' & Hf'). rewrite Hf in Hf'. discriminate.
      * now exists wg', w'.
      * destruct Hpost as ((q & Hin & Hf) & _).
        destruct (Hall q Hin) as (t' & Hf'). rewrite Hf in Hf'. discriminate.
      * contradiction.
      * contradiction.
  - intros p t e Hin Hf.
    destruct (waitGroup.wait wg w) as [[[e'|] wg'] w'|w'| |]; simpl in Hpost.
    + destruct Hpost as (Hsub & Hnow & (p' & t' & Hin' & Hf' & Ht') & Hmin).
      exists e', wg', w', p', t'. split; [reflexivity|].
      split; [exact Hin'|]. split; [exact Hf'|].
      pose proof (Hmin p' t' e' Hin' Hf'). pose proof (Hmin p t e Hin Hf).
      repeat split; [lia | lia | exact Hsub].
    + destruct Hpost as (_ & _ & _ & Hall).
      destruct (Hall p Hin) as (t' & Hf' & _). rewrite Hf in Hf'. discriminate.
    + destruct Hpost as (_ & Hnone). destruct (Hnone p t e Hin Hf).
    + contradiction.
    + contradiction.
  - intros Hnil. destruct wg as [ts cs]. unfold parallel in Hp.
    cbn [waitGroup.wtasks waitGroup.cases] in *.
    subst ts cs. reflexivity.
Qed.

Lemma wait_fail_fast_witness :
  match example_par with
  | Ok wg w =>
      waitGroup.wtasks wg = [0; 1; 2]
      /\ exists (wg' : waitGroup.t) (w' : world),
           waitGroup.wait wg w
           = Ok (Some (finished_with TaskFuncImmediateErr immediate_error), wg') w'
           /\ now w' = 3
  | _ => False
  end.
Proof.
  destruct (add_all_spec [TaskFuncNop0; TaskFuncImmediateErr; site_build]
              (makeWaitGroup 3) example_world (wf_new_world _ _ _)
              (parallel_make 3) (Forall_nil_2 _))
    as (wg & w & Hadd & Hwf & Hp & Hv & _).
  fold example_par in Hadd. rewrite Hadd.
  assert (Hts : waitGroup.wtasks wg = [0; 1; 2]).
  { vm_compute in Hadd. now injection Hadd as <- _. }
  split; [exact Hts|].
  assert (Hmax : (Z.of_nat (length (waitGroup.wtasks wg)) <= maxSelectCases)%Z).
  { rewrite Hts. cbn [length]. unfold maxSelectCases. lia. }
  destruct (proj1 (wait_fail_fast wg w Hwf Hp Hv) Hmax) as (_ & _ & Hfail & _).
  destruct (Hfail 1 3 (finished_with TaskFuncImmediateErr immediate_error))
    as (e' & wg' & w' & p' & t' & Hwait & Hin & Hf & Hnow & Hle & _).
  { rewrite Hts. set_solver. }
  { vm_compute in Hadd. injection Hadd as _ <-. reflexivity. }
  assert (Hp' : p' = 1 /\ t' = 3
                /\ e' = finished_with TaskFuncImmediateErr immediate_error).
  { vm_compute in Hadd. injection Hadd as <- <-.
    simpl in Hin.
    apply elem_of_cons in Hin as [->|Hin]; [vm_compute in Hf; discriminate|].
    apply elem_of_cons in Hin as [->|Hin];
      [vm_compute in Hf; injection Hf as <- <-; now repeat split|].
    apply elem_of_cons in Hin as [->|Hin]; [vm_compute in Hf; discriminate|].
    now apply elem_of_nil in Hin. }
  destruct Hp' as (-> & -> & ->).
  exists wg', w'. split; [exact Hwait|]. rewrite Hnow.
  vm_compute in Hadd. injection Hadd as _ <-. reflexivity.
Defined.

(* --------------------------------------------------------------------- *)
(** ** [Par]                                                              *)
(* --------------------------------------------------------------------- *)

Lemma advance_set_choices (T : nat) (cs : list nat) (w : world) :
  advance T (set_choices cs w) = set_choices cs (advance T w).
Proof. reflexivity. Qed.

Lemma advance_same_time (T T' : nat) (w : world) :
  Nat.max (now w) T = Nat.max (now w) T' -> advance T w = advance T' w.
Proof. intros H. unfold advance. now rewrite H. Qed.

(** [reflect.Select] over one receive case is a receive from that channel
    that answers index 0. *)
Lemma Select_single (w : world) (p : ptr) :
  wf w -> valid w p ->
  exists cs : list nat,
    Select [recv_case p] w
    = match fate w p with
      | Some (t, _) => Ok 0 (set_choices cs (advance t w))
      | None => Blocked (sync w)
      end.
Proof.
  intros Hwf Hv.
  assert (Hvs : Forall (valid w) [p]) by (constructor; [exact Hv | constructor]).
  assert (Hmax : (Z.of_nat (length [p]) <= maxSelectCases)%Z)
    by (cbn [length]; unfold maxSelectCases; lia).
  pose proof (Select_spec w [p] Hwf Hvs Hmax) as HS.
  change (recv_case <$> [p]) with [recv_case p] in HS.
  destruct (Select [recv_case p] w) as [i w'|w'| |]; try contradiction.
  - destruct HS as (p' & t & r & cs & T & Hi & Hf & Ht & -> & Hmin).
    destruct i as [|i]; [|now destruct i]. injection Hi as <-.
    exists cs. rewrite Hf. do 2 f_equal. apply advance_same_time.
    specialize (Hmin p t r (list_elem_of_here _ _) Hf). simpl in Ht, Hmin. lia.
  - destruct HS as [-> Hnone]. exists [].
    now rewrite (Hnone p (list_elem_of_here _ _)).
Qed.

(** The path of [Par] through the wait group, taken with one function, is a
    direct wait up to the choices that [reflect.Select] consumes. *)
Lemma Par_group_single (X : TaskFunc) (w : world) :
  wf w -> forget_choices (Par_group [X] w) = forget_choices (Wait X w).
Proof.
  intros Hwf.
  destruct (Task_spec w X Hwf) as (p & w1 & HT & Hwf1 & Hk & _ & _).
  destruct (fate_registered w1 _ p Hwf1 Hk) as [Hv _].
  assert (HW : Wait X w = match fate w1 p with
                          | Some (t, r) => Ok r (advance t w1)
                          | None => Blocked (sync w1)
                          end).
  { unfold Wait, bind. rewrite HT. now apply waitFor_spec. }
  rewrite HW.
  unfold Par_group, bind. simpl add_all. unfold bind, ret. rewrite HT.
  unfold waitGroup.wait. simpl length.
  change (waitGroup.wait_loop 1 (waitGroup.add (makeWaitGroup 1) p) w1)
    with ((index <- Select [recv_case p] ;;
           match waitGroup.remove (waitGroup.WaitGroup [p] [recv_case p]) index with
           | None => fun _ => Panics "index out of range"
           | Some (task, self') =>
               err <- Err task ;;
               match err with
               | Some e => ret (Some e, self')
               | None => waitGroup.wait_loop 0 self'
               end
           end) w1).
  unfold bind. destruct (Select_single w1 p Hwf1 Hv) as [cs ->].
  destruct (fate w1 p) as [[t r]|] eqn:Hf; [|reflexivity].
  change (waitGroup.remove (waitGroup.WaitGroup [p] [recv_case p]) 0)
    with (Some (p, waitGroup.WaitGroup [] [])).
  cbv iota beta.
  rewrite Err_spec;
    [|apply wf_set_choices, wf_advance, Hwf1
     |apply (valid_advance t w1 p), Hv].
  unfold err_at. rewrite fate_set_choices, fate_advance, Hf.
  change (now (set_choices cs (advance t w1))) with (now (advance t w1)).
  rewrite advance_now, (leb_correct t (Nat.max (now w1) t)) by lia.
  unfold sync. change (now (set_choices cs (advance t w1))) with (now (advance t w1)).
  rewrite advance_set_choices. fold (sync (advance t w1)). rewrite advance_sync.
  destruct r as [e|]; reflexivity.
Qed.

(** C6: the function made by [Par] with no function returns nil in the
    world it was called in (no task is made or waited for); with one
    function [X] it is [Wait] on [X], and the general path through the wait
    group would answer the same error in the same world (up to the choice
    that [reflect.Select] consumes): the shortcut changes no behaviour. *)
Theorem Par_zero_one (X : TaskFunc) (w : world) :
  wf w ->
  Par [] w = Ok None w
  /\ Par [X] w = Wait X w
  /\ forget_choices (Par_group [X] w) = forget_choices (Par [X] w).
Proof.
  intros Hwf. split; [reflexivity|]. split; [reflexivity|].
  now apply Par_group_single.
Qed.

Lemma Par_zero_one_witness :
  wf example_world
  /\ Par [] example_world = Ok None example_world
  /\ Par [TaskFuncImmediateErr] example_world
     = Wait TaskFuncImmediateErr example_world
  /\ forget_choices (Par_group [TaskFuncImmediateErr] example_world)
     = forget_choices (Par [TaskFuncImmediateErr] example_world).
Proof.
  split; [apply wf_new_world|].
  apply (Par_zero_one TaskFuncImmediateErr example_world), wf_new_world.
Defined.

(* --------------------------------------------------------------------- *)
(** ** Concurrent calls of [Task]                                         *)
(* --------------------------------------------------------------------- *)

Lemma holder_others (l : bool) (cs : list caller) (i j : nat) (c cj : caller) :
  holder_ok l cs -> cs !! i = Some c -> in_critical (at_pc c) = true ->
  cs !! j = Some cj -> j <> i -> in_critical (at_pc cj) = false.
Proof.
  intros (h & _ & Hh) Hi Hc Hj Hne.
  destruct (in_critical (at_pc cj)) eqn:Hcj; [|reflexivity].
  apply (Hh i c Hi) in Hc. apply (Hh j cj Hj) in Hcj. congruence.
Qed.

Lemma holder_locked (l : bool) (cs : list caller) (i : nat) (c : caller) :
  holder_ok l cs -> cs !! i = Some c -> in_critical (at_pc c) = true -> l = true.
Proof.
  intros (h & Hl & Hh) Hi Hc. apply (Hh i c Hi) in Hc. subst h l.
  apply bool_decide_eq_true_2. eauto.
Qed.

Lemma holder_keep (l : bool) (cs : list caller) (i : nat) (c c' : caller) :
  holder_ok l cs -> cs !! i = Some c ->
  in_critical (at_pc c) = true -> in_critical (at_pc c') = true ->
  holder_ok l (<[i := c']> cs).
Proof.
  intros (h & Hl & Hh) Hi Hc Hc'. exists h. split; [exact Hl|].
  intros j cj Hj. destruct (decide (j = i)) as [->|Hne].
  - rewrite list_lookup_insert_eq in Hj by (eapply lookup_lt_Some; exact Hi).
    injection Hj as <-. rewrite Hc'. rewrite <- (Hh i c Hi). now rewrite Hc.
  - rewrite list_lookup_insert_ne in Hj by congruence. now apply Hh.
Qed.

Lemma holder_acquire (cs : list caller) (i : nat) (c c' : caller) :
  holder_ok false cs -> cs !! i = Some c ->
  in_critical (at_pc c') = true ->
  holder_ok true (<[i := c']> cs).
Proof.
  intros (h & Hl & Hh) Hi Hc'.
  assert (h = None) as ->.
  { destruct h; [|reflexivity]. symmetry in Hl.
    apply bool_decide_eq_false in Hl. destruct Hl. eauto. }
  exists (Some i). split; [symmetry; apply bool_decide_eq_true_2; eauto|].
  intros j cj Hj. destruct (decide (j = i)) as [->|Hne].
  - rewrite list_lookup_insert_eq in Hj by (eapply lookup_lt_Some; exact Hi).
    injection Hj as <-. now rewrite Hc'.
  - rewrite list_lookup_insert_ne in Hj by congruence.
    rewrite (Hh j cj Hj). split; intros H; [discriminate | congruence].
Qed.

Lemma holder_release (l : bool) (cs : list caller) (i : nat) (c c' : caller) :
  holder_ok l cs -> cs !! i = Some c ->
  in_critical (at_pc c) = true -> in_critical (at_pc c') = false ->
  holder_ok false (<[i := c']> cs).
Proof.
  intros Hok Hi Hc Hc'. exists None.
  split; [symmetry; apply bool_decide_eq_false_2; now intros [? ?]|].
  intros j cj Hj. destruct (decide (j = i)) as [->|Hne].
  - rewrite list_lookup_insert_eq in Hj by (eapply lookup_lt_Some; exact Hi).
    injection Hj as <-. rewrite Hc'. split; discriminate.
  - rewrite list_lookup_insert_ne in Hj by congruence.
    rewrite (holder_others l cs i j c cj Hok Hi Hc Hj Hne). split; discriminate.
Qed.

(** A caller outside the critical section only knows entries of the map,
    which stay. *)
Lemma caller_ok_outside (w w' : world) (c : caller) :
  (forall k p, tasks w !! k = Some p -> tasks w' !! k = Some p) ->
  in_critical (at_pc c) = false -> caller_ok w c -> caller_ok w' c.
Proof.
  intros Hgrow Hout. unfold caller_ok.
  destruct (at_pc c); try discriminate; [trivial | apply Hgrow].
Qed.

(** The callers after a step of the holder [i] in a world whose map kept
    its entries. *)
Lemma callers_ok_step (l : bool) (w w' : world) (cs : list caller) (i : nat)
      (c c' : caller) :
  holder_ok l cs -> cs !! i = Some c -> in_critical (at_pc c) = true ->
  (forall k p, tasks w !! k = Some p -> tasks w' !! k = Some p) ->
  Forall (caller_ok w) cs -> caller_ok w' c' ->
  Forall (caller_ok w') (<[i := c']> cs).
Proof.
  intros Hh Hi Hc Hgrow Hall Hc'. apply Forall_lookup. intros j cj Hj.
  destruct (decide (j = i)) as [->|Hne].
  - rewrite list_lookup_insert_eq in Hj by (eapply lookup_lt_Some; exact Hi).
    now injection Hj as <-.
  - rewrite list_lookup_insert_ne in Hj by congruence.
    apply (caller_ok_outside w); [exact Hgrow| |].
    + exact (holder_others l cs i j c cj Hh Hi Hc Hj Hne).
    + exact (proj1 (Forall_lookup _ _) Hall j cj Hj).
Qed.

(** The task objects stay accounted for when the stepping caller was not
    about to store one. *)
Lemma heap_ok_step (w : world) (cs : list caller) (i : nat) (c c' : caller) :
  cs !! i = Some c -> (forall p, at_pc c <> PcStore p) ->
  heap_ok w cs -> heap_ok w (<[i := c']> cs).
Proof.
  intros Hi Hns Hok p k Hk. destruct (Hok p k Hk) as [Hreg|(j & cj & Hj & Hat)].
  - now left.
  - right. exists j, cj. split; [|exact Hat].
    rewrite list_lookup_insert_ne; [exact Hj|].
    intros <-. rewrite Hi in Hj. injection Hj as <-. exact (Hns p Hat).
Qed.

Lemma key_of_valid (w : world) (p : ptr) (k : N) :
  key_of w p = Some k -> p < length (heap w).
Proof.
  unfold key_of. destruct (heap w !! p) eqn:H; [|discriminate].
  intros _. eapply lookup_lt_Some. exact H.
Qed.

Lemma key_of_create (w : world) (f : TaskFunc) (p : ptr) :
  key_of (taskGroup.create w f).1 p
  = if decide (p = length (heap w)) then Some (TaskFunc.id f) else key_of w p.
Proof.
  unfold key_of. simpl. destruct (decide (p = length (heap w))) as [->|Hne].
  - now rewrite lookup_app_r, Nat.sub_diag by lia.
  - destruct (decide (p < length (heap w))) as [Hlt|Hge].
    + now rewrite lookup_app_l by exact Hlt.
    + rewrite !lookup_ge_None_2; [reflexivity|lia|].
      rewrite length_app. simpl. lia.
Qed.

Lemma key_of_go_run (w : world) (created p : ptr) :
  key_of (taskGroup.go_run w created) p = key_of w p.
Proof.
  unfold key_of. simpl. rewrite list_lookup_alter.
  destruct (decide (created = p)) as [->|]; [|reflexivity].
  now destruct (heap w !! p).
Qed.

Lemma no_pending_store (l : bool) (cs : list caller) (i j : nat) (c cj : caller)
      (p : ptr) :
  holder_ok l cs -> cs !! i = Some c -> in_critical (at_pc c) = true ->
  (forall q, at_pc c <> PcStore q) ->
  cs !! j = Some cj -> at_pc cj = PcStore p -> False.
Proof.
  intros Hh Hi Hc Hns Hj Hat. destruct (decide (j = i)) as [->|Hne].
  - rewrite Hi in Hj. injection Hj as <-. exact (Hns p Hat).
  - pose proof (holder_others l cs i j c cj Hh Hi Hc Hj Hne) as Hout.
    now rewrite Hat in Hout.
Qed.

(** The invariant holds of calls that have not started on a new group. *)
Lemma calls_inv (t : nat) (cs : list nat) (beh : N -> option (nat * outcome))
      (funs : list TaskFunc) :
  conc_inv (calls t cs beh funs).
Proof.
  constructor; simpl.
  - exists None. split; [reflexivity|]. intros i c Hi.
    rewrite list_lookup_fmap in Hi.
    destruct (funs !! i); [|discriminate]. injection Hi as <-. simpl.
    split; discriminate.
  - apply Forall_fmap, Forall_true. intros f. exact I.
  - intros p q k H. unfold key_of in H. simpl in H. discriminate H.
  - intros k p H. now rewrite lookup_empty in H.
  - intros p k H. unfold key_of in H. simpl in H. discriminate H.
  - constructor.
  - intros p H. now apply elem_of_nil in H.
Qed.

(** Every statement of every caller keeps the invariant. *)
Lemma step_inv (s : conc) (i : nat) : conc_inv s -> conc_inv (step s i).
Proof.
  intros Hinv. pose proof Hinv as [Hh Hcs Hkeys Hreg Hheap Hnd Hgo].
  unfold step. destruct (callers s !! i) as [c|] eqn:Hi; [|exact Hinv].
  pose proof (proj1 (Forall_lookup _ _) Hcs i c Hi) as Hc. unfold caller_ok in Hc.
  destruct c as [f at_]. cbn [arg at_pc] in *.
  set (w := cworld s) in *. set (cs := callers s) in *.
  destruct at_ as [| | |created|created|ret|ret].
  - (* self.Lock() *)
    destruct (locked s) eqn:Hl; [exact Hinv|].
    constructor; cbn [cworld locked callers]; try assumption.
    + eapply holder_acquire; [exact Hh | exact Hi | reflexivity].
    + apply Forall_insert; [exact Hcs | exact I].
    + eapply heap_ok_step; [exact Hi | discriminate | exact Hheap].
  - (* existing := self.tasks[id] *)
    destruct (taskGroup.lookup w (TaskFunc.id f)) as [existing|] eqn:Hlook;
      unfold taskGroup.lookup in Hlook;
      constructor; cbn [cworld locked callers]; try assumption.
    + eapply holder_keep; [exact Hh | exact Hi | reflexivity | reflexivity].
    + apply Forall_insert; [exact Hcs | exact Hlook].
    + eapply heap_ok_step; [exact Hi | discriminate | exact Hheap].
    + eapply holder_keep; [exact Hh | exact Hi | reflexivity | reflexivity].
    + apply Forall_insert; [exact Hcs|]. unfold caller_ok. cbn [arg at_pc].
      split; [exact Hlook|]. intros p Hp.
      destruct (Hheap p _ Hp) as [Hr|(j & cj & Hj & Hat)]; [congruence|].
      eapply (no_pending_store _ _ i j); try eassumption; [reflexivity | discriminate].
    + eapply heap_ok_step; [exact Hi | discriminate | exact Hheap].
  - (* created := newTask(...) *)
    destruct Hc as [Hnone Hnokey].
    change (conc_inv (Conc (taskGroup.create w f).1 (locked s)
                           (<[i := Caller f (PcStore (length (heap w)))]> cs))).
    constructor; cbn [cworld locked callers].
    + eapply holder_keep; [exact Hh | exact Hi | reflexivity | reflexivity].
    + eapply callers_ok_step; [exact Hh | exact Hi | reflexivity | | exact Hcs |].
      * intros k p H. exact H.
      * unfold caller_ok. cbn [arg at_pc]. split; [exact Hnone|]. split.
        -- rewrite key_of_create. now rewrite decide_True.
        -- intros Hin. destruct (Hgo _ Hin) as [k Hk].
           apply Hreg, key_of_valid in Hk. lia.
    + intros p q k. rewrite !key_of_create.
      destruct (decide (p = length (heap w))) as [->|Hp],
               (decide (q = length (heap w))) as [->|Hq]; intros H1 H2.
      * reflexivity.
      * injection H1 as <-. now destruct (Hnokey q).
      * injection H2 as <-. now destruct (Hnokey p).
      * exact (Hkeys p q k H1 H2).
    + intros k p Hk. rewrite key_of_create. apply Hreg in Hk.
      rewrite decide_False; [exact Hk|]. apply key_of_valid in Hk. lia.
    + intros p k. rewrite key_of_create.
      destruct (decide (p = length (heap w))) as [->|Hp]; intros Hk.
      * right. exists i, (Caller f (PcStore (length (heap w)))).
        split; [|reflexivity].
        apply list_lookup_insert_eq. eapply lookup_lt_Some. exact Hi.
      * destruct (Hheap p k Hk) as [Hr|(j & cj & Hj & Hat)]; [now left|].
        exfalso. eapply (no_pending_store _ _ i j); try eassumption;
          [reflexivity | discriminate].
    + exact Hnd.
    + exact Hgo.
  - (* self.tasks[id] = created *)
    destruct Hc as (Hnone & Hkey & Hnot).
    assert (Hgrow : forall k p, tasks w !! k = Some p ->
                      tasks (taskGroup.store w (TaskFunc.id f) created) !! k = Some p).
    { intros k p H. cbn [taskGroup.store tasks].
      rewrite lookup_insert_ne; [exact H | congruence]. }
    constructor; cbn [cworld locked callers].
    + eapply holder_keep; [exact Hh | exact Hi | reflexivity | reflexivity].
    + eapply callers_ok_step; [exact Hh | exact Hi | reflexivity | exact Hgrow
                              | exact Hcs |].
      unfold caller_ok. cbn [arg at_pc]. split; [|exact Hnot].
      cbn [taskGroup.store tasks]. apply lookup_insert_eq.
    + exact Hkeys.
    + intros k p. cbn [taskGroup.store tasks].
      destruct (decide (TaskFunc.id f = k)) as [<-|Hne].
      * rewrite lookup_insert_eq. intros [= <-]. exact Hkey.
      * rewrite lookup_insert_ne by exact Hne. apply Hreg.
    + intros p k Hk. change (key_of w p = Some k) in Hk.
      destruct (Hheap p k Hk) as [Hr|(j & cj & Hj & Hat)]; [left; now apply Hgrow|].
      left. destruct (decide (j = i)) as [->|Hne].
      * rewrite Hi in Hj. injection Hj as <-. cbn [at_pc] in Hat.
        injection Hat as <-. rewrite Hkey in Hk. injection Hk as <-.
        cbn [taskGroup.store tasks]. apply lookup_insert_eq.
      * pose proof (holder_others _ _ i j _ cj Hh Hi eq_refl Hj Hne) as Hout.
        now rewrite Hat in Hout.
    + exact Hnd.
    + intros p Hin. destruct (Hgo p Hin) as [k Hk]. exists k. now apply Hgrow.
  - (* go created.run() *)
    destruct Hc as [Hsome Hnot].
    constructor; cbn [cworld locked callers].
    + eapply holder_keep; [exact Hh | exact Hi | reflexivity | reflexivity].
    + eapply callers_ok_step; [exact Hh | exact Hi | reflexivity | | exact Hcs |].
      * intros k p H. exact H.
      * exact Hsome.
    + intros p q k. rewrite !key_of_go_run. apply Hkeys.
    + intros k p Hk. rewrite key_of_go_run. now apply Hreg.
    + intros p k. rewrite key_of_go_run. intros Hk.
      destruct (Hheap p k Hk) as [Hr|(j & cj & Hj & Hat)]; [now left|].
      exfalso. eapply (no_pending_store _ _ i j); try eassumption;
        [reflexivity | discriminate].
    + cbn [taskGroup.go_run goroutines]. apply NoDup_app.
      split; [exact Hnd|]. split; [|apply NoDup_singleton].
      intros x Hx Hx'. apply list_elem_of_singleton in Hx'. now subst x.
    + intros p. cbn [taskGroup.go_run goroutines tasks]. rewrite elem_of_app.
      intros [Hin|Hin]; [now apply Hgo|].
      apply list_elem_of_singleton in Hin. subst p. now exists (TaskFunc.id f).
  - (* the deferred self.Unlock() *)
    constructor; cbn [cworld locked callers]; try assumption.
    + eapply holder_release; [exact Hh | exact Hi | reflexivity | reflexivity].
    + apply Forall_insert; [exact Hcs | exact Hc].
    + eapply heap_ok_step; [exact Hi | discriminate | exact Hheap].
  - exact Hinv.
Qed.

Lemma run_schedule_inv (schedule : list nat) (s : conc) :
  conc_inv s -> conc_inv (run_schedule s schedule).
Proof.
  revert s. induction schedule as [|i schedule IH]; intros s Hs; [exact Hs|].
  simpl. apply IH. now apply step_inv.
Qed.

Lemma step_args (s : conc) (i : nat) :
  arg <$> callers (step s i) = arg <$> callers s.
Proof.
  unfold step. destruct (callers s !! i) as [c|] eqn:Hi; [|reflexivity].
  assert (Hins : forall next,
             arg <$> <[i := Caller (arg c) next]> (callers s) = arg <$> callers s).
  { intros next. rewrite list_fmap_insert. apply list_insert_id.
    now rewrite list_lookup_fmap, Hi. }
  destruct (at_pc c); cbn [callers];
    repeat match goal with
           | |- context [if ?b then _ else _] => destruct b
           | |- context [match taskGroup.lookup ?w ?k with _ => _ end] =>
               destruct (taskGroup.lookup w k)
           end; cbn [callers]; try reflexivity; apply Hins.
Qed.

Lemma run_schedule_args (schedule : list nat) (s : conc) :
  arg <$> callers (run_schedule s schedule) = arg <$> callers s.
Proof.
  revert s. induction schedule as [|i schedule IH]; intros s; [reflexivity|].
  simpl. now rewrite IH, step_args.
Qed.




Lemma step_at (w : world) (l : bool) (cs : list caller) (i : nat) (f : TaskFunc)
      (at_ : pc) :
  i < length cs ->
  step (Conc w l (<[i := Caller f at_]> cs)) i
  = match at_ with
    | PcLock =>
        if l then Conc w l (<[i := Caller f PcLock]> cs)
        else Conc w true (<[i := Caller f PcLookup]> cs)
    | PcLookup =>
        match tasks w !! TaskFunc.id f with
        | Some existing => Conc w l (<[i := Caller f (PcUnlock existing)]> cs)
        | None => Conc w l (<[i := Caller f PcCreate]> cs)
        end
    | PcCreate =>
        Conc (taskGroup.create w f).1 l
             (<[i := Caller f (PcStore (length (heap w)))]> cs)
    | PcStore created =>
        Conc (taskGroup.store w (TaskFunc.id f) created) l
             (<[i := Caller f (PcGo created)]> cs)
    | PcGo created =>
        Conc (taskGroup.go_run w created) l (<[i := Caller f (PcUnlock created)]> cs)
    | PcUnlock ret => Conc w false (<[i := Caller f (PcReturned ret)]> cs)
    | PcReturned ret => Conc w l (<[i := Caller f (PcReturned ret)]> cs)
    end.
Proof.
  intros Hlt. unfold step. cbn [callers cworld locked].
  rewrite list_lookup_insert_eq by exact Hlt. cbn [arg at_pc].
  destruct at_; rewrite ?list_insert_insert_eq; try reflexivity.
  - unfold taskGroup.lookup.
    destruct (tasks w !! TaskFunc.id f); now rewrite ?list_insert_insert_eq.
  - unfold taskGroup.create. cbn [fst]. now rewrite list_insert_insert_eq.
Qed.

(** X19: the six statements of one call of [Task], run without
    interruption from an unlocked group, do what the one-step
    [taskGroup.Task] does, whatever the other callers of the group are at:
    the call returns the task that the one-step call returns, in the same
    world, and leaves the mutex unlocked. *)
Lemma Task_critical_section (w : world) (cs : list caller) (i : nat) (f : TaskFunc) :
  cs !! i = Some (Caller f PcLock) ->
  exists (p : ptr) (w' : world),
    taskGroup.Task f w = Ok p w'
    /\ run_schedule (Conc w false cs) [i; i; i; i; i; i]
       = Conc w' false (<[i := Caller f (PcReturned p)]> cs).
Proof.
  intros Hi. pose proof (lookup_lt_Some _ _ _ Hi) as Hlt.
  replace (Conc w false cs) with (Conc w false (<[i := Caller f PcLock]> cs))
    by now rewrite list_insert_id.
  unfold run_schedule, taskGroup.Task, taskGroup.lookup. cbn [fold_left].
  rewrite (step_at w false cs i f PcLock Hlt).
  rewrite (step_at w true cs i f PcLookup Hlt).
  destruct (tasks w !! TaskFunc.id f) as [existing|] eqn:Hk.
  - exists existing, w. split; [reflexivity|].
    rewrite (step_at w true cs i f (PcUnlock existing) Hlt).
    now rewrite !(step_at w false cs i f (PcReturned existing) Hlt).
  - eexists _, _. split; [reflexivity|].
    rewrite (step_at w true cs i f PcCreate Hlt).
    rewrite (step_at _ true cs i f (PcStore _) Hlt).
    rewrite (step_at _ true cs i f (PcGo _) Hlt).
    now rewrite (step_at _ true cs i f (PcUnlock _) Hlt).
Qed.

Lemma Task_critical_section_witness :
  [Caller TaskFuncImmediateErr PcLock; Caller TaskFuncNop0 PcLock] !! 1
  = Some (Caller TaskFuncNop0 PcLock)
  /\ exists (p : ptr) (w' : world),
       taskGroup.Task TaskFuncNop0 example_world = Ok p w'
       /\ run_schedule
            (Conc example_world false
                  [Caller TaskFuncImmediateErr PcLock; Caller TaskFuncNop0 PcLock])
            [1; 1; 1; 1; 1; 1]
          = Conc w' false
                 (<[1 := Caller TaskFuncNop0 (PcReturned p)]>
                    [Caller TaskFuncImmediateErr PcLock; Caller TaskFuncNop0 PcLock]).
Proof.
  split; [reflexivity|].
  exact (Task_critical_section example_world
           [Caller TaskFuncImmediateErr PcLock; Caller TaskFuncNop0 PcLock]
           1 TaskFuncNop0 eq_refl).
Defined.

(** Three calls under one schedule: the two calls for [TaskFuncNop0] come
    back with the same task, the heap holds two task objects, and each was
    started once. *)
Example interleaved_calls :
  let s := run_schedule
             (calls 0 [] example_behaviour
                    [TaskFuncNop0; TaskFuncNop0; TaskFuncImmediateErr])
             [0; 1; 0; 2; 0; 1; 0; 0; 2; 0; 1; 2; 1; 1; 2; 2; 2; 2; 2; 1; 2] in
  at_pc <$> callers s = [PcReturned 0; PcReturned 0; PcReturned 1]
  /\ goroutines (cworld s) = [0; 1]
  /\ length (heap (cworld s)) = 2
  /\ locked s = false.
Proof. vm_compute. repeat split. Qed.

(* ===================================================================== *)
(** * Part III: further properties of the package                         *)
(* ===================================================================== *)

(* --------------------------------------------------------------------- *)
(** ** Names: [funcShortName], [EqualFold], [byTaskName]                  *)
(* --------------------------------------------------------------------- *)

Lemma prefix_dot (s : string) :
  String.prefix "." s = match s with
                        | String c _ => bool_decide (c = "."%char)
                        | EmptyString => false
                        end.
Proof.
  destruct s as [|c s]; [reflexivity|].
  change (String.prefix "." (String c s))
    with (if ascii_dec "." c then String.prefix EmptyString s else false).
  destruct (ascii_dec "." c) as [<-|Hne].
  - rewrite bool_decide_eq_true_2 by reflexivity. now destruct s.
  - rewrite bool_decide_eq_false_2 by congruence. reflexivity.
Qed.

Lemma string_length_append (a b : string) :
  String.length (a +:+ b) = String.length a + String.length b.
Proof. induction a as [|x a IH]; [reflexivity|]. rewrite append_cons. simpl. now rewrite IH. Qed.

Lemma string_drop_append (a b : string) :
  string_drop (String.length a) (a +:+ b) = b.
Proof. induction a as [|x a IH]; [now destruct b|]. rewrite append_cons. exact IH. Qed.

(** The scan of [strings.LastIndex(s, ".")]: either [s] has no dot and the
    answer is [found], or it is the offset of a dot with no dot after it. *)
Lemma LastIndex_dot (s : string) (pos found : Z) :
  (Contains s "." = false /\ LastIndex_from s "." pos found = found)
  \/ exists pre post : string,
       s = pre +:+ "." +:+ post
       /\ Contains post "." = false
       /\ LastIndex_from s "." pos found = (pos + Z.of_nat (String.length pre))%Z.
Proof.
  revert pos found. induction s as [|c s IH]; intros pos found.
  - left. split; reflexivity.
  - cbn [LastIndex_from]. rewrite prefix_dot.
    destruct (IH (pos + 1)%Z (if bool_decide (c = "."%char) then pos else found))
      as [[Hno Hr]|(pre & post & -> & Hno & Hr)].
    + case_bool_decide as Hc.
      * right. exists EmptyString, s. subst c. split; [reflexivity|].
        split; [exact Hno|]. rewrite Hr. simpl. lia.
      * left. split; [|exact Hr]. rewrite Contains_unfold, prefix_dot.
        now rewrite bool_decide_eq_false_2.
    + right. exists (String c pre), post. split; [reflexivity|].
      split; [exact Hno|]. rewrite Hr. cbn [String.length]. lia.
Qed.

(** X1: the short name that [funcShortName] answers holds no dot, and the
    name is the short name itself (when the name has no dot) or ends with a
    dot and the short name. *)
Theorem funcShortName_after_last_dot (name : string) :
  Contains (funcShortName name) "." = false
  /\ ((Contains name "." = false /\ funcShortName name = name)
      \/ exists pre : string, name = pre +:+ "." +:+ funcShortName name).
Proof.
  unfold funcShortName, LastIndex.
  destruct (LastIndex_dot name 0 (-1)) as [[Hno ->]|(pre & post & -> & Hno & ->)].
  - simpl. split; [exact Hno|]. left. now split.
  - rewrite (proj2 (Z.geb_le _ _)) by lia.
    replace (Z.to_nat (0 + Z.of_nat (String.length pre) + 1))
      with (String.length (pre +:+ ".")) by (rewrite string_length_append; simpl; lia).
    rewrite <- (append_assoc pre "." post), string_drop_append.
    split; [exact Hno|]. right. exists pre. now rewrite append_assoc.
Qed.

Lemma EqualFold_refl (s : string) : EqualFold s s = true.
Proof. induction s as [|a s IH]; [reflexivity|]. simpl. now rewrite Ascii.eqb_refl, IH. Qed.

Lemma EqualFold_sym (s t : string) : EqualFold s t = EqualFold t s.
Proof.
  revert t. induction s as [|a s IH]; intros [|b t]; try reflexivity.
  simpl. now rewrite IH, Ascii.eqb_sym.
Qed.

Lemma EqualFold_trans (s t u : string) :
  EqualFold s t = true -> EqualFold t u = true -> EqualFold s u = true.
Proof.
  revert t u. induction s as [|a s IH]; intros [|b t] [|c u]; simpl; try discriminate;
    try reflexivity.
  rewrite !andb_true_iff, !Ascii.eqb_eq. intros [Hab Hst] [Hbc Htu].
  split; [congruence | eapply IH; eassumption].
Qed.

Lemma EqualFold_same (s s' t : string) :
  EqualFold s s' = true -> EqualFold s t = EqualFold s' t.
Proof.
  intros H. destruct (EqualFold s' t) eqn:H'.
  - eapply EqualFold_trans; eassumption.
  - destruct (EqualFold s t) eqn:H''; [|reflexivity].
    rewrite EqualFold_sym in H.
    now rewrite (EqualFold_trans _ _ _ H H'') in H'.
Qed.

(** X2: among functions with ASCII names, the lookup by an ASCII name does
    not see the case of the name: two names that fold to each other find the
    same function, or both none. *)
Theorem byTaskName_ignores_case (self : taskFuncs.t) (name name' : string) :
  ascii_names self -> is_ascii name = true -> is_ascii name' = true ->
  EqualFold name name' = true ->
  taskFuncs.byTaskName self name = taskFuncs.byTaskName self name'
  /\ taskFuncs.hasTaskName self name = taskFuncs.hasTaskName self name'.
Proof.
  intros _ _ _ H.
  assert (Heq : taskFuncs.byTaskName self name = taskFuncs.byTaskName self name').
  { induction self as [|v self IH]; [reflexivity|]. simpl.
    unfold equalTaskName. rewrite (EqualFold_same name name' _ H).
    now destruct (EqualFold name' (ShortName v)). }
  split; [exact Heq|]. unfold taskFuncs.hasTaskName. now rewrite Heq.
Qed.

Lemma ascii_site_funs : ascii_names site_funs.
Proof. unfold ascii_names, site_funs. repeat constructor. Qed.

Lemma byTaskName_ignores_case_witness :
  ascii_names site_funs
  /\ is_ascii "BUILD" = true /\ is_ascii "build" = true
  /\ EqualFold "BUILD" "build" = true
  /\ taskFuncs.byTaskName site_funs "BUILD" = taskFuncs.byTaskName site_funs "build"
  /\ taskFuncs.byTaskName site_funs "BUILD" = site_build.
Proof.
  split; [exact ascii_site_funs|]. split; [reflexivity|]. split; [reflexivity|].
  split; [reflexivity|].
  split; [exact (proj1 (byTaskName_ignores_case site_funs "BUILD" "build"
                          ascii_site_funs eq_refl eq_refl eq_refl))|].
  reflexivity.
Defined.

(* --------------------------------------------------------------------- *)
(** ** [dedup] and [Choose]                                               *)
(* --------------------------------------------------------------------- *)

Lemma hasTaskName_false (self : taskFuncs.t) (name : string) (f : TaskFunc) :
  Forall (fun g : TaskFunc => g <> None) self ->
  taskFuncs.hasTaskName self name = false ->
  In f self -> equalTaskName f name = false.
Proof.
  unfold taskFuncs.hasTaskName.
  induction self as [|v self IH]; intros Hall Hno Hin; [contradiction|].
  apply Forall_cons in Hall as [Hv Hall]. cbn [taskFuncs.byTaskName] in Hno.
  destruct (equalTaskName v name) eqn:Hv'.
  - destruct v; [discriminate | contradiction].
  - destruct Hin as [<-|Hin]; [exact Hv' | now apply IH].
Qed.

Lemma hasTask_false (self : taskFuncs.t) (val f : TaskFunc) :
  taskFuncs.hasTask self val = false -> In f self -> equalTask f val = false.
Proof.
  induction self as [|v self IH]; intros Hno Hin; [contradiction|].
  cbn [taskFuncs.hasTask] in Hno. destruct (equalTask v val) eqn:Hv; [discriminate|].
  destruct Hin as [<-|Hin]; [exact Hv | now apply IH].
Qed.

Lemma deduplicated_all (l : taskFuncs.t) :
  deduplicated l ->
  Forall (fun f : TaskFunc => f <> None /\ ShortName f <> EmptyString) l.
Proof.
  intros Hd. apply Forall_forall. intros f Hin.
  apply list_elem_of_In, in_split in Hin as (before & after & ->).
  destruct (Hd before f after eq_refl) as (H1 & H2 & _). now split.
Qed.

Lemma deduplicated_prefix (l1 l2 : taskFuncs.t) :
  deduplicated (l1 ++ l2) -> deduplicated l1.
Proof.
  intros Hd before val after ->. apply (Hd before val (after ++ l2)).
  now rewrite <- app_assoc.
Qed.

(** Two elements of a deduplicated slice differ in identity and in folded
    short name. *)
Lemma deduplicated_distinct (l : taskFuncs.t) (i j : nat) (f g : TaskFunc) :
  deduplicated l -> i < j -> l !! i = Some f -> l !! j = Some g ->
  TaskFunc.id f <> TaskFunc.id g
  /\ EqualFold (ShortName f) (ShortName g) = false.
Proof.
  intros Hd Hlt Hi Hj.
  pose proof (take_drop_middle l j g Hj) as Hsplit.
  assert (Hin : In f (take j l)).
  { apply list_elem_of_In, list_elem_of_lookup. exists i.
    now rewrite lookup_take_lt. }
  destruct (Hd (take j l) g (drop (S j) l) (eq_sym Hsplit)) as (_ & _ & Hname & Htask).
  assert (Hall : Forall (fun h : TaskFunc => h <> None) (take j l)).
  { rewrite <- Hsplit in Hd. apply deduplicated_prefix, deduplicated_all in Hd.
    eapply Forall_impl; [exact Hd|]. now intros h [Hh _]. }
  pose proof (hasTaskName_false _ _ f Hall Hname Hin) as Hn.
  pose proof (hasTask_false _ _ f Htask Hin) as Ht.
  unfold equalTask, equal in Ht. apply orb_false_iff in Ht as [Ht _].
  apply N.eqb_neq in Ht. split; [exact Ht|].
  unfold equalTaskName in Hn. now rewrite EqualFold_sym.
Qed.

(** X3: on functions with ASCII names, [dedup] answers the slice it was
    given, or no slice and an error. When it answers the slice, no function
    in it is nil or without a name, and no two of them share an identity or
    a short name up to case. *)
Theorem dedup_all_or_nothing (funs : list TaskFunc) :
  ascii_names funs ->
  match dedup funs with
  | (known, None) =>
      known = funs
      /\ Forall (fun f : TaskFunc => f <> None /\ ShortName f <> EmptyString) funs
      /\ forall (i j : nat) (f g : TaskFunc),
           i < j -> funs !! i = Some f -> funs !! j = Some g ->
           TaskFunc.id f <> TaskFunc.id g
           /\ EqualFold (ShortName f) (ShortName g) = false
  | (known, Some _) => known = []
  end.
Proof.
  intros _. destruct (dedup funs) as [known [e|]] eqn:Hd.
  - unfold dedup in Hd. revert Hd. generalize (@nil TaskFunc) at 1.
    induction funs as [|f funs IH]; intros out Hd; cbn [dedup_from] in Hd;
      [discriminate|].
    destruct (taskFuncs.add out f) as [out' [e'|]]; [now injection Hd as <- _|].
    exact (IH _ Hd).
  - apply dedup_ok in Hd as [-> Hd]. split; [reflexivity|].
    split; [now apply deduplicated_all|].
    intros i j f g. now apply deduplicated_distinct.
Qed.

Lemma dedup_all_or_nothing_witness :
  ascii_names site_funs
  /\ match dedup site_funs with
     | (known, None) =>
         known = site_funs
         /\ Forall (fun f : TaskFunc => f <> None /\ ShortName f <> EmptyString)
                   site_funs
         /\ forall (i j : nat) (f g : TaskFunc),
              i < j -> site_funs !! i = Some f -> site_funs !! j = Some g ->
              TaskFunc.id f <> TaskFunc.id g
              /\ EqualFold (ShortName f) (ShortName g) = false
     | (known, Some _) => known = []
     end.
Proof.
  split; [exact ascii_site_funs|].
  exact (dedup_all_or_nothing site_funs ascii_site_funs).
Defined.

Lemma byTaskName_skip (l1 l2 : taskFuncs.t) (name : string) :
  (forall g, In g l1 -> equalTaskName g name = false) ->
  taskFuncs.byTaskName (l1 ++ l2) name = taskFuncs.byTaskName l2 name.
Proof.
  induction l1 as [|v l1 IH]; intros Hno; [reflexivity|]. simpl.
  rewrite (Hno v (or_introl eq_refl)). apply IH. intros g Hg. apply Hno. now right.
Qed.

(** In a slice that passed [dedup], the lookup by a name that folds to the
    short name of an element finds that element. *)
Lemma byTaskName_finds (funs : list TaskFunc) (f : TaskFunc) (name : string) :
  deduplicated funs -> In f funs -> EqualFold name (ShortName f) = true ->
  taskFuncs.byTaskName funs name = f.
Proof.
  intros Hd Hin Hname.
  apply in_split in Hin as (before & after & ->).
  destruct (Hd before f after eq_refl) as (_ & _ & Hno & _).
  assert (Hall : Forall (fun h : TaskFunc => h <> None) before).
  { apply deduplicated_prefix, deduplicated_all in Hd.
    eapply Forall_impl; [exact Hd|]. now intros h [Hh _]. }
  rewrite byTaskName_skip.
  - cbn [taskFuncs.byTaskName]. unfold equalTaskName. now rewrite Hname.
  - intros g Hg. pose proof (hasTaskName_false _ _ g Hall Hno Hg) as H.
    unfold equalTaskName in *. now rewrite (EqualFold_same name _ _ Hname).
Qed.

(** X4: after [dedup] accepted candidates with ASCII names, each of them is
    found by its own short name, whatever the case the ASCII name is given
    in. *)
Theorem byTaskName_round_trip (funs : list TaskFunc) (f : TaskFunc) (name : string) :
  ascii_names funs -> is_ascii name = true ->
  snd (dedup funs) = None -> In f funs -> EqualFold name (ShortName f) = true ->
  taskFuncs.byTaskName funs name = f
  /\ taskFuncs.byTaskName funs (ShortName f) = f.
Proof.
  intros _ _ Hd Hin Hname. destruct (dedup funs) as [known e] eqn:Hdd.
  simpl in Hd. subst e. apply dedup_ok in Hdd as [_ Hded].
  split; apply byTaskName_finds; try assumption. apply EqualFold_refl.
Qed.

Lemma byTaskName_round_trip_witness :
  ascii_names site_funs
  /\ is_ascii "TemplatesW" = true
  /\ snd (dedup site_funs) = None
  /\ In site_templatesW site_funs
  /\ EqualFold "TemplatesW" (ShortName site_templatesW) = true
  /\ taskFuncs.byTaskName site_funs "TemplatesW" = site_templatesW.
Proof.
  split; [exact ascii_site_funs|]. split; [reflexivity|].
  split; [reflexivity|]. split; [simpl; tauto|]. split; [reflexivity|].
  apply (byTaskName_round_trip site_funs site_templatesW "TemplatesW");
    [exact ascii_site_funs | reflexivity | reflexivity | simpl; tauto | reflexivity].
Defined.

(** X5: on ASCII names and candidates with ASCII names, [Choose] answers a
    function exactly when [dedup] accepts the candidates and one single name
    is given that the lookup finds; the function is the one found. In every
    other case it answers an error and no function. *)
Theorem Choose_selects_iff (names : list string) (funs : list TaskFunc)
        (f : TaskFunc.func) :
  ascii_names funs -> Forall (fun name => is_ascii name = true) names ->
  (Choose names funs = (Some f, None)
   <-> snd (dedup funs) = None
       /\ exists name : string,
            names = [name] /\ taskFuncs.byTaskName funs name = Some f)
  /\ ((forall g : TaskFunc.func, Choose names funs <> (Some g, None))
      -> exists e : error, Choose names funs = (None, Some e)).
Proof.
  intros _ _. split.
  - split.
    + intros HC. pose proof HC as HC'. apply Choose_ok in HC' as (_ & name & -> & _ & _ & Hby & _).
      split; [|now exists name].
      unfold Choose in HC. now destruct (dedup funs) as [known [e|]].
    + intros (Hd & name & -> & Hby). unfold Choose.
      destruct (dedup funs) as [known e] eqn:Hdd. simpl in Hd. subst e.
      apply dedup_ok in Hdd as [-> Hded].
      cbn [choose_loop]. rewrite Hby.
      destruct (byTaskName_Some _ _ _ Hby) as [Hin _].
      pose proof (proj1 (Forall_forall _ _) (deduplicated_all _ Hded) (Some f)
                    (proj2 (list_elem_of_In _ _) Hin)) as [_ Hnamed].
      unfold taskFuncs.add. rewrite bool_decide_eq_false_2 by exact Hnamed.
      reflexivity.
  - intros Hno. destruct (Choose_total names funs) as [[g Hg]|He]; [|exact He].
    now destruct (Hno g).
Qed.

Lemma Choose_selects_iff_witness :
  ascii_names site_funs
  /\ Forall (fun name => is_ascii name = true) ["Styles"]
  /\ Choose ["Styles"] site_funs = (site_styles, None).
Proof.
  assert (Hn : Forall (fun name => is_ascii name = true) ["Styles"])
    by (repeat constructor).
  split; [exact ascii_site_funs|]. split; [exact Hn|].
  apply (proj1 (Choose_selects_iff ["Styles"] site_funs
                  (TaskFunc.Func 4260032 4260032 "main.styles")
                  ascii_site_funs Hn)).
  split; [reflexivity|]. exists "Styles". split; reflexivity.
Defined.

(* --------------------------------------------------------------------- *)
(** ** The error chain through [finalize], [Wait] and [Must]              *)
(* --------------------------------------------------------------------- *)

Lemma errors_Is_refl (e : error) : errors_Is e e = true.
Proof. destruct e; simpl; now rewrite bool_decide_eq_true_2. Qed.

Lemma errors_Is_wrap (msg : string) (cause target : error) :
  errors_Is cause target = true -> errors_Is (wrapError msg cause) target = true.
Proof. intros H. simpl. now destruct (bool_decide _). Qed.

(** X6: whatever [errors.Is] finds in the error that a task function returns
    or panics with, it still finds in the result of the task: [finalize]
    wraps and never replaces the chain. *)
Theorem result_keeps_chain (fun_ : TaskFunc) (e target : error) :
  errors_Is e target = true ->
  (exists r : error,
     outcome_result fun_ (Returned (Some e)) = Some r
     /\ errors_Is r target = true)
  /\ exists r : error,
       outcome_result fun_ (Panicked (payloadError e)) = Some r
       /\ errors_Is r target = true.
Proof.
  intros H. split; eexists; (split; [reflexivity|]); now apply errors_Is_wrap.
Qed.

Lemma result_keeps_chain_witness :
  errors_Is (wrapError "read config: immediate error" immediate_error)
            immediate_error = true
  /\ exists r : error,
       outcome_result TaskFuncImmediateErr
         (Returned (Some (wrapError "read config: immediate error" immediate_error)))
       = Some r
       /\ errors_Is r immediate_error = true.
Proof.
  split; [reflexivity|].
  exact (proj1 (result_keeps_chain TaskFuncImmediateErr
                  (wrapError "read config: immediate error" immediate_error)
                  immediate_error eq_refl)).
Defined.

(** What [Wait] answers when the function ends: the result that [run]
    records for a function of that identity. *)
Lemma Wait_result (w w' : world) (f : TaskFunc) (r : option error) :
  wf w -> Wait f w = Ok r w' ->
  exists (f' : TaskFunc) (d : nat) (o : outcome),
    TaskFunc.id f' = TaskFunc.id f
    /\ behaviour w (TaskFunc.id f) = Some (d, o)
    /\ r = outcome_result f' o.
Proof.
  intros Hwf HW.
  destruct (Task_spec w f Hwf) as (p & w0 & HT & Hwf0 & Hk & _ & _).
  destruct (Task_behaviour _ _ _ _ HT) as [Hb _].
  destruct (fate_registered w0 _ p Hwf0 Hk) as [Hv (f' & t0 & Hid & Hfate)].
  unfold Wait, bind in HW. rewrite HT, (waitFor_spec w0 p Hwf0 Hv), Hfate, Hb in HW.
  destruct (behaviour w (TaskFunc.id f)) as [[d o]|]; [|discriminate].
  simpl in HW. injection HW as <- _. now exists f', d, o.
Qed.

(** X7: [MustWait] returns when [Wait] answers nil and panics with the very
    error that [Wait] answers otherwise. When the awaited function returned
    the error [e0], the task whose function panics that way gets a result
    that names it and in which [errors.Is] still finds [e0]. *)
Theorem MustWait_panic_keeps_cause (caller_fun D : TaskFunc) (w : world)
        (d : nat) (e0 : error) :
  wf w -> behaviour w (TaskFunc.id D) = Some (d, Returned (Some e0)) ->
  exists (e : error) (w' : world),
    Wait D w = Ok (Some e) w'
    /\ MustWait D w = Ok (Some (payloadError e)) w'
    /\ exists r : error,
         outcome_result caller_fun (Panicked (payloadError e)) = Some r
         /\ Unwrap r = Some e
         /\ errors_Is r e0 = true
         /\ Contains (Error r) (ShortName caller_fun) = true.
Proof.
  intros Hwf Hb.
  destruct (Task_spec w D Hwf) as (p & w0 & HT & Hwf0 & Hk & _ & _).
  destruct (Task_behaviour _ _ _ _ HT) as [Hb0 _].
  destruct (fate_registered w0 _ p Hwf0 Hk) as [Hv (f' & t0 & Hid & Hfate)].
  rewrite Hb0, Hb in Hfate. simpl in Hfate.
  assert (HW : Wait D w = Ok (Some (finished_with f' e0)) (advance (t0 + d) w0)).
  { unfold Wait, bind. now rewrite HT, (waitFor_spec w0 p Hwf0 Hv), Hfate. }
  exists (finished_with f' e0), (advance (t0 + d) w0).
  split; [exact HW|]. split; [unfold MustWait, bind; now rewrite HW|].
  eexists. split; [reflexivity|]. cbn [Unwrap Error]. split; [reflexivity|].
  split; [|apply Contains_quoted].
  apply errors_Is_wrap. unfold finished_with. apply errors_Is_wrap, errors_Is_refl.
Qed.

Lemma MustWait_panic_keeps_cause_witness :
  wf example_world
  /\ behaviour example_world (TaskFunc.id TaskFuncImmediateErr)
     = Some (3, Returned (Some immediate_error))
  /\ exists (e : error) (w' : world),
       MustWait TaskFuncImmediateErr example_world = Ok (Some (payloadError e)) w'
       /\ exists r : error,
            outcome_result site_build (Panicked (payloadError e)) = Some r
            /\ errors_Is r immediate_error = true.
Proof.
  split; [apply wf_new_world|]. split; [reflexivity|].
  destruct (MustWait_panic_keeps_cause site_build TaskFuncImmediateErr example_world
              3 immediate_error (wf_new_world _ _ _) eq_refl)
    as (e & w' & _ & HM & r & Hr & _ & His & _).
  exists e, w'. split; [exact HM|]. exists r. now split.
Defined.

(** [Must] returns for nil and panics with the error otherwise. *)
Lemma Must_spec (err : option error) :
  Must err = None <-> err = None.
Proof. destruct err; simpl; split; intros H; congruence. Qed.

(* --------------------------------------------------------------------- *)
(** ** What the statements of a wait leave in place                       *)
(* --------------------------------------------------------------------- *)

Lemma frame_refl (w : world) : frame w w.
Proof. unfold frame. now repeat split. Qed.

Lemma frame_trans (w1 w2 w3 : world) : frame w1 w2 -> frame w2 w3 -> frame w1 w3.
Proof.
  intros (Ht & Hg & Hl & Hb & Hn & Hf & Hd) (Ht' & Hg' & Hl' & Hb' & Hn' & Hf' & Hd').
  unfold frame. split; [congruence|]. split; [congruence|]. split; [congruence|].
  split; [congruence|]. split; [lia|]. split.
  - intros p. now rewrite Hf', Hf.
  - intros p c Hc Hdone. apply Hd'; [now apply Hd | exact Hdone].
Qed.

Lemma frame_advance (T : nat) (w : world) : frame w (advance T w).
Proof.
  unfold frame. simpl. repeat split; try lia.
  - intros p. apply fate_advance.
  - intros p c Hc Hdone. rewrite list_lookup_fmap, Hc. simpl.
    now rewrite complete_done_stable.
Qed.

Lemma frame_set_choices (cs : list nat) (w : world) : frame w (set_choices cs w).
Proof. unfold frame. now repeat split. Qed.

Lemma pick_world (rdy : list nat) (w w' : world) (i : nat) :
  pick rdy w = Ok i w' -> exists cs : list nat, w' = set_choices cs w.
Proof.
  unfold pick. destruct rdy as [|first rdy]; [discriminate|].
  destruct (choices w) as [|c rest] eqn:Hc; intros [= _ <-].
  - exists (choices w). now rewrite set_choices_same.
  - now exists rest.
Qed.

Lemma Select_frame (cases : list SelectCase) (w : world) :
  match Select cases w with
  | Ok _ w' | Blocked w' => frame w w'
  | Panics _ | Exhausted => True
  end.
Proof.
  unfold Select. destruct (maxSelectCases <? Z.of_nat (length cases))%Z; [exact I|].
  destruct (ready (sync w) cases) as [|i0 rdy].
  - destruct (next_due (sync w) cases) as [T|]; [|apply frame_advance].
    destruct (pick _ _) as [i w'|w'| |] eqn:Hp; try exact I.
    + apply pick_world in Hp as [cs ->].
      eapply frame_trans; [apply frame_advance|].
      eapply frame_trans; [apply frame_advance | apply frame_set_choices].
    + unfold pick in Hp. destruct (ready _ _); [discriminate|].
      now destruct (choices _).
  - destruct (pick _ _) as [i w'|w'| |] eqn:Hp; try exact I.
    + apply pick_world in Hp as [cs ->].
      eapply frame_trans; [apply frame_advance | apply frame_set_choices].
    + unfold pick in Hp. now destruct (choices _).
Qed.

Lemma Err_frame (p : nat) (w : world) :
  match Err p w with
  | Ok _ w' | Blocked w' => frame w w'
  | Panics _ | Exhausted => True
  end.
Proof. unfold Err. destruct (heap (sync w) !! p); [apply frame_advance | exact I]. Qed.

Lemma recv_frame (p : nat) (w : world) :
  match recv p w with
  | Ok _ w' | Blocked w' => frame w w'
  | Panics _ | Exhausted => True
  end.
Proof.
  unfold recv. destruct (heap (sync w) !! p) as [c|]; [|exact I].
  destruct (task.Done (obj c)); [apply frame_advance|].
  destruct (due (sync w) c); [|apply frame_advance].
  eapply frame_trans; apply frame_advance.
Qed.

Lemma waitFor_frame (p : nat) (w : world) :
  match waitFor p w with
  | Ok _ w' | Blocked w' => frame w w'
  | Panics _ | Exhausted => True
  end.
Proof.
  unfold waitFor, bind. pose proof (recv_frame p w) as Hr.
  destruct (recv p w) as [[] w1|w1| |]; try assumption.
  pose proof (Err_frame p w1) as He.
  destruct (Err p w1) as [r w2|w2| |]; try exact I; eapply frame_trans; eassumption.
Qed.

Lemma wait_loop_frame (fuel : nat) (wg : waitGroup.t) (w : world) :
  match waitGroup.wait_loop fuel wg w with
  | Ok _ w' | Blocked w' => frame w w'
  | Panics _ | Exhausted => True
  end.
Proof.
  revert wg w. induction fuel as [|fuel IH]; intros [ts cs] w;
    cbn [waitGroup.wait_loop waitGroup.cases].
  - destruct cs; [apply frame_refl | exact I].
  - destruct cs as [|c0 cs]; [apply frame_refl|]. unfold bind at 1.
    pose proof (Select_frame (c0 :: cs) w) as HS.
    destruct (Select (c0 :: cs) w) as [i w1|w1| |]; try assumption.
    destruct (waitGroup.remove _ i) as [[task wg1]|]; [|exact I].
    unfold bind. pose proof (Err_frame task w1) as HE.
    destruct (Err task w1) as [[e|] w2|w2| |]; try exact I.
    + eapply frame_trans; eassumption.
    + specialize (IH wg1 w2).
      destruct (waitGroup.wait_loop fuel wg1 w2) as [r w3|w3| |]; try exact I;
        (eapply frame_trans; [|exact IH]); eapply frame_trans; eassumption.
    + eapply frame_trans; eassumption.
Qed.

(* --------------------------------------------------------------------- *)
(** ** [Wait] in terms of the behaviour of the function                   *)
(* --------------------------------------------------------------------- *)

Lemma Wait_cases (w : world) (f : TaskFunc) :
  wf w ->
  match behaviour w (TaskFunc.id f) with
  | None => exists w' : world, Wait f w = Blocked w'
  | Some (d, o) =>
      exists (r : option error) (w' : world),
        Wait f w = Ok r w'
        /\ (r = None <-> ends_nil o = true)
        /\ wf w'
        /\ behaviour w' = behaviour w
  end.
Proof.
  intros Hwf.
  destruct (Task_spec w f Hwf) as (p & w0 & HT & Hwf0 & Hk & _ & _).
  destruct (Task_behaviour _ _ _ _ HT) as [Hb _].
  destruct (fate_registered w0 _ p Hwf0 Hk) as [Hv (f' & t0 & Hid & Hfate)].
  rewrite Hb in Hfate.
  assert (HW : Wait f w = match fate w0 p with
                          | Some (t, r) => Ok r (advance t w0)
                          | None => Blocked (sync w0)
                          end).
  { unfold Wait, bind. rewrite HT. now apply waitFor_spec. }
  rewrite Hfate in HW.
  destruct (behaviour w (TaskFunc.id f)) as [[d o]|]; simpl in HW.
  - exists (outcome_result f' o), (advance (t0 + d) w0).
    split; [exact HW|]. split; [apply outcome_result_nil|].
    split; [now apply wf_advance | exact Hb].
  - now exists (sync w0).
Qed.

(** X9: [Wait] on a function answers by the behaviour of the function: it
    blocks forever when the function never ends, and otherwise answers nil
    exactly when the function left a nil result, by a nil return or by a
    panic after which [recover()] yields nil. A second [Wait] on the same
    function answers the same at once: a task that finished is not run
    again. *)
Theorem Wait_settles (f : TaskFunc) (w : world) :
  wf w ->
  match behaviour w (TaskFunc.id f) with
  | None => exists w' : world, Wait f w = Blocked w'
  | Some (d, o) =>
      exists (r : option error) (w' : world),
        Wait f w = Ok r w'
        /\ (r = None <-> ends_nil o = true)
        /\ Wait f w' = Ok r w'
  end.
Proof.
  intros Hwf. pose proof (Wait_cases w f Hwf) as HC.
  destruct (behaviour w (TaskFunc.id f)) as [[d o]|]; [|exact HC].
  destruct HC as (r & w' & HW & Hr & _ & _). exists r, w'.
  split; [exact HW|]. split; [exact Hr|].
  exact (Wait_again _ _ _ _ Hwf HW).
Qed.

Lemma Wait_settles_witness :
  wf example_world
  /\ exists (r : option error) (w' : world),
       Wait TaskFuncNop0 example_world = Ok r w'
       /\ (r = None <-> ends_nil (Returned None) = true)
       /\ Wait TaskFuncNop0 w' = Ok r w'.
Proof.
  split; [apply wf_new_world|].
  exact (Wait_settles TaskFuncNop0 example_world (wf_new_world _ _ _)).
Defined.

(* --------------------------------------------------------------------- *)
(** ** [Par] and [Ser]: success and the tasks they start                  *)
(* --------------------------------------------------------------------- *)

Lemma Wait_registered (f : TaskFunc) (w w' : world) :
  (exists r : option error, Wait f w = Ok r w') \/ Wait f w = Blocked w' ->
  forall k : N, registered w' k <-> registered w k \/ k = TaskFunc.id f.
Proof.
  intros HW k. unfold Wait, bind in HW.
  destruct (Task_total f w) as (p & w0 & HT). rewrite HT in HW.
  destruct (Task_goroutines _ _ _ _ HT) as [_ Hreg]. rewrite <- Hreg.
  pose proof (waitFor_frame p w0) as Hfr. unfold registered.
  destruct HW as [[r HW]|HW]; rewrite HW in Hfr; destruct Hfr as (Ht & _);
    now rewrite Ht.
Qed.








(** X11: [Par] asks the group for a task for every function of its list
    before it waits. In a well-formed world, with at most 65536 functions it
    neither panics nor runs out of iterations, and when it returns or blocks
    every function of the list has a task in the group, whatever the result,
    and so has every function that had one before: a failure of one function
    does not keep the others from being started. With more than 65536
    functions it panics in [reflect.Select]. *)
Theorem Par_starts_all (funs : list TaskFunc) (w : world) :
  wf w ->
  ((Z.of_nat (length funs) <= maxSelectCases)%Z ->
   match Par funs w with
   | Ok _ w' | Blocked w' =>
       (forall f : TaskFunc, f ∈ funs -> registered w' (TaskFunc.id f))
       /\ forall k : N, registered w k -> registered w' k
   | Panics _ | Exhausted => False
   end)
  /\ ((maxSelectCases < Z.of_nat (length funs))%Z ->
      Par funs w = Panics "reflect.Select: too many cases (max 65536)").
Proof.
  intros Hwf. split.
  - intros Hmax. destruct funs as [|f [|g funs]].
    + cbn. split; [|auto]. intros f Hf. now apply elem_of_nil in Hf.
    + cbn [Par]. pose proof (Wait_no_panic w f Hwf) as Hnp.
      pose proof (Wait_registered f w) as HR.
      destruct (Wait f w) as [r w'|w'| |]; try contradiction.
      * split.
        -- intros g Hg. apply list_elem_of_singleton in Hg as ->.
           apply (HR w' (or_introl (ex_intro _ r eq_refl))). now right.
        -- intros k Hk. apply (HR w' (or_introl (ex_intro _ r eq_refl))). now left.
      * split.
        -- intros g Hg. apply list_elem_of_singleton in Hg as ->.
           apply (HR w' (or_intror eq_refl)). now right.
        -- intros k Hk. apply (HR w' (or_intror eq_refl)). now left.
    + change (Par (f :: g :: funs)) with (Par_group (f :: g :: funs)).
      remember (f :: g :: funs) as l eqn:Hl. clear Hl.
      destruct (add_all_spec l (makeWaitGroup (length l)) w Hwf
                  (parallel_make _) (Forall_nil_2 _))
        as (wg' & w1 & Hadd & Hwf1 & Hp1 & Hv1 & _ & Hlen).
      destruct (add_all_registered _ _ _ _ _ Hadd) as (ps & _ & _ & _ & _ & Hreg).
      cbn [makeWaitGroup waitGroup.wtasks length] in Hlen.
      assert (Hmax1 : (Z.of_nat (length (waitGroup.wtasks wg')) <= maxSelectCases)%Z)
        by (rewrite Hlen; exact Hmax).
      pose proof (wait_spec wg' w1 Hwf1 Hp1 Hv1 Hmax1) as Hpost.
      pose proof (wait_loop_frame (length (waitGroup.cases wg')) wg' w1) as Hfr.
      change (waitGroup.wait_loop (length (waitGroup.cases wg')) wg' w1)
        with (waitGroup.wait wg' w1) in Hfr.
      unfold Par_group, bind. rewrite Hadd.
      assert (Hall : forall w2 : world,
                 tasks w2 = tasks w1 ->
                 (forall h : TaskFunc, h ∈ l -> registered w2 (TaskFunc.id h))
                 /\ forall k : N, registered w k -> registered w2 k).
      { intros w2 Ht. unfold registered in *. rewrite Ht. split.
        - intros h Hh. apply Hreg. right. now apply list_elem_of_fmap_2.
        - intros k Hk. apply Hreg. now left. }
      destruct (waitGroup.wait wg' w1) as [[r wg2] w2|w2| |]; try contradiction.
      * cbn [ret]. destruct Hfr as (Ht & _). now apply Hall.
      * destruct Hfr as (Ht & _). now apply Hall.
  - intros Hmax. destruct funs as [|f [|g funs]].
    + cbn [length] in Hmax. unfold maxSelectCases in Hmax. lia.
    + cbn [length] in Hmax. unfold maxSelectCases in Hmax. lia.
    + change (Par (f :: g :: funs)) with (Par_group (f :: g :: funs)).
      remember (f :: g :: funs) as l eqn:Hl. clear Hl.
      destruct (add_all_spec l (makeWaitGroup (length l)) w Hwf
                  (parallel_make _) (Forall_nil_2 _))
        as (wg' & w1 & Hadd & _ & Hp1 & _ & _ & Hlen).
      cbn [makeWaitGroup waitGroup.wtasks length] in Hlen.
      unfold Par_group, bind. rewrite Hadd.
      rewrite wait_too_many; [reflexivity|].
      unfold parallel in Hp1. rewrite Hp1, length_fmap, Hlen. exact Hmax.
Qed.

Lemma Par_starts_all_witness :
  wf example_world
  /\ (Z.of_nat (length [TaskFuncImmediateErr; site_build]) <= maxSelectCases)%Z
  /\ match Par [TaskFuncImmediateErr; site_build] example_world with
     | Ok _ w' | Blocked w' =>
         (forall f : TaskFunc,
            f ∈ [TaskFuncImmediateErr; site_build] -> registered w' (TaskFunc.id f))
         /\ forall k : N, registered example_world k -> registered w' k
     | Panics _ | Exhausted => False
     end.
Proof.
  assert (Hmax : (Z.of_nat (length [TaskFuncImmediateErr; site_build])
                  <= maxSelectCases)%Z)
    by (cbn [length]; unfold maxSelectCases; lia).
  split; [apply wf_new_world|]. split; [exact Hmax|].
  exact (proj1 (Par_starts_all [TaskFuncImmediateErr; site_build] example_world
                  (wf_new_world _ _ _)) Hmax).
Defined.

(* --------------------------------------------------------------------- *)
(** ** [remove] out of range                                              *)
(* --------------------------------------------------------------------- *)

Lemma slice_delete_None {A : Type} (s : list A) (index : nat) :
  slice_delete s index = None <-> length s <= index.
Proof.
  split; [|apply slice_delete_out_of_range].
  intros H. destruct (decide (index < length s)) as [Hlt|]; [|lia].
  rewrite (slice_delete_in_range s index Hlt) in H. discriminate.
Qed.

(** X13: [remove] panics exactly when its index is out of range of one of
    the two slices; an index in range of both never panics, whatever the
    slices hold. The index expression [self.tasks[index]] and the slice
    expressions [s[index+1:]] of the two deletions are the only places where
    it can. *)
Theorem remove_panics_iff (wg : waitGroup.t) (index : nat) :
  waitGroup.remove wg index = None
  <-> length (waitGroup.wtasks wg) <= index \/ length (waitGroup.cases wg) <= index.
Proof.
  unfold waitGroup.remove.
  destruct (waitGroup.wtasks wg !! index) as [task|] eqn:Hi; cbn [mbind option_bind].
  - pose proof (lookup_lt_Some _ _ _ Hi) as Hlt.
    rewrite (slice_delete_in_range _ _ Hlt). cbn [mbind option_bind].
    destruct (slice_delete (waitGroup.cases wg) index) as [cases'|] eqn:Hc;
      cbn [mbind option_bind].
    + split; [discriminate|]. intros [H|H]; [lia|].
      apply slice_delete_out_of_range in H. congruence.
    + split; [|reflexivity]. intros _. right. now apply slice_delete_None.
  - apply lookup_ge_None in Hi. split; [now left | reflexivity].
Qed.

(* --------------------------------------------------------------------- *)
(** ** The mutex of [taskGroup.Task]                                      *)
(* --------------------------------------------------------------------- *)

Lemma holder_valid_calls (t : nat) (cs : list nat) (beh : N -> option (nat * outcome))
      (funs : list TaskFunc) :
  holder_valid (calls t cs beh funs).
Proof. intros H. discriminate. Qed.

Lemma holder_valid_step (s : conc) (i : nat) : holder_valid s -> holder_valid (step s i).
Proof.
  intros Hv. unfold step.
  destruct (callers s !! i) as [[f at_]|] eqn:Hi; [|exact Hv].
  pose proof (lookup_lt_Some _ _ _ Hi) as Hlt. cbn [arg at_pc].
  assert (Hme : forall (w : world) (l : bool) (next : pc),
             in_critical next = true ->
             holder_valid (Conc w l (<[i := Caller f next]> (callers s)))).
  { intros w l next Hn _. exists i, (Caller f next). cbn [callers].
    split; [now apply list_lookup_insert_eq | exact Hn]. }
  destruct at_ as [| | |created|created|ret|ret].
  - destruct (locked s); [exact Hv | now apply Hme].
  - destruct (taskGroup.lookup _ _); now apply Hme.
  - destruct (taskGroup.create _ _) as [w1 created]. now apply Hme.
  - now apply Hme.
  - now apply Hme.
  - intros H. discriminate.
  - exact Hv.
Qed.

Lemma holder_valid_run (schedule : list nat) (s : conc) :
  holder_valid s -> holder_valid (run_schedule s schedule).
Proof.
  revert s. induction schedule as [|i schedule IH]; intros s Hs; [exact Hs|].
  simpl. apply IH. now apply holder_valid_step.
Qed.

(** X14: mutual exclusion in [taskGroup.Task]. Under every schedule of
    the statements of any number of concurrent calls on a new group, at most
    one call is between [self.Lock()] and the deferred [self.Unlock()], and
    the mutex is locked exactly when some call is there: the map is never
    read or written by two calls at once, and no call leaves the mutex locked
    behind it. *)
Theorem Task_mutual_exclusion (t : nat) (cs : list nat)
        (beh : N -> option (nat * outcome))
        (funs : list TaskFunc) (schedule : list nat) :
  let s := run_schedule (calls t cs beh funs) schedule in
  (forall (i j : nat) (ci cj : caller),
     callers s !! i = Some ci -> callers s !! j = Some cj ->
     in_critical (at_pc ci) = true -> in_critical (at_pc cj) = true -> i = j)
  /\ (locked s = true
      <-> exists (i : nat) (c : caller),
            callers s !! i = Some c /\ in_critical (at_pc c) = true).
Proof.
  intros s.
  assert (Hinv : conc_inv s) by apply run_schedule_inv, calls_inv.
  assert (Hv : holder_valid s) by apply holder_valid_run, holder_valid_calls.
  destruct Hinv as [Hh _ _ _ _ _ _]. split.
  - intros i j ci cj Hi Hj Hci Hcj.
    destruct (decide (j = i)) as [->|Hne]; [reflexivity|].
    rewrite (holder_others _ _ i j ci cj Hh Hi Hci Hj Hne) in Hcj. discriminate.
  - split; [exact Hv|]. intros (i & c & Hi & Hc).
    exact (holder_locked _ _ i c Hh Hi Hc).
Qed.

(* --------------------------------------------------------------------- *)
(** ** Every call of [Task] can return                                    *)
(* --------------------------------------------------------------------- *)

Lemma sum_todo_cons (c : caller) (cs : list caller) :
  sum_list (todo <$> c :: cs) = todo c + sum_list (todo <$> cs).
Proof. reflexivity. Qed.

Lemma todo_insert (cs : list caller) (i : nat) (c c' : caller) :
  cs !! i = Some c -> todo c' < todo c ->
  sum_list (todo <$> <[i := c']> cs) < sum_list (todo <$> cs).
Proof.
  revert i. induction cs as [|c0 cs IH]; intros [|i] Hi Hlt; try discriminate.
  - injection Hi as ->.
    change (<[0 := c']> (c :: cs)) with (c' :: cs). rewrite !sum_todo_cons. lia.
  - change (<[S i := c']> (c0 :: cs)) with (c0 :: <[i := c']> cs).
    rewrite !sum_todo_cons. specialize (IH i Hi Hlt). lia.
Qed.

Lemma todo_pending (cs : list caller) :
  0 < sum_list (todo <$> cs) ->
  exists (i : nat) (c : caller), cs !! i = Some c /\ 0 < todo c.
Proof.
  induction cs as [|c0 cs IH]; [cbn; lia|]. rewrite sum_todo_cons. intros H.
  destruct (decide (0 < todo c0)) as [H0|H0].
  - now exists 0, c0.
  - destruct IH as (i & c & Hi & Hc); [lia|]. now exists (S i), c.
Qed.

Lemma todo_returned (cs : list caller) :
  sum_list (todo <$> cs) = 0 ->
  Forall (fun c => exists ret : ptr, at_pc c = PcReturned ret) cs.
Proof.
  induction cs as [|c0 cs IH]; [constructor|]. rewrite sum_todo_cons.
  intros H. constructor.
  - destruct c0 as [f []]; cbn in H; try lia. eauto.
  - apply IH. lia.
Qed.

Lemma todo_step (s : conc) (i : nat) (c : caller) :
  callers s !! i = Some c -> 0 < todo c ->
  (at_pc c = PcLock -> locked s = false) ->
  todo_all (step s i) < todo_all s.
Proof.
  intros Hi Hpos Hfree. unfold step, todo_all. rewrite Hi.
  destruct c as [f at_]. cbn [arg at_pc] in *.
  destruct at_ as [| | |created|created|ret|ret].
  - rewrite Hfree by reflexivity. cbn [callers]. apply (todo_insert _ _ _ _ Hi); cbn; lia.
  - destruct (taskGroup.lookup _ _); cbn [callers];
      apply (todo_insert _ _ _ _ Hi); cbn; lia.
  - destruct (taskGroup.create _ _) as [w1 created]. cbn [callers].
    apply (todo_insert _ _ _ _ Hi); cbn; lia.
  - cbn [callers]. apply (todo_insert _ _ _ _ Hi); cbn; lia.
  - cbn [callers]. apply (todo_insert _ _ _ _ Hi); cbn; lia.
  - cbn [callers]. apply (todo_insert _ _ _ _ Hi); cbn; lia.
  - cbn in Hpos. lia.
Qed.

Lemma step_progress (s : conc) :
  holder_valid s -> 0 < todo_all s ->
  exists i : nat, todo_all (step s i) < todo_all s.
Proof.
  intros Hv Hpos. destruct (locked s) eqn:Hl.
  - destruct (Hv Hl) as (i & c & Hi & Hc). exists i.
    apply (todo_step s i c Hi).
    + destruct c as [f []]; cbn in Hc |- *; try discriminate; lia.
    + intros Hat. rewrite Hat in Hc. discriminate.
  - destruct (todo_pending _ Hpos) as (i & c & Hi & Hc). exists i.
    apply (todo_step s i c Hi Hc). intros _. exact Hl.
Qed.

Lemma run_schedule_app (s : conc) (l1 l2 : list nat) :
  run_schedule s (l1 ++ l2) = run_schedule (run_schedule s l1) l2.
Proof. apply fold_left_app. Qed.

Lemma can_finish (n : nat) (s : conc) :
  holder_valid s -> todo_all s <= n ->
  exists schedule : list nat,
    length schedule <= n /\ todo_all (run_schedule s schedule) = 0.
Proof.
  revert s. induction n as [|n IH]; intros s Hv Hn.
  - exists []. split; [reflexivity | cbn; lia].
  - destruct (decide (0 < todo_all s)) as [Hpos|Hz].
    + destruct (step_progress s Hv Hpos) as [i Hi].
      destruct (IH (step s i)) as (schedule & Hlen & Hdone).
      * now apply holder_valid_step.
      * lia.
      * exists (i :: schedule). split; [cbn; lia | exact Hdone].
    + exists []. split; [cbn; lia | cbn; lia].
Qed.

Lemma todo_calls (t : nat) (cs : list nat) (beh : N -> option (nat * outcome))
      (funs : list TaskFunc) :
  todo_all (calls t cs beh funs) = 6 * length funs.
Proof.
  unfold todo_all, calls. cbn [callers].
  induction funs as [|f funs IH]; [reflexivity|].
  rewrite fmap_cons, sum_todo_cons, IH. cbn [length todo at_pc]. lia.
Qed.

Lemma todo_run_le (schedule : list nat) (s : conc) :
  todo_all (run_schedule s schedule) <= todo_all s.
Proof.
  revert s. induction schedule as [|i schedule IH]; intros s; [reflexivity|].
  simpl. etransitivity; [apply IH|].
  unfold step, todo_all. destruct (callers s !! i) as [[f at_]|] eqn:Hi; [|reflexivity].
  cbn [arg at_pc].
  assert (Hle : forall (w : world) (l : bool) (next : pc),
             todo (Caller f next) < todo (Caller f at_) ->
             sum_list (todo <$> callers (Conc w l (<[i := Caller f next]> (callers s))))
             <= sum_list (todo <$> callers s)).
  { intros w l next Hlt. cbn [callers].
    pose proof (todo_insert _ _ _ _ Hi Hlt). lia. }
  destruct at_ as [| | |created|created|ret|ret]; try reflexivity.
  - destruct (locked s); [reflexivity | apply Hle; cbn; lia].
  - destruct (taskGroup.lookup _ _); apply Hle; cbn; lia.
  - destruct (taskGroup.create _ _) as [w1 created]. apply Hle; cbn; lia.
  - apply Hle; cbn; lia.
  - apply Hle; cbn; lia.
  - apply Hle; cbn; lia.
Qed.

(** X15: no deadlock in [taskGroup.Task]. From every state that
    concurrent calls on a new group can reach, under whatever schedule, some
    continuation of at most six statements for each call lets every call
    return, with the mutex unlocked: no call can be left waiting for the
    mutex forever by the code of another. *)
Theorem Task_calls_can_return (t : nat) (cs : list nat)
        (beh : N -> option (nat * outcome))
        (funs : list TaskFunc) (schedule : list nat) :
  exists rest : list nat,
    let s := run_schedule (calls t cs beh funs) (schedule ++ rest) in
    length rest <= 6 * length funs
    /\ Forall (fun c => exists ret : ptr, at_pc c = PcReturned ret) (callers s)
    /\ arg <$> callers s = funs
    /\ locked s = false.
Proof.
  set (s0 := run_schedule (calls t cs beh funs) schedule).
  assert (Hv : holder_valid s0) by apply holder_valid_run, holder_valid_calls.
  assert (Hn : todo_all s0 <= 6 * length funs).
  { rewrite <- (todo_calls t cs beh funs). apply todo_run_le. }
  destruct (can_finish _ s0 Hv Hn) as (rest & Hlen & Hdone).
  exists rest. cbn zeta. rewrite run_schedule_app. fold s0.
  set (s := run_schedule s0 rest) in *.
  assert (Hret : Forall (fun c => exists ret : ptr, at_pc c = PcReturned ret) (callers s))
    by now apply todo_returned.
  split; [exact Hlen|]. split; [exact Hret|]. split.
  - unfold s, s0. rewrite !run_schedule_args. unfold calls. cbn [callers].
    rewrite <- list_fmap_compose. apply list_fmap_id.
  - assert (Hv' : holder_valid s) by now apply holder_valid_run.
    destruct (locked s) eqn:Hl; [|reflexivity].
    destruct (Hv' Hl) as (i & c & Hi & Hc).
    rewrite Forall_forall in Hret.
    destruct (Hret c) as [ret Hr].
    + apply list_elem_of_lookup. eauto.
    + rewrite Hr in Hc. discriminate.
Qed.

(* --------------------------------------------------------------------- *)
(** ** [Err] after [Wait]                                                 *)
(* --------------------------------------------------------------------- *)

(** X16: what [Wait] returned stays on the task. In a well-formed world,
    when [Wait] on a function returns, the group holds the task of that
    function, and [Err] on that task answers what [Wait] returned, at once
    and without a change of the clock: the result of a finished task can be
    read again from the task itself. *)
Theorem Err_after_Wait (f : TaskFunc) (w : world) :
  wf w ->
  match Wait f w with
  | Ok r w' =>
      exists (p : ptr) (w'' : world),
        tasks w' !! TaskFunc.id f = Some p
        /\ Err p w' = Ok r w''
        /\ now w'' = now w'
  | Blocked _ => True
  | Panics _ | Exhausted => False
  end.
Proof.
  intros Hwf.
  destruct (Task_spec w f Hwf) as (p & w1 & HT & Hwf1 & Hk & _ & _).
  destruct (fate_registered w1 _ p Hwf1 Hk) as [Hv _].
  assert (HW : Wait f w = match fate w1 p with
                          | Some (t, r) => Ok r (advance t w1)
                          | None => Blocked (sync w1)
                          end).
  { unfold Wait, bind. rewrite HT. now apply waitFor_spec. }
  rewrite HW. destruct (fate w1 p) as [[t r]|] eqn:Hfate; [|exact I].
  exists p, (sync (advance t w1)). split; [exact Hk|].
  rewrite (Err_spec (advance t w1) p (wf_advance _ _ Hwf1)
             (proj2 (valid_advance _ _ _) Hv)).
  split; [|unfold sync; rewrite advance_now; lia].
  f_equal. unfold err_at. rewrite fate_advance, Hfate, advance_now.
  now rewrite (proj2 (Nat.leb_le _ _)) by lia.
Qed.

Lemma Err_after_Wait_witness :
  wf example_world
  /\ match Wait TaskFuncImmediateErr example_world with
     | Ok r w' =>
         exists (p : ptr) (w'' : world),
           tasks w' !! TaskFunc.id TaskFuncImmediateErr = Some p
           /\ Err p w' = Ok r w''
           /\ now w'' = now w'
     | Blocked _ => True
     | Panics _ | Exhausted => False
     end.
Proof.
  split; [apply wf_new_world|].
  exact (Err_after_Wait TaskFuncImmediateErr example_world (wf_new_world _ _ _)).
Defined.

(* --------------------------------------------------------------------- *)
(** ** [Start], [Run] and [RunCmd]                                        *)
(* --------------------------------------------------------------------- *)

Lemma wf_new_group (w : world) : wf (new_group w).
Proof.
  split; [constructor|]. intros k p H. cbn in H. now rewrite lookup_empty in H.
Qed.

(** X17: [Run] makes a group of its own and answers with the result of
    its root task. Whatever the group of the caller holds, [Start] gives the
    function the first task of a new group and starts it; [Run] blocks
    forever when the function never ends, and otherwise returns, at the time
    the function ends, the result that [run] and [finalize] record for it,
    with the task still in the group. A function that has a finished task in
    the group of the caller is run again. *)
Theorem Run_root_result (f : TaskFunc) (w : world) :
  (exists w1 : world,
     Start f w = Ok 0 w1
     /\ tasks w1 !! TaskFunc.id f = Some 0
     /\ 0 ∈ goroutines w1
     /\ now w1 = now w)
  /\ match behaviour w (TaskFunc.id f) with
     | None => exists w' : world, Run f w = Blocked w'
     | Some (d, o) =>
         exists w' : world,
           Run f w = Ok (outcome_result f o) w'
           /\ now w' = now w + d
           /\ tasks w' !! TaskFunc.id f = Some 0
     end.
Proof.
  assert (HS : Start f w = Ok 0 (with_new_task (new_group w) f)).
  { unfold Start. now rewrite Task_new by apply lookup_empty. }
  split.
  { exists (with_new_task (new_group w) f). split; [exact HS|].
    cbn [tasks goroutines now with_new_task new_group heap length app].
    split; [apply lookup_insert_eq|]. split; [apply list_elem_of_here | reflexivity]. }
  unfold Run, bind. rewrite HS.
  rewrite waitFor_spec;
    [|apply wf_with_new_task, wf_new_group | unfold valid; cbn; lia].
  change 0 with (length (heap (new_group w))).
  rewrite fate_with_new_task_new.
  change (behaviour (new_group w)) with (behaviour w).
  destruct (behaviour w (TaskFunc.id f)) as [[d o]|]; cbn [fmap option_fmap option_map].
  - eexists. split; [reflexivity|]. rewrite advance_now. cbn [now new_group with_new_task].
    split; [lia|]. cbn [tasks advance with_new_task new_group].
    apply lookup_insert_eq.
  - eexists. reflexivity.
Qed.

(** X18: on ASCII arguments and candidates with ASCII names, [RunCmd] runs
    the one function the arguments name, or starts nothing. Either the
    arguments are one name, [dedup] accepts the candidates, the lookup of the
    name finds a function, and [RunCmd] is [Run] of that function; or
    [Choose] selects no function and [RunCmd] returns an error in the world
    it was called in: no group is made and no task is started. *)
Theorem RunCmd_runs_chosen (args : list string) (funs : list TaskFunc) (w : world) :
  ascii_names funs -> Forall (fun name => is_ascii name = true) args ->
  (exists (f : TaskFunc.func) (name : string),
     args = [name]
     /\ snd (dedup funs) = None
     /\ taskFuncs.byTaskName funs name = Some f
     /\ In (Some f) funs
     /\ RunCmd args funs w = Run (Some f) w)
  \/ (exists e : error,
        (forall g : TaskFunc, Choose args funs <> (g, None))
        /\ RunCmd args funs w = Ok (Some e) w).
Proof.
  intros _ _. unfold RunCmd. destruct (Choose_total args funs) as [[f HC]|[e HC]].
  - left. rewrite HC.
    destruct (Choose_ok _ _ _ HC) as (_ & name & -> & _ & Hin & Hby & _).
    exists f, name. split; [reflexivity|]. split.
    + unfold Choose in HC. now destruct (dedup funs) as [known [e|]].
    + split; [exact Hby|]. split; [exact Hin | reflexivity].
  - right. rewrite HC. exists e. split; [|reflexivity].
    intros g Hg. congruence.
Qed.

Lemma RunCmd_runs_chosen_witness :
  ascii_names site_funs
  /\ Forall (fun name => is_ascii name = true) ["build"; "styles"]
  /\ exists e : error,
       RunCmd ["build"; "styles"] site_funs example_world = Ok (Some e) example_world.
Proof.
  assert (Hn : Forall (fun name => is_ascii name = true) ["build"; "styles"])
    by (repeat constructor).
  split; [exact ascii_site_funs|]. split; [exact Hn|].
  destruct (RunCmd_runs_chosen ["build"; "styles"] site_funs example_world
              ascii_site_funs Hn)
    as [(f & name & Hargs & _)|(e & _ & HR)]; [discriminate Hargs|].
  now exists e.
Defined.
